(** * Learner::transform — a shallow embedding of src/learn/transform.cpp

    The file follows the C++ translation unit top to bottom: machine
    integers and binary32 arithmetic, the two parameter structs, [nudge],
    the static-rescoring driver, the token parsers, the search-rescoring
    driver with its worker pool, and the command dispatcher.  The second
    half states and proves the properties of these definitions. *)

From Stdlib Require Import ZArith Lia Bool List.
From Stdlib Require Import SpecFloat.
From stdpp Require Import base option list strings gmap.

Local Open Scope Z_scope.

(** ** Machine integers

    C++ [int] is 32 bits wide here, [std::int16_t] 16 bits and
    [uint64_t] 64 bits.  A value is a [Z]; every operation writes its
    wrap-around out. *)

Module MachineInt.

Definition int_min : Z := -2147483648.
Definition int_max : Z := 2147483647.
Definition i16_min : Z := -32768.
Definition i16_max : Z := 32767.

Definition in_int (z : Z) : Prop := int_min <= z <= int_max.
Definition in_i16 (z : Z) : Prop := i16_min <= z <= i16_max.

Definition in_i16b (z : Z) : bool := (i16_min <=? z) && (z <=? i16_max).

(** Two's-complement reduction to [bits] bits. *)
Definition wrap_signed (bits : Z) (z : Z) : Z :=
  (z + 2 ^ (bits - 1)) mod 2 ^ bits - 2 ^ (bits - 1).

Definition to_int (z : Z) : Z := wrap_signed 32 z.
Definition to_i16 (z : Z) : Z := wrap_signed 16 z.
Definition to_u64 (z : Z) : Z := z mod 2 ^ 64.

Definition int_add (a b : Z) : Z := to_int (a + b).
Definition int_sub (a b : Z) : Z := to_int (a - b).
Definition int_neg (a : Z) : Z := to_int (- a).

Definition u64_add (a b : Z) : Z := to_u64 (a + b).

(** [std::clamp(v, lo, hi)] on a type ordered by [ltb]:
    [(v < lo) ? lo : (hi < v) ? hi : v]. *)
Definition std_clamp {A : Type} (ltb : A -> A -> bool) (v lo hi : A) : A :=
  if ltb v lo then lo else if ltb hi v then hi else v.

(** [std::max(a, b)]: [(a < b) ? b : a]. *)
Definition std_max {A : Type} (ltb : A -> A -> bool) (a b : A) : A :=
  if ltb a b then b else a.

End MachineInt.

Export MachineInt.

(** ** IEEE-754 binary32

    C++ [float] is the binary32 format: 24 bits of precision and
    [emax = 128].  Values are [spec_float]s and the operations are the
    ones of the standard library's executable specification, rounding to
    nearest, ties to even. *)

Module F32.

Definition prec : Z := 24.
Definition emax : Z := 128.

Definition float32 : Type := spec_float.

Definition valid (x : float32) : bool := valid_binary prec emax x.

Definition add : float32 -> float32 -> float32 := SFadd prec emax.
Definition sub : float32 -> float32 -> float32 := SFsub prec emax.
Definition mul : float32 -> float32 -> float32 := SFmul prec emax.
Definition div : float32 -> float32 -> float32 := SFdiv prec emax.

Definition ltb : float32 -> float32 -> bool := SFltb.
Definition leb : float32 -> float32 -> bool := SFleb.
Definition eqb : float32 -> float32 -> bool := SFeqb.

Definition is_nan (x : float32) : bool :=
  match x with S754_nan => true | _ => false end.

(** [0.0f] and [1.0f]. *)
Definition zero : float32 := S754_zero false.
Definition one : float32 := S754_finite false 8388608 (-23).

(** [0.1] narrowed to [float]: the binary32 number nearest to one
    tenth, [0x3DCCCCCD]. *)
Definition one_tenth : float32 := S754_finite false 13421773 (-27).

(** [(float)i] for an [int] [i]. *)
Definition of_int (i : Z) : float32 := binary_normalize prec emax i 0 false.

(** The integer part of a finite number, rounding toward zero. *)
Definition trunc (x : float32) : option Z :=
  match x with
  | S754_zero _ => Some 0
  | S754_finite s m e =>
      let a := match e with
               | Zneg p => Z.shiftr (Zpos m) (Zpos p)
               | _ => Z.shiftl (Zpos m) e
               end in
      Some (if s then - a else a)
  | _ => None
  end.

(** [(int)x]: truncation toward zero.  When the truncated value is
    not an [int], or [x] is an infinity or a NaN, the conversion has no
    defined result in C++; the x86-64 conversion instruction
    ([cvttss2si]) then delivers the "integer indefinite" value
    [INT_MIN], which is what the model returns. *)
Definition int_representable (x : float32) : bool :=
  match trunc x with
  | Some z => (int_min <=? z) && (z <=? int_max)
  | None => false
  end.

Definition to_int (x : float32) : Z :=
  match trunc x with
  | Some z => if (int_min <=? z) && (z <=? int_max) then z else int_min
  | None => int_min
  end.

(** The exponent of the format at magnitude [e], and the last step of
    [binary_round_aux]: the value for a final mantissa [m] at the
    exponent [e].  Both are used to state what the operations return. *)
Definition fexp32 (e : Z) : Z := Z.max (e - 24) (-149).

Definition pack (sx : bool) (m e : Z) : float32 :=
  match m with
  | Z0 => S754_zero sx
  | Zpos p => if e <=? 104 then S754_finite sx p e else S754_infinity sx
  | Zneg _ => S754_nan
  end.

(** [fits x E]: [x] is a zero, or finite with a mantissa of at most 24
    bits at an exponent of at most [E]; its magnitude is below
    [2 ^ (24 + E)]. *)
Definition fits (x : float32) (E : Z) : Prop :=
  match x with
  | S754_zero _ => True
  | S754_finite _ m e => Zdigits2 (Zpos m) <= 24 /\ e <= E
  | _ => False
  end.

(** [wide x]: [x] is a number, and when finite its mantissa has at most
    24 bits. *)
Definition wide (x : float32) : Prop :=
  match x with
  | S754_nan => False
  | S754_finite _ m _ => Zdigits2 (Zpos m) <= 24
  | _ => True
  end.

(** Structural equality of two values. *)
Definition same (x y : float32) : bool :=
  match x, y with
  | S754_zero a, S754_zero b => Bool.eqb a b
  | S754_infinity a, S754_infinity b => Bool.eqb a b
  | S754_nan, S754_nan => true
  | S754_finite a m e, S754_finite b m' e' =>
      Bool.eqb a b && (m =? m')%positive && (e =? e')
  | _, _ => false
  end.

(** [P] on the [n] integers from [z] on. *)
Fixpoint all_from (n : nat) (z : Z) (P : Z -> bool) : bool :=
  match n with
  | O => true
  | S k => P z && all_from k (z + 1) P
  end.

(** What holds of the conversion of every 16-bit integer, checked by
    evaluation: the shape of [(float)i], that the conversion back is
    exact, and that multiplication by [1.0f] changes nothing. *)
Definition of_int_shape (i : Z) : bool :=
  match of_int i with
  | S754_zero sg => (i =? 0) && negb sg
  | S754_finite sg m e =>
      negb (i =? 0) && Bool.eqb sg (i <? 0)
      && (Zdigits2 (Zpos m) =? 24) && (e =? Zdigits2 (Z.abs i) - 24)
      && (Zdigits2 (Z.abs i) <=? 16)
  | _ => false
  end.

Definition of_int_exact (i : Z) : bool :=
  match trunc (of_int i) with
  | Some z => z =? i
  | None => false
  end.

Definition mul_one_exact (i : Z) : bool :=
  same (mul (of_int i) one) (of_int i).

End F32.

Export F32(float32).

(** ** Parameter structs *)

Inductive NudgedStaticMode : Type :=
  | Absolute
  | Relative
  | Interpolate.

Module NudgedStaticParams.

Record t : Type := mk {
  input_filename : string;
  output_filename : string;
  mode : NudgedStaticMode;
  absolute_nudge : Z;          (* int *)
  relative_nudge : float32;    (* float *)
  interpolate_nudge : float32  (* float *)
}.

(** The default member initialisers. *)
Definition default : t := {|
  input_filename := "in.binpack";
  output_filename := "out.binpack";
  mode := Absolute;
  absolute_nudge := 5;
  relative_nudge := F32.one_tenth;
  interpolate_nudge := F32.one_tenth
|}.

Definition enforce_constraints (p : t) : t := {|
  input_filename := input_filename p;
  output_filename := output_filename p;
  mode := mode p;
  absolute_nudge := std_max Z.ltb (absolute_nudge p) 0;
  relative_nudge := std_max F32.ltb (relative_nudge p) F32.zero;
  interpolate_nudge := interpolate_nudge p
|}.

End NudgedStaticParams.

Module RescoreFenParams.

Record t : Type := mk {
  input_filename : string;
  output_filename : string;
  depth : Z                    (* int *)
}.

Definition default : t := {|
  input_filename := "in.epd";
  output_filename := "out.binpack";
  depth := 3
|}.

Definition enforce_constraints (p : t) : t := {|
  input_filename := input_filename p;
  output_filename := output_filename p;
  depth := std_max Z.ltb 1 (depth p)
|}.

End RescoreFenParams.

(** ** The score adjuster *)

Definition saturate_i32_to_i16 (v : Z) : Z :=
  to_i16 (std_clamp Z.ltb v i16_min i16_max).

Definition saturate_f32_to_i16 (v : float32) : Z :=
  saturate_i32_to_i16 (F32.to_int v).

(** [nudge] proper.  The two scores arrive as [std::int16_t] and are
    widened to [int]. *)
Definition nudge (params : NudgedStaticParams.t)
    (static_eval_i16 deep_eval_i16 : Z) : Z :=
  let static_eval := static_eval_i16 in
  let deep_eval := deep_eval_i16 in
  match NudgedStaticParams.mode params with
  | Absolute =>
      saturate_i32_to_i16
        (int_add static_eval
           (std_clamp Z.ltb
              (int_sub deep_eval static_eval)
              (int_neg (NudgedStaticParams.absolute_nudge params))
              (NudgedStaticParams.absolute_nudge params)))
  | Relative =>
      saturate_f32_to_i16
        (F32.mul (F32.of_int static_eval)
           (std_clamp F32.ltb
              (F32.div (F32.of_int deep_eval) (F32.of_int static_eval))
              (F32.sub F32.one (NudgedStaticParams.relative_nudge params))
              (F32.add F32.one (NudgedStaticParams.relative_nudge params))))
  | Interpolate =>
      saturate_f32_to_i16
        (F32.add
           (F32.mul (F32.of_int static_eval)
              (F32.sub F32.one (NudgedStaticParams.interpolate_nudge params)))
           (F32.mul (F32.of_int deep_eval)
              (NudgedStaticParams.interpolate_nudge params)))
  end.

(** ** Collaborators

    Everything the translation unit calls but does not define: the
    position, evaluator and search services, the record source and sink,
    the text file of positions, the numeric extraction of the stream
    library and the thread pool. *)

(** What [num_get] does with the characters at the head of a stream:
    it stores a value and consumes that many characters, or it stores a
    value (zero, or the nearest bound on overflow) and sets [failbit]. *)
Inductive num_result (A : Type) : Type :=
  | NumOk (v : A) (consumed : nat)
  | NumFail (stored : A).

Arguments NumOk {A} v consumed.
Arguments NumFail {A} stored.

(** ** Position records

    Modelled from the spec: [PackedSfenValue] is declared in
    packed_sfen.h, which is not part of the sources at hand; the fields
    are the ones the drivers assign, and [score] is the [std::int16_t]
    that [nudge] takes and returns. *)
Record PackedSfenValue (PackedSfen Move : Type) : Type := mkPSV {
  sfen : PackedSfen;
  score : Z;
  move : Move;
  gamePly : Z;
  game_result : Z;
  padding : Z
}.

Arguments mkPSV {PackedSfen Move} sfen score move gamePly game_result padding.
Arguments sfen {PackedSfen Move} p.
Arguments score {PackedSfen Move} p.
Arguments move {PackedSfen Move} p.
Arguments gamePly {PackedSfen Move} p.
Arguments game_result {PackedSfen Move} p.
Arguments padding {PackedSfen Move} p.

Class Services : Type := {
  PackedSfen : Type;
  Move : Type;
  Position : Type;
  (* Position *)
  set_from_packed_sfen : PackedSfen -> Position;
  set_from_fen : string -> Position;
  set_rule50 : Position -> Z -> Position;
  sfen_pack : Position -> PackedSfen;
  (* Eval::evaluate, Search::search: a [Value] is an [int] *)
  evaluate : Position -> Z;
  search : Position -> Z -> Z -> Z * list Move;
  (* Learner::open_sfen_input_file: [None] is [nullptr], otherwise the
     records that successive [next()] calls deliver *)
  open_sfen_input_file : string -> option (list (PackedSfenValue PackedSfen Move));
  (* Learner::create_new_sfen_output: [false] is [nullptr] *)
  create_new_sfen_output : string -> bool;
  (* std::ifstream: [None] when the file cannot be opened, otherwise its
     lines *)
  ifstream : string -> option (list string);
  (* operator>> on int and float *)
  num_get_int : string -> num_result Z;
  num_get_float : string -> num_result float32;
  (* Threads: the size of the pool, and which runnable worker the
     scheduler lets run at each step *)
  pool_size : nat;
  schedule : nat -> nat
}.

Abbreviation PSV := (PackedSfenValue PackedSfen Move).
Abbreviation PSVector := (list (PackedSfenValue PackedSfen Move)).

Definition set_score `{Services} (ps : PSV) (v : Z) : PSV :=
  {| sfen := sfen ps; score := v; move := move ps; gamePly := gamePly ps;
     game_result := game_result ps; padding := padding ps |}.

(** The line feed that ends every message. *)
Definition LF : string := String (Ascii.ascii_of_nat 10) EmptyString.

(** ** The observable world

    What a run leaves behind: the pieces inserted into [std::cout] and
    [std::cerr], the files opened or created, the batches handed to
    [out->write], the number of [Eval::NNUE::init()] calls and the
    process-wide [Search::Limits]. *)

Inductive chunk : Type :=
  | Str (s : string)
  | Num (z : Z)
  | Flt (f : float32).

Inductive file_event : Type :=
  | OpenInput (name : string)
  | CreateOutput (name : string).

(** [Search::Limits], as far as this file assigns it. *)
Record LimitsType : Type := mkLimits {
  infinite : bool;
  silent : bool;
  nodes : Z;
  limits_depth : Z
}.

Record World `{Services} : Type := mkWorld {
  cout : list chunk;
  cerr : list chunk;
  files : list file_event;
  written : list PSVector;
  nnue_inits : nat;
  limits : LimitsType
}.

Section WorldOps.
Context `{Services}.

Definition print (cs : list chunk) (w : World) : World :=
  {| cout := cout w ++ cs; cerr := cerr w; files := files w;
     written := written w; nnue_inits := nnue_inits w;
     limits := limits w |}.

Definition print_err (cs : list chunk) (w : World) : World :=
  {| cout := cout w; cerr := cerr w ++ cs; files := files w;
     written := written w; nnue_inits := nnue_inits w;
     limits := limits w |}.

Definition touch (f : file_event) (w : World) : World :=
  {| cout := cout w; cerr := cerr w; files := files w ++ [f];
     written := written w; nnue_inits := nnue_inits w;
     limits := limits w |}.

(** [out->write(buffer)] on a sink that exists. *)
Definition write (buffer : PSVector) (w : World) : World :=
  {| cout := cout w; cerr := cerr w; files := files w;
     written := written w ++ [buffer]; nnue_inits := nnue_inits w;
     limits := limits w |}.

(** [Eval::NNUE::init()]. *)
Definition nnue_init (w : World) : World :=
  {| cout := cout w; cerr := cerr w; files := files w;
     written := written w; nnue_inits := S (nnue_inits w);
     limits := limits w |}.

Definition set_limits (l : LimitsType) (w : World) : World :=
  {| cout := cout w; cerr := cerr w; files := files w;
     written := written w; nnue_inits := nnue_inits w;
     limits := l |}.

Definition empty_world : World :=
  mkWorld _ [] [] [] [] 0%nat (mkLimits false false 0 0).

End WorldOps.

(** How a call ends: it returns, or it dereferences the null sink. *)
Inductive outcome `{Services} : Type :=
  | Returns (w : World)
  | NullSink (w : World).

Definition world_of `{Services} (o : outcome) : World :=
  match o with Returns w | NullSink w => w end.

(** The sum of the sizes of a sequence of batches. *)
Definition total_size {A : Type} (batches : list (list A)) : Z :=
  foldr (fun b n => Z.of_nat (length b) + n) 0 batches.

(** ** The static-rescoring driver *)

Section NudgedStatic.
Context `{Services}.

Definition nudged_batch_size : Z := 1000000.

(** The loop state: [buffer], [num_processed] and the world. *)
Record nudged_state : Type := mkNS {
  ns_buffer : PSVector;
  ns_num_processed : Z;        (* uint64_t *)
  ns_world : World
}.

(** The flush both branches perform:
    [num_processed += buffer.size(); out->write(buffer);
     buffer.clear(); std::cout << "Processed " << ... ]. *)
Definition nudged_flush (st : nudged_state) : nudged_state :=
  let n := u64_add (ns_num_processed st) (Z.of_nat (length (ns_buffer st))) in
  {| ns_buffer := [];
     ns_num_processed := n;
     ns_world := print [Str "Processed "; Num n; Str (" positions." +:+ LF)] (write (ns_buffer st) (ns_world st)) |}.

(** The body of the [for (;;)] loop for one record. *)
Definition nudged_record (params : NudgedStaticParams.t)
    (ps : PSV) : PSV :=
  let pos := set_from_packed_sfen (sfen ps) in
  let static_eval := evaluate pos in
  let deep_eval := score ps in
  set_score ps (nudge params (to_i16 static_eval) deep_eval).

Fixpoint nudged_loop (params : NudgedStaticParams.t)
    (input : PSVector) (st : nudged_state) : nudged_state :=
  match input with
  | [] => st
  | ps :: rest =>
      let st1 := {| ns_buffer := ns_buffer st ++ [nudged_record params ps];
                    ns_num_processed := ns_num_processed st;
                    ns_world := ns_world st |} in
      let st2 := if nudged_batch_size <=? Z.of_nat (length (ns_buffer st1))
                 then nudged_flush st1 else st1 in
      nudged_loop params rest st2
  end.

(** What follows the loop: the flush of a partial batch. *)
Definition nudged_drain (st : nudged_state) : nudged_state :=
match ns_buffer st with
| [] => st
| _ :: _ => nudged_flush st
end.

Definition do_nudged_static (params : NudgedStaticParams.t) (w : World) : outcome :=
let in_ := open_sfen_input_file (NudgedStaticParams.input_filename params) in
let w := touch (OpenInput (NudgedStaticParams.input_filename params)) w in
let out := create_new_sfen_output (NudgedStaticParams.output_filename params) in
let w := touch (CreateOutput (NudgedStaticParams.output_filename params)) w in
match in_ with
| None => Returns (print_err [Str ("Invalid input file type." +:+ LF)] w)
| Some input =>
    if negb out then Returns (print_err [Str ("Invalid output file type." +:+ LF)] w)
    else
      let st := nudged_drain (nudged_loop params input (mkNS [] 0 w)) in
      Returns (print [Str ("Finished." +:+ LF)] (ns_world st))
end.

End NudgedStatic.

(** ** The argument stream

    A [std::istringstream]: the characters not yet read and [failbit].
    Formatted extraction skips leading white space; at the end of the
    characters it fails and stores nothing. *)

Module IStream.

Record t : Type := mk {
  buf : string;
  failbit : bool
}.

Definition of_string (s : string) : t := mk s false.

(** [std::isspace] in the "C" locale. *)
Definition isspace (c : Ascii.ascii) : bool :=
  let n := Ascii.N_of_ascii c in
  ((n =? 32) || ((9 <=? n) && (n <=? 13)))%N.

Fixpoint skip_ws (s : string) : string :=
  match s with
  | EmptyString => EmptyString
  | String c s' => if isspace c then skip_ws s' else s
  end.

(** The characters up to the next white space, and what follows. *)
Fixpoint read_word (s : string) : string * string :=
  match s with
  | EmptyString => (EmptyString, EmptyString)
  | String c s' =>
      if isspace c then (EmptyString, s)
      else let '(w, r) := read_word s' in (String c w, r)
  end.

Fixpoint drop (n : nat) (s : string) : string :=
  match n, s with
  | S n', String _ s' => drop n' s'
  | _, _ => s
  end.

(** [is >> str] for a [std::string]. *)
Definition get_string (ins : t) : option string * t :=
  if failbit ins then (None, ins)
  else
    match skip_ws (buf ins) with
    | EmptyString => (None, mk EmptyString true)
    | s => let '(w, r) := read_word s in (Some w, mk r false)
    end.

(** [is >> x] for a number, [num_get] doing the conversion. *)
Definition get_num {A : Type} (num_get : string -> num_result A)
    (ins : t) : option A * t :=
  if failbit ins then (None, ins)
  else
    match skip_ws (buf ins) with
    | EmptyString => (None, mk EmptyString true)
    | s =>
        match num_get s with
        | NumOk v n => (Some v, mk (drop n s) false)
        | NumFail v => (Some v, mk s true)
        end
    end.

(** Whether [key] occurs somewhere in [s]. *)
Fixpoint occurs (key s : string) : bool :=
  String.prefix key s ||
  match s with
  | EmptyString => false
  | String _ s' => occurs key s'
  end.

End IStream.

(** [is >> field]: the field keeps its value when nothing is stored. *)
Definition store {A : Type} (old : A) (got : option A) : A :=
  match got with Some v => v | None => old end.

(** ** nudged_static: parsing and echo *)

Section NudgedStaticCommand.
Context `{Services}.

Import NudgedStaticParams.

Definition with_absolute (p : t) (got : option Z) : t :=
  mk (input_filename p) (output_filename p) Absolute
     (store (absolute_nudge p) got) (relative_nudge p) (interpolate_nudge p).

Definition with_relative (p : t) (got : option float32) : t :=
  mk (input_filename p) (output_filename p) Relative
     (absolute_nudge p) (store (relative_nudge p) got) (interpolate_nudge p).

Definition with_interpolate (p : t) (got : option float32) : t :=
  mk (input_filename p) (output_filename p) Interpolate
     (absolute_nudge p) (relative_nudge p) (store (interpolate_nudge p) got).

Definition with_input_file (p : t) (got : option string) : t :=
  mk (store (input_filename p) got) (output_filename p) (mode p)
     (absolute_nudge p) (relative_nudge p) (interpolate_nudge p).

Definition with_output_file (p : t) (got : option string) : t :=
  mk (input_filename p) (store (output_filename p) got) (mode p)
     (absolute_nudge p) (relative_nudge p) (interpolate_nudge p).

(** The [while (true)] loop.  [fuel] bounds the number of iterations;
    [None] means it was too small. *)
Fixpoint nudged_static_loop (fuel : nat) (ins : IStream.t) (params : t)
    : option t :=
  match fuel with
  | O => None
  | S fuel =>
      let '(got, ins) := IStream.get_string ins in
      let token := store EmptyString got in
      if String.eqb token "" then Some params
      else if String.eqb token "absolute" then
        let '(v, ins) := IStream.get_num num_get_int ins in
        nudged_static_loop fuel ins (with_absolute params v)
      else if String.eqb token "relative" then
        let '(v, ins) := IStream.get_num num_get_float ins in
        nudged_static_loop fuel ins (with_relative params v)
      else if String.eqb token "interpolate" then
        let '(v, ins) := IStream.get_num num_get_float ins in
        nudged_static_loop fuel ins (with_interpolate params v)
      else if String.eqb token "input_file" then
        let '(v, ins) := IStream.get_string ins in
        nudged_static_loop fuel ins (with_input_file params v)
      else if String.eqb token "output_file" then
        let '(v, ins) := IStream.get_string ins in
        nudged_static_loop fuel ins (with_output_file params v)
      else nudged_static_loop fuel ins params
  end.

(** Every iteration that goes on has read a character, so one more
    iteration than there are characters is enough. *)
Definition nudged_static_params (ins : IStream.t) : option t :=
  nudged_static_loop (S (String.length (IStream.buf ins))) ins default.

Definition nudged_static_echo (params : t) : list chunk :=
  [Str ("Performing transform nudged_static with parameters:" +:+ LF);
   Str "input_file          : "; Str (input_filename params); Str LF;
   Str "output_file         : "; Str (output_filename params); Str LF;
   Str LF] ++
  match mode params with
  | Absolute =>
      [Str ("mode                : absolute" +:+ LF);
       Str "absolute_nudge      : "; Num (absolute_nudge params); Str LF]
  | Relative =>
      [Str ("mode                : relative" +:+ LF);
       Str "relative_nudge      : "; Flt (relative_nudge params); Str LF]
  | Interpolate =>
      [Str ("mode                : interpolate" +:+ LF);
       Str "interpolate_nudge   : "; Flt (interpolate_nudge params); Str LF]
  end ++
  [Str LF].

Definition nudged_static (ins : IStream.t) (w : World) : option outcome :=
  params ← nudged_static_params ins;
  let w := print (nudged_static_echo params) w in
  let params := enforce_constraints params in
  Some (do_nudged_static params w).

End NudgedStaticCommand.

(** ** The search-rescoring driver

    [Threads.execute_with_workers] runs the closure once on each thread
    of the pool.  Between two lock operations a worker touches only its
    own variables, so a run is an interleaving of three kinds of atomic
    step: a [next_fen] call, a search together with the construction of
    the record, and the critical section that appends to [buffer]. *)

Section RescoreFen.
Context `{Services}.

Definition rescore_batch_size : Z := 10000.

(** [next_fen] on the lines [fens_file] still holds: the line read, if
    [std::getline] delivered one of at least ten characters, and the
    lines left. *)
Definition next_fen (fens_file : list string) : option string * list string :=
  match fens_file with
  | [] => (None, [])
  | fen :: rest =>
      if (10 <=? String.length fen)%nat then (Some fen, rest) else (None, rest)
  end.

(** Where a worker stands in the closure. *)
Inductive worker : Type :=
  | AtNextFen                 (* about to call next_fen *)
  | AtSearch (fen : string)   (* holds a line, about to search *)
  | AtAppend (ps : PSV)       (* holds a record, about to lock mutex *)
  | Finished.                 (* returned from the closure *)

Record pool : Type := mkPool {
  fens_file : list string;
  workers : list worker;
  buffer : PSVector;
  num_processed : Z;           (* uint64_t *)
  out : bool;                  (* out != nullptr *)
  pool_world : World;
  null_deref : bool;           (* out->write was called on nullptr *)
  searches : nat               (* Search::search calls made so far *)
}.

Definition set_worker (i : nat) (wk : worker) (fens : list string) (p : pool) : pool :=
  {| fens_file := fens; workers := <[i := wk]> (workers p);
     buffer := buffer p; num_processed := num_processed p; out := out p;
     pool_world := pool_world p; null_deref := null_deref p;
     searches := searches p |}.

(** The record a successful search produces. *)
Definition rescored (pos : Position) (search_value : Z) (best : Move) : PSV :=
  {| sfen := sfen_pack pos;
     score := to_i16 search_value;
     move := best;
     gamePly := 1;
     game_result := 0;
     padding := 0 |}.

(** From [pos.set] to the construction of [ps]: the next state of the
    worker. *)
Definition search_fen (params : RescoreFenParams.t) (fen : string) : worker :=
  let pos := set_rule50 (set_from_fen fen) 0 in
  let '(search_value, search_pv) := search pos (RescoreFenParams.depth params) 1 in
  match search_pv with
  | [] => AtNextFen
  | best :: _ => AtAppend (rescored pos search_value best)
  end.

(** The critical section on [mutex]. *)
Definition append (i : nat) (ps : PSV) (p : pool) : pool :=
  let buffer1 := buffer p ++ [ps] in
  if rescore_batch_size <=? Z.of_nat (length buffer1) then
    let n := u64_add (num_processed p) (Z.of_nat (length buffer1)) in
    if out p then
      {| fens_file := fens_file p; workers := <[i := AtNextFen]> (workers p);
         buffer := []; num_processed := n; out := out p;
         pool_world := print [Str "Processed "; Num n; Str (" positions." +:+ LF)]
                         (write buffer1 (pool_world p));
         null_deref := null_deref p; searches := searches p |}
    else
      {| fens_file := fens_file p; workers := workers p;
         buffer := buffer1; num_processed := n; out := out p;
         pool_world := pool_world p;
         null_deref := true; searches := searches p |}
  else
    {| fens_file := fens_file p; workers := <[i := AtNextFen]> (workers p);
       buffer := buffer1; num_processed := num_processed p; out := out p;
       pool_world := pool_world p;
       null_deref := null_deref p; searches := searches p |}.

(** One atomic step of worker [i]; [None] when it has none to take. *)
Definition worker_step (params : RescoreFenParams.t) (i : nat) (p : pool)
    : option pool :=
  if null_deref p then None
  else
    match workers p !! i with
    | Some AtNextFen =>
        match next_fen (fens_file p) with
        | (Some fen, rest) => Some (set_worker i (AtSearch fen) rest p)
        | (None, rest) => Some (set_worker i Finished rest p)
        end
    | Some (AtSearch fen) =>
        let p' := set_worker i (search_fen params fen) (fens_file p) p in
        Some {| fens_file := fens_file p'; workers := workers p';
                buffer := buffer p'; num_processed := num_processed p';
                out := out p'; pool_world := pool_world p';
                null_deref := null_deref p'; searches := S (searches p') |}
    | Some (AtAppend ps) => Some (append i ps p)
    | Some Finished | None => None
    end.

Definition is_finished (wk : worker) : bool :=
  match wk with Finished => true | _ => false end.

(** The workers that still have a step to take. *)
Definition runnable (p : pool) : list nat :=
  filter (fun i => match workers p !! i with
                   | Some wk => negb (is_finished wk)
                   | None => false
                   end = true)
         (seq 0 (length (workers p))).

(** A bound on the number of steps left. *)
Definition worker_weight (wk : worker) : nat :=
  match wk with
  | AtNextFen => 1
  | AtSearch _ => 3
  | AtAppend _ => 2
  | Finished => 0
  end.

Fixpoint total_weight (ws : list worker) : nat :=
  match ws with
  | [] => 0%nat
  | wk :: ws' => (worker_weight wk + total_weight ws')%nat
  end.

Definition steps_left (p : pool) : nat :=
  (3 * length (fens_file p) + total_weight (workers p))%nat.

(** Any worker takes a step. *)
Definition pool_step (params : RescoreFenParams.t) (p p' : pool) : Prop :=
  exists i : nat, worker_step params i p = Some p'.

(** How many workers have not returned, hold a line, hold a record. *)
Fixpoint count_workers (f : worker -> bool) (ws : list worker) : nat :=
  match ws with
  | [] => 0%nat
  | wk :: ws' => ((if f wk then 1 else 0) + count_workers f ws')%nat
  end.

Definition alive (ws : list worker) : nat :=
  count_workers (fun wk => negb (is_finished wk)) ws.

Definition searching (ws : list worker) : nat :=
  count_workers (fun wk => match wk with AtSearch _ => true | _ => false end) ws.

Definition appending (ws : list worker) : nat :=
  count_workers (fun wk => match wk with AtAppend _ => true | _ => false end) ws.

(** The pool runs: at step [t] the scheduler picks one of the runnable
    workers.  It stops when none is left or on the null sink. *)
Fixpoint run_pool (params : RescoreFenParams.t) (fuel t : nat) (p : pool) : pool :=
  match fuel with
  | O => p
  | S fuel =>
      let r := runnable p in
      match r !! (schedule t mod length r)%nat with
      | Some i =>
          match worker_step params i p with
          | Some p' => run_pool params fuel (S t) p'
          | None => p
          end
      | None => p
      end
  end.

(** [Threads.execute_with_workers(...)] followed by
    [Threads.wait_for_workers_finished()]. *)
Definition execute_with_workers (params : RescoreFenParams.t) (p : pool) : pool :=
  run_pool params (steps_left p) 0 p.

Definition initial_pool (fens : list string) (k : nat) (sink : bool) (w : World) : pool :=
  {| fens_file := fens; workers := replicate k AtNextFen; buffer := [];
     num_processed := 0; out := sink; pool_world := w;
     null_deref := false; searches := 0 |}.

(** What follows the join: the flush of a partial batch and the last
    message. *)
Definition finish_rescore (p : pool) : outcome :=
  match buffer p with
  | [] => Returns (print [Str ("Finished." +:+ LF)] (pool_world p))
  | _ :: _ =>
      let n := u64_add (num_processed p) (Z.of_nat (length (buffer p))) in
      if out p then
        Returns (print [Str ("Finished." +:+ LF)]
                   (print [Str "Processed "; Num n; Str (" positions." +:+ LF)]
                      (write (buffer p) (pool_world p))))
      else NullSink (pool_world p)
  end.

Definition do_rescore_fen (params : RescoreFenParams.t) (w : World)
    : option outcome :=
  let fens := default [] (ifstream (RescoreFenParams.input_filename params)) in
  let w := touch (OpenInput (RescoreFenParams.input_filename params)) w in
  let sink := create_new_sfen_output (RescoreFenParams.output_filename params) in
  let w := touch (CreateOutput (RescoreFenParams.output_filename params)) w in
  let w := set_limits (mkLimits true true 0 0) w in
  let p := execute_with_workers params (initial_pool fens pool_size sink w) in
  if null_deref p then Some (NullSink (pool_world p))
  else if forallb is_finished (workers p) then Some (finish_rescore p)
  else None.

Import RescoreFenParams.

Fixpoint rescore_fen_loop (fuel : nat) (ins : IStream.t) (params : t)
    : option t :=
  match fuel with
  | O => None
  | S fuel =>
      let '(got, ins) := IStream.get_string ins in
      let token := store EmptyString got in
      if String.eqb token "" then Some params
      else if String.eqb token "depth" then
        let '(v, ins) := IStream.get_num num_get_int ins in
        rescore_fen_loop fuel ins
          (mk (input_filename params) (output_filename params) (store (depth params) v))
      else if String.eqb token "input_file" then
        let '(v, ins) := IStream.get_string ins in
        rescore_fen_loop fuel ins
          (mk (store (input_filename params) v) (output_filename params) (depth params))
      else if String.eqb token "output_file" then
        let '(v, ins) := IStream.get_string ins in
        rescore_fen_loop fuel ins
          (mk (input_filename params) (store (output_filename params) v) (depth params))
      else rescore_fen_loop fuel ins params
  end.

Definition rescore_fen_params (ins : IStream.t) : option t :=
  rescore_fen_loop (S (String.length (IStream.buf ins))) ins default.

Definition rescore_fen_echo (params : t) : list chunk :=
  [Str ("Performing transform rescore_fen with parameters:" +:+ LF);
   Str "depth               : "; Num (depth params); Str LF;
   Str "input_file          : "; Str (input_filename params); Str LF;
   Str "output_file         : "; Str (output_filename params); Str LF;
   Str LF].

Definition rescore_fen (ins : IStream.t) (w : World) : option outcome :=
  params ← rescore_fen_params ins;
  let w := print (rescore_fen_echo params) w in
  let params := enforce_constraints params in
  do_rescore_fen params w.

End RescoreFen.

(** ** The command dispatcher *)

Section Transform.
Context `{Services}.

Definition CommandFunc : Type := IStream.t -> World -> option outcome.

Definition subcommands : gmap string CommandFunc :=
  <["nudged_static" := nudged_static]>
    (<["rescore_fen" := rescore_fen]> ∅).

Definition invalid_subcommand (subcommand : string) : list chunk :=
  [Str "Invalid subcommand "; Str subcommand; Str (". Exiting..." +:+ LF)].

Definition transform (ins : IStream.t) (w : World) : option outcome :=
  let w := nnue_init w in
  let '(got, ins) := IStream.get_string ins in
  let subcommand := store EmptyString got in
  match subcommands !! subcommand with
  | None => Some (Returns (print (invalid_subcommand subcommand) w))
  | Some func => func ins w
  end.

End Transform.

(** ** Reading the lines: what a pool of [k] workers consumes

    Every [next_fen] call takes one line.  A line of fewer than ten
    characters makes the call report the end, as the end of the file
    does, and the worker that made the call returns; the others go on
    reading. *)

Definition valid_fen (fen : string) : bool := (10 <=? String.length fen)%nat.

Fixpoint lines_read (fens : list string) (k : nat) : list string :=
  match fens, k with
  | fen :: rest, S k' =>
      fen :: lines_read rest (if valid_fen fen then k else k')
  | _, _ => []
  end.

Definition count_valid (fens : list string) : nat :=
  length (filter (fun fen => valid_fen fen = true) fens).

(** What holds of the pool throughout a run that started on the lines
    [fens0] with [k] workers, the sink [sink] and the world [w0]: the
    searches made and pending and the valid lines the live workers will
    still read add up to the valid lines among the lines read; every
    record in [buffer] or written came from a search. *)
Definition pool_inv `{Services} (fens0 : list string) (k : nat) (sink : bool)
    (w0 : World) (p : pool) : Prop :=
  (searches p + searching (workers p)
   + count_valid (lines_read (fens_file p) (alive (workers p)))
   = count_valid (lines_read fens0 k))%nat
  /\ out p = sink
  /\ (null_deref p = true -> out p = false)
  /\ cerr (pool_world p) = cerr w0
  /\ (null_deref p = false ->
      Z.of_nat (length (buffer p)) < rescore_batch_size
      /\ exists emitted : PSVector,
           concat (written (pool_world p)) ++ buffer p
           = concat (written w0) ++ emitted
           /\ (length emitted + appending (workers p) <= searches p)%nat).

(** One atomic step of worker [i], classified by the statement of the
    worker's loop body that it executes. *)
Inductive step_kind `{Services} (params : RescoreFenParams.t) (i : nat)
  (p p' : pool) : Prop :=
  | StepEnd :
      workers p !! i = Some AtNextFen -> fens_file p = [] ->
      p' = set_worker i Finished [] p -> step_kind params i p p'
  | StepFen (fen : string) (rest : list string) :
      workers p !! i = Some AtNextFen -> fens_file p = fen :: rest ->
      valid_fen fen = true ->
      p' = set_worker i (AtSearch fen) rest p -> step_kind params i p p'
  | StepShort (fen : string) (rest : list string) :
      workers p !! i = Some AtNextFen -> fens_file p = fen :: rest ->
      valid_fen fen = false ->
      p' = set_worker i Finished rest p -> step_kind params i p p'
  | StepSearch (fen : string) :
      workers p !! i = Some (AtSearch fen) ->
      fens_file p' = fens_file p ->
      workers p' = <[i := search_fen params fen]> (workers p) ->
      buffer p' = buffer p -> num_processed p' = num_processed p ->
      out p' = out p -> pool_world p' = pool_world p ->
      null_deref p' = null_deref p -> searches p' = S (searches p) ->
      step_kind params i p p'
  | StepAppend (ps : PSV) :
      workers p !! i = Some (AtAppend ps) ->
      p' = append i ps p -> step_kind params i p p'.

(** ** Further checks by evaluation

    A 16-bit integer divided by itself in binary32 gives [1.0f]. *)
Definition div_self_exact (i : Z) : bool :=
  (i =? 0) || F32.same (F32.div (F32.of_int i) (F32.of_int i)) F32.one.

(** [signed s x]: [x] is a zero, or a finite number with the sign
    bit [s]. *)
Definition signed (s : bool) (x : float32) : Prop :=
  match x with
  | S754_zero _ => True
  | S754_finite s' _ _ => s' = s
  | _ => False
  end.

(** ** The records of a search-rescoring run *)

(** The record a worker makes of a line, when its search finds a
    move. *)
Definition record_of `{Services} (params : RescoreFenParams.t) (fen : string)
    : option PSV :=
  match search_fen params fen with
  | AtAppend ps => Some ps
  | _ => None
  end.

(** The line, and the record, a worker holds. *)
Definition held_fen `{Services} (wk : worker) : option string :=
  match wk with AtSearch fen => Some fen | _ => None end.

Definition held_record `{Services} (wk : worker) : option PSV :=
  match wk with AtAppend ps => Some ps | _ => None end.

(** The records due from a run of [k] workers: one for every line read
    that is long enough and whose search finds a move. *)
Definition records_due `{Services} (params : RescoreFenParams.t)
    (fens : list string) (k : nat) : PSVector :=
  omap (record_of params)
    (filter (fun fen => valid_fen fen = true) (lines_read fens k)).

(** What one worker alone emits, in order: the records of the lines up
    to the first short one. *)
Fixpoint sequential_records `{Services} (params : RescoreFenParams.t)
    (fens : list string) : PSVector :=
  match fens with
  | [] => []
  | fen :: rest =>
      if valid_fen fen then
        match record_of params fen with
        | Some ps => ps :: sequential_records params rest
        | None => sequential_records params rest
        end
      else []
  end.

(** The records a lone worker still owes at its place in the loop. *)
Definition pending_records `{Services} (params : RescoreFenParams.t)
    (wk : worker) (fens : list string) : PSVector :=
  match wk with
  | AtNextFen => sequential_records params fens
  | AtSearch fen =>
      match record_of params fen with
      | Some ps => ps :: sequential_records params fens
      | None => sequential_records params fens
      end
  | AtAppend ps => ps :: sequential_records params fens
  | Finished => []
  end.

(** Where the records are during a run on the lines [fens0] with [k]
    workers from the world [w0]: the lines read so far are searched or
    held by a worker, and the records of the lines searched are in the
    sink, in [buffer] or held by a worker.  After the null sink has
    been dereferenced there was a record to write. *)
Definition pool_records `{Services} (params : RescoreFenParams.t)
    (fens0 : list string) (k : nat) (w0 : World) (p : pool) : Prop :=
  (null_deref p = false ->
   exists (consumed searched : list string) (flushed : PSVector),
     fens0 = consumed ++ fens_file p
     /\ lines_read fens0 k
        = consumed ++ lines_read (fens_file p) (alive (workers p))
     /\ searched ++ omap held_fen (workers p)
        ≡ₚ filter (fun fen => valid_fen fen = true) consumed
     /\ concat (written (pool_world p)) = concat (written w0) ++ flushed
     /\ flushed ++ buffer p ++ omap held_record (workers p)
        ≡ₚ omap (record_of params) searched)
  /\ (null_deref p = true -> records_due params fens0 k <> []).

(** What the steps of the pool leave alone since the world [w0]:
    [std::cerr], the files, [Search::Limits] and the evaluator; and,
    without a sink, the whole world. *)
Definition pool_frame `{Services} (w0 : World) (p : pool) : Prop :=
  cerr (pool_world p) = cerr w0
  /\ files (pool_world p) = files w0
  /\ limits (pool_world p) = limits w0
  /\ nnue_inits (pool_world p) = nnue_inits w0
  /\ (out p = false -> pool_world p = w0).

(** A pool of one worker: what is written, what is in [buffer] and
    what the worker still owes make up what one worker emits on the
    whole file. *)
Definition lone_worker `{Services} (params : RescoreFenParams.t)
    (fens0 : list string) (w0 : World) (p : pool) : Prop :=
  exists wk : worker,
    workers p = [wk]
    /\ out p = true
    /\ concat (written (pool_world p)) ++ buffer p
         ++ pending_records params wk (fens_file p)
       = concat (written w0) ++ sequential_records params fens0.

(** ** The progress line

    What both drivers print after a write, as one piece. *)
Definition progress (n : Z) : list chunk :=
  [Str "Processed "; Num n; Str (" positions." +:+ LF)].

(** With a sink, what the pool has written and reported since the
    world [w0]: full batches only, each reported with the running
    total, which is also what [num_processed] holds. *)
Definition pool_batches `{Services} (w0 : World) (p : pool) : Prop :=
  out p = true
  /\ exists batches : list PSVector,
       written (pool_world p) = written w0 ++ batches
       /\ Forall (fun b => Z.of_nat (length b) = rescore_batch_size) batches
       /\ Z.of_nat (length (buffer p)) < rescore_batch_size
       /\ num_processed p
          = to_u64 (rescore_batch_size * Z.of_nat (length batches))
       /\ cout (pool_world p)
          = cout w0
            ++ flat_map (fun j => progress (to_u64 (rescore_batch_size * Z.of_nat j)))
                 (seq 1 (length batches)).

(** ** Words and white space

    What the statements about argument strings speak of: runs of white
    space, and words, the units that [operator>>] extracts. *)

Fixpoint all_space (s : string) : bool :=
  match s with
  | EmptyString => true
  | String c s' => IStream.isspace c && all_space s'
  end.

Fixpoint no_space (s : string) : bool :=
  match s with
  | EmptyString => true
  | String c s' => negb (IStream.isspace c) && no_space s'
  end.

(** A word: at least one character, none of them white space. *)
Definition is_word (w : string) : bool :=
  match w with
  | EmptyString => false
  | String _ _ => no_space w
  end.

(** What may follow a word: the end of the string, or white space. *)
Definition word_end (rest : string) : bool :=
  match rest with
  | EmptyString => true
  | String c _ => IStream.isspace c
  end.

(** ** The tokens a parsing loop reads

    [nudged_static_tokens] and [rescore_fen_tokens] follow the two
    [while (true)] loops and collect what [is >> token] delivers at the
    head of each iteration, in order: the words that are compared with
    the keys.  The value a key takes is read by the branch and is not
    among them. *)

Fixpoint nudged_static_tokens `{Services} (fuel : nat) (ins : IStream.t)
    : list string :=
  match fuel with
  | O => []
  | S fuel =>
      let '(got, ins) := IStream.get_string ins in
      let token := store EmptyString got in
      if String.eqb token "" then []
      else if String.eqb token "absolute" then
        let '(_, ins) := IStream.get_num num_get_int ins in
        token :: nudged_static_tokens fuel ins
      else if String.eqb token "relative" then
        let '(_, ins) := IStream.get_num num_get_float ins in
        token :: nudged_static_tokens fuel ins
      else if String.eqb token "interpolate" then
        let '(_, ins) := IStream.get_num num_get_float ins in
        token :: nudged_static_tokens fuel ins
      else if String.eqb token "input_file" then
        let '(_, ins) := IStream.get_string ins in
        token :: nudged_static_tokens fuel ins
      else if String.eqb token "output_file" then
        let '(_, ins) := IStream.get_string ins in
        token :: nudged_static_tokens fuel ins
      else token :: nudged_static_tokens fuel ins
  end.

Fixpoint rescore_fen_tokens `{Services} (fuel : nat) (ins : IStream.t)
    : list string :=
  match fuel with
  | O => []
  | S fuel =>
      let '(got, ins) := IStream.get_string ins in
      let token := store EmptyString got in
      if String.eqb token "" then []
      else if String.eqb token "depth" then
        let '(_, ins) := IStream.get_num num_get_int ins in
        token :: rescore_fen_tokens fuel ins
      else if String.eqb token "input_file" then
        let '(_, ins) := IStream.get_string ins in
        token :: rescore_fen_tokens fuel ins
      else if String.eqb token "output_file" then
        let '(_, ins) := IStream.get_string ins in
        token :: rescore_fen_tokens fuel ins
      else token :: rescore_fen_tokens fuel ins
  end.

(** The words of a string: its maximal runs of characters that are not
    white space.  [cur] is the word being read. *)
Fixpoint words_from (cur : string) (s : string) : list string :=
  match s with
  | EmptyString =>
      match cur with EmptyString => [] | _ => [cur] end
  | String c s' =>
      if IStream.isspace c then
        match cur with
        | EmptyString => words_from EmptyString s'
        | _ => cur :: words_from EmptyString s'
        end
      else words_from (cur +:+ String c EmptyString) s'
  end.

Definition words (s : string) : list string := words_from EmptyString s.

(** ** A small concrete environment

    Positions are their text, a move is a number, and the search finds
    no move in a position of fewer than twelve characters.  Used for the
    worked examples below. *)

Module Toy.

Definition is_digit (c : Ascii.ascii) : bool :=
  let n := Ascii.N_of_ascii c in ((48 <=? n) && (n <=? 57))%N.

Fixpoint scan_digits (s : string) (acc : Z) (n : nat) : Z * nat :=
  match s with
  | String c s' =>
      if is_digit c
      then scan_digits s' (10 * acc + (Z.of_N (Ascii.N_of_ascii c) - 48)) (S n)
      else (acc, n)
  | EmptyString => (acc, n)
  end.

Definition num_get_digits (s : string) : num_result Z :=
  let '(v, n) := scan_digits s 0 0%nat in
  match n with O => NumFail 0 | S _ => NumOk v n end.

Definition num_get_whole (s : string) : num_result float32 :=
  match num_get_digits s with
  | NumOk v n => NumOk (F32.of_int v) n
  | NumFail _ => NumFail F32.zero
  end.

Definition toy_search (pos : string * Z) (depth multi_pv : Z) : Z * list nat :=
  let n := String.length (fst pos) in
  (Z.of_nat n * depth + snd pos, if (n <? 12)%nat then [] else [n; 0%nat]).

(** [records]: what the binpack source holds; [lines]: what the text
    file holds; [sink]: whether the sink can be created; [k] workers
    scheduled by [sched]. *)
Definition services (records : option (list (PackedSfenValue string nat)))
    (lines : option (list string)) (sink : bool) (k : nat) (sched : nat -> nat)
    : Services := {|
  PackedSfen := string;
  Move := nat;
  Position := string * Z;
  set_from_packed_sfen := fun s => (s, 0);
  set_from_fen := fun fen => (fen, 37);
  set_rule50 := fun pos z => (fst pos, z);
  sfen_pack := fun pos => fst pos;
  evaluate := fun pos => Z.of_nat (String.length (fst pos));
  search := toy_search;
  open_sfen_input_file := fun _ => records;
  create_new_sfen_output := fun _ => sink;
  ifstream := fun _ => lines;
  num_get_int := num_get_digits;
  num_get_float := num_get_whole;
  pool_size := k;
  schedule := sched
|}.

Definition startpos : string :=
  "rnbqkbnr/pppppppp/8/8/8/8/PPPPPPPP/RNBQKBNR w KQkq - 0 1".

End Toy.
(** * Properties *)

(** ** Machine integers *)

Section MachineIntFacts.

Lemma wrap_signed_id (bits z : Z) :
  0 < bits -> - 2 ^ (bits - 1) <= z < 2 ^ (bits - 1) -> wrap_signed bits z = z.
Proof.
  intros Hb Hz. unfold wrap_signed.
  assert (E : 2 ^ bits = 2 * 2 ^ (bits - 1)).
  { replace bits with (Z.succ (bits - 1)) at 1 by lia.
    rewrite Z.pow_succ_r by lia. reflexivity. }
  rewrite Z.mod_small by lia. lia.
Qed.

Lemma to_int_id (z : Z) : in_int z -> to_int z = z.
Proof.
  unfold in_int, int_min, int_max, to_int. intros Hz.
  apply wrap_signed_id; [lia|]. change (2 ^ (32 - 1)) with 2147483648. lia.
Qed.

Lemma to_i16_id (z : Z) : in_i16 z -> to_i16 z = z.
Proof.
  unfold in_i16, i16_min, i16_max, to_i16. intros Hz.
  apply wrap_signed_id; [lia|]. change (2 ^ (16 - 1)) with 32768. lia.
Qed.

Lemma to_i16_range (z : Z) : in_i16 (to_i16 z).
Proof.
  unfold in_i16, to_i16, wrap_signed, i16_min, i16_max.
  change (2 ^ (16 - 1)) with 32768. change (2 ^ 16) with 65536.
  pose proof (Z.mod_pos_bound (z + 32768) 65536). lia.
Qed.

Lemma in_i16_int (z : Z) : in_i16 z -> in_int z.
Proof. unfold in_i16, in_int, i16_min, i16_max, int_min, int_max. lia. Qed.

(** [std::clamp] and [std::max] on integers, in closed form. *)
Lemma std_clamp_Z (v lo hi : Z) :
  lo <= hi -> std_clamp Z.ltb v lo hi = Z.max lo (Z.min hi v).
Proof.
  intros Hle. unfold std_clamp.
  destruct (Z.ltb_spec v lo); [lia|].
  destruct (Z.ltb_spec hi v); lia.
Qed.

Lemma std_max_Z (a b : Z) : std_max Z.ltb a b = Z.max a b.
Proof. unfold std_max. destruct (Z.ltb_spec a b); lia. Qed.

(** Saturation in closed form, and what follows from it. *)
Lemma saturate_i32_to_i16_eq (v : Z) :
  saturate_i32_to_i16 v = Z.max i16_min (Z.min i16_max v).
Proof.
  unfold saturate_i32_to_i16.
  rewrite std_clamp_Z by (unfold i16_min, i16_max; lia).
  apply to_i16_id. unfold in_i16, i16_min, i16_max. lia.
Qed.

Lemma saturate_i32_to_i16_id (v : Z) : in_i16 v -> saturate_i32_to_i16 v = v.
Proof. rewrite saturate_i32_to_i16_eq. unfold in_i16. lia. Qed.

Lemma saturate_i32_to_i16_range (v : Z) : in_i16 (saturate_i32_to_i16 v).
Proof.
  rewrite saturate_i32_to_i16_eq. unfold in_i16, i16_min, i16_max. lia.
Qed.

Lemma saturate_i32_to_i16_idem (v : Z) :
  saturate_i32_to_i16 (saturate_i32_to_i16 v) = saturate_i32_to_i16 v.
Proof. apply saturate_i32_to_i16_id, saturate_i32_to_i16_range. Qed.

End MachineIntFacts.

(** ** The score adjuster: absolute mode *)

(** C1.  In absolute mode, for 16-bit scores and a cap [0 <= C], [nudge]
    returns the 16-bit saturation of [static + clamp(deep - static, -C, C)];
    the result lies in [static - C, static + C] and in the 16-bit range,
    and it is [static] when [deep = static]. *)
Theorem nudge_absolute (params : NudgedStaticParams.t) (static deep : Z) :
  NudgedStaticParams.mode params = Absolute ->
  0 <= NudgedStaticParams.absolute_nudge params <= int_max ->
  in_i16 static -> in_i16 deep ->
  let C := NudgedStaticParams.absolute_nudge params in
  let r := nudge params static deep in
  r = Z.max i16_min (Z.min i16_max (static + Z.max (- C) (Z.min C (deep - static))))
  /\ static - C <= r <= static + C
  /\ in_i16 r
  /\ (deep = static -> r = static).
Proof.
  intros Hmode HC Hs Hd C r. subst r. unfold nudge. rewrite Hmode. fold C.
  unfold in_i16, i16_min, i16_max, int_max in *.
  assert (Hneg : int_neg C = - C).
  { apply to_int_id. unfold in_int, int_min, int_max. lia. }
  assert (Hsub : int_sub deep static = deep - static).
  { apply to_int_id. unfold in_int, int_min, int_max. lia. }
  rewrite Hneg, Hsub, std_clamp_Z by lia.
  assert (Hadd : int_add static (Z.max (- C) (Z.min C (deep - static)))
                 = static + Z.max (- C) (Z.min C (deep - static))).
  { apply to_int_id. unfold in_int, int_min, int_max. lia. }
  rewrite Hadd, saturate_i32_to_i16_eq. unfold i16_min, i16_max. lia.
Qed.

Lemma nudge_absolute_witness :
  nudge (NudgedStaticParams.mk "in" "out" Absolute 10 F32.one_tenth F32.one_tenth) 100 200
    = 110
  /\ nudge (NudgedStaticParams.mk "in" "out" Absolute 10 F32.one_tenth F32.one_tenth) 100 50
    = 90.
Proof.
  split.
  - pose proof (nudge_absolute
      (NudgedStaticParams.mk "in" "out" Absolute 10 F32.one_tenth F32.one_tenth)
      100 200 eq_refl) as Hn.
    simpl in Hn. unfold in_i16, i16_min, i16_max, int_max in Hn.
    destruct Hn as [Hn _]; [lia | lia | lia |]. exact Hn.
  - pose proof (nudge_absolute
      (NudgedStaticParams.mk "in" "out" Absolute 10 F32.one_tenth F32.one_tenth)
      100 50 eq_refl) as Hn.
    simpl in Hn. unfold in_i16, i16_min, i16_max, int_max in Hn.
    destruct Hn as [Hn _]; [lia | lia | lia |]. exact Hn.
Defined.

(** ** Constraint enforcement *)

Lemma std_max_f32_zero (x : float32) :
  F32.is_nan x = false ->
  F32.leb F32.zero (std_max F32.ltb x F32.zero) = true
  /\ std_max F32.ltb x F32.zero = (if F32.ltb x F32.zero then F32.zero else x).
Proof.
  intros Hnan. split; [|reflexivity].
  unfold std_max, F32.ltb, F32.leb, F32.zero, SFltb, SFleb.
  destruct x as [[|]|[|]| |[|] m e]; simpl in *; try reflexivity; discriminate.
Qed.

(** C8, amended.  [enforce_constraints] is a total function on both
    structs.  Afterwards the absolute cap is at least zero and the
    depth at least one; a value out of range has moved to the boundary,
    a value in range and every other field are unchanged.  The relative
    fraction becomes [std::max(fraction, 0.0f)]: it is at least zero
    for every fraction that is not a NaN, and a NaN stays the NaN it
    was, below which nothing compares. *)
Theorem enforce_constraints_spec
    (p : NudgedStaticParams.t) (q : RescoreFenParams.t) :
  let p' := NudgedStaticParams.enforce_constraints p in
  let q' := RescoreFenParams.enforce_constraints q in
  (NudgedStaticParams.relative_nudge p'
   = (if F32.ltb (NudgedStaticParams.relative_nudge p) F32.zero
      then F32.zero else NudgedStaticParams.relative_nudge p)
   /\ (F32.is_nan (NudgedStaticParams.relative_nudge p) = false ->
       F32.leb F32.zero (NudgedStaticParams.relative_nudge p') = true)
   /\ (F32.is_nan (NudgedStaticParams.relative_nudge p) = true ->
       NudgedStaticParams.relative_nudge p' = S754_nan
       /\ F32.leb F32.zero (NudgedStaticParams.relative_nudge p') = false))
  /\ (0 <= NudgedStaticParams.absolute_nudge p'
      /\ NudgedStaticParams.absolute_nudge p'
         = Z.max (NudgedStaticParams.absolute_nudge p) 0)
  /\ (1 <= RescoreFenParams.depth q'
      /\ RescoreFenParams.depth q' = Z.max 1 (RescoreFenParams.depth q))
  /\ (NudgedStaticParams.input_filename p' = NudgedStaticParams.input_filename p
      /\ NudgedStaticParams.output_filename p' = NudgedStaticParams.output_filename p
      /\ NudgedStaticParams.mode p' = NudgedStaticParams.mode p
      /\ NudgedStaticParams.interpolate_nudge p' = NudgedStaticParams.interpolate_nudge p)
  /\ (RescoreFenParams.input_filename q' = RescoreFenParams.input_filename q
      /\ RescoreFenParams.output_filename q' = RescoreFenParams.output_filename q).
Proof.
  intros p' q'. subst p' q'.
  cbn [NudgedStaticParams.enforce_constraints RescoreFenParams.enforce_constraints
       NudgedStaticParams.input_filename NudgedStaticParams.output_filename
       NudgedStaticParams.mode NudgedStaticParams.absolute_nudge
       NudgedStaticParams.relative_nudge NudgedStaticParams.interpolate_nudge
       RescoreFenParams.input_filename RescoreFenParams.output_filename
       RescoreFenParams.depth].
  split.
  { split; [reflexivity|]. split.
    - intros Hnan. exact (proj1 (std_max_f32_zero _ Hnan)).
    - intros Hnan. destruct (NudgedStaticParams.relative_nudge p);
        try discriminate Hnan. split; reflexivity. }
  rewrite !std_max_Z. repeat split; lia.
Qed.

Lemma enforce_constraints_witness :
  NudgedStaticParams.enforce_constraints
    (NudgedStaticParams.mk "in" "out" Relative (-3)
       (S754_finite true 8388608 (-23)) F32.one_tenth)
  = NudgedStaticParams.mk "in" "out" Relative 0 F32.zero F32.one_tenth
  /\ RescoreFenParams.depth
       (RescoreFenParams.enforce_constraints (RescoreFenParams.mk "in" "out" (-2))) = 1.
Proof.
  pose proof (enforce_constraints_spec
    (NudgedStaticParams.mk "in" "out" Relative (-3)
       (S754_finite true 8388608 (-23)) F32.one_tenth)
    (RescoreFenParams.mk "in" "out" (-2))) as Hs.
  cbv zeta in Hs. destruct Hs as (_ & _ & [_ Hd] & _ & _).
  split; [reflexivity | exact Hd].
Defined.

(** The claim as it stands, for every parameter struct, fails at a NaN
    fraction: [std::max(NaN, 0.0f)] is [(NaN < 0.0f) ? 0.0f : NaN], the
    NaN, and the NaN is not at least zero. *)
Lemma enforce_constraints_counterexample :
  let p := NudgedStaticParams.mk "in.binpack" "out.binpack" Relative 5
             S754_nan F32.one_tenth in
  NudgedStaticParams.relative_nudge (NudgedStaticParams.enforce_constraints p)
  = S754_nan
  /\ F32.leb F32.zero
       (NudgedStaticParams.relative_nudge (NudgedStaticParams.enforce_constraints p))
     = false
  /\ F32.ltb
       (NudgedStaticParams.relative_nudge (NudgedStaticParams.enforce_constraints p))
       F32.zero
     = false.
Proof. vm_compute. repeat split. Qed.

(** ** The static-rescoring driver: batching *)

Section NudgedStaticFacts.
Context `{Services}.
Variable params : NudgedStaticParams.t.

Lemma total_size_concat {A : Type} (batches : list (list A)) :
  total_size batches = Z.of_nat (length (concat batches)).
Proof.
  induction batches as [|b bs IH]; simpl; [reflexivity|].
  rewrite length_app, IH. lia.
Qed.

Lemma total_size_uniform {A : Type} (T : Z) (batches : list (list A)) :
  Forall (fun b => Z.of_nat (length b) = T) batches ->
  total_size batches = T * Z.of_nat (length batches).
Proof.
  induction 1 as [|b bs Hb _ IH]; simpl; [lia|]. rewrite IH, Hb. lia.
Qed.

(** The loop invariant: the buffer stays below the threshold, and what
    has been written together with the buffer is the transformed input
    read so far, in order. *)
Lemma nudged_loop_spec (input : PSVector) :
  forall st : nudged_state,
  Z.of_nat (length (ns_buffer st)) < nudged_batch_size ->
  exists batches : list PSVector,
    let st' := nudged_loop params input st in
    written (ns_world st') = written (ns_world st) ++ batches
    /\ concat batches ++ ns_buffer st'
       = ns_buffer st ++ map (nudged_record params) input
    /\ Forall (fun b => Z.of_nat (length b) = nudged_batch_size) batches
    /\ Z.of_nat (length (ns_buffer st')) < nudged_batch_size
    /\ ns_num_processed st' mod 2 ^ 64
       = (ns_num_processed st + total_size batches) mod 2 ^ 64
    /\ (0 <= ns_num_processed st < 2 ^ 64 -> 0 <= ns_num_processed st' < 2 ^ 64).
Proof.
  induction input as [|ps rest IH]; intros st Hlen.
  - exists []. simpl. rewrite !app_nil_r, Z.add_0_r. repeat split; auto; lia.
  - cbn [nudged_loop]. cbv zeta.
    set (buffer1 := ns_buffer st ++ [nudged_record params ps]).
    assert (Hlen1 : Z.of_nat (length buffer1) = Z.of_nat (length (ns_buffer st)) + 1).
    { unfold buffer1. rewrite length_app. simpl. lia. }
    cbn [ns_buffer].
    destruct (Z.leb_spec nudged_batch_size (Z.of_nat (length buffer1))) as [Hfull|Hroom].
    + destruct (IH (nudged_flush (mkNS buffer1 (ns_num_processed st) (ns_world st))))
        as (batches & Hw & Hc & Hall & Hlt & Hnp & Hrange).
      { simpl. unfold nudged_batch_size. lia. }
      exists (buffer1 :: batches). cbv zeta in *.
      set (st' := nudged_loop params rest _) in *.
      cbn [nudged_flush ns_buffer ns_num_processed ns_world written write print] in *.
      split_and!.
      * rewrite Hw. rewrite <- app_assoc. reflexivity.
      * cbn [concat]. rewrite <- app_assoc, Hc. cbn [app map].
        unfold buffer1. rewrite <- app_assoc. reflexivity.
      * constructor; [lia | exact Hall].
      * exact Hlt.
      * rewrite Hnp. unfold u64_add, to_u64. cbn [total_size foldr].
        fold (total_size batches).
        rewrite Zplus_mod_idemp_l. f_equal. lia.
      * intros _. apply Hrange. unfold u64_add, to_u64.
        apply Z.mod_pos_bound. lia.
    + destruct (IH (mkNS buffer1 (ns_num_processed st) (ns_world st)))
        as (batches & Hw & Hc & Hall & Hlt & Hnp & Hrange).
      { simpl. lia. }
      exists batches. cbv zeta in *.
      set (st' := nudged_loop params rest _) in *.
      cbn [ns_buffer ns_num_processed ns_world] in *.
      split_and!; auto.
      rewrite Hc. unfold buffer1. rewrite <- app_assoc. reflexivity.
Qed.

Lemma ceil_div_split (T k r : Z) :
  0 < T -> 0 <= r < T ->
  (T * k + r + T - 1) / T = k + (if r =? 0 then 0 else 1).
Proof.
  intros HT Hr. destruct (Z.eqb_spec r 0) as [->|Hne].
  - symmetry. apply (Z.div_unique _ _ _ (T - 1)); lia.
  - symmetry. apply (Z.div_unique _ _ _ (r - 1)); lia.
Qed.

(** C6.  A run over [R] records with the threshold [T = 1,000,000]
    writes batches whose sizes add up to [R]; there are [ceil(R / T)] of
    them; the counter ends as [R] (it is a [uint64_t], so for
    [R < 2^64]); and the batches, one after the other, are the
    transformed input in input order.  The driver, once source and sink
    are open, returns the world of that run. *)
Theorem do_nudged_static_batches (input : PSVector) (w : World) :
  let R := Z.of_nat (length input) in
  let T := nudged_batch_size in
  let st := nudged_drain (nudged_loop params input (mkNS [] 0 w)) in
  T = 1000000
  /\ exists batches : list PSVector,
    written (ns_world st) = written w ++ batches
    /\ total_size batches = R
    /\ Z.of_nat (length batches) = (R + T - 1) / T
    /\ ns_num_processed st = R mod 2 ^ 64
    /\ (R < 2 ^ 64 -> ns_num_processed st = R)
    /\ concat batches = map (nudged_record params) input
    /\ ns_buffer st = []
    /\ forall w0 : World,
         open_sfen_input_file (NudgedStaticParams.input_filename params) = Some input ->
         create_new_sfen_output (NudgedStaticParams.output_filename params) = true ->
         w = touch (CreateOutput (NudgedStaticParams.output_filename params))
               (touch (OpenInput (NudgedStaticParams.input_filename params)) w0) ->
         do_nudged_static params w0
         = Returns (print [Str ("Finished." +:+ LF)] (ns_world st)).
Proof.
  intros R T st. split; [reflexivity|].
  destruct (nudged_loop_spec input (mkNS [] 0 w))
    as (batches & Hw & Hc & Hall & Hlt & Hnp & Hrange).
  { simpl. unfold nudged_batch_size. lia. }
  cbv zeta in *. cbn [ns_buffer ns_num_processed ns_world app] in *.
  set (st1 := nudged_loop params input (mkNS [] 0 w)) in *.
  assert (HT : 0 < T) by (unfold T, nudged_batch_size; lia).
  assert (Hsz : total_size batches = T * Z.of_nat (length batches))
    by (apply total_size_uniform; exact Hall).
  assert (HR : R = total_size batches + Z.of_nat (length (ns_buffer st1))).
  { unfold R. rewrite <- (length_map (nudged_record params) input), <- Hc.
    rewrite length_app, total_size_concat. lia. }
  assert (Hnp1 : ns_num_processed st1 = total_size batches mod 2 ^ 64).
  { rewrite Z.add_0_l in Hnp. rewrite <- Hnp. symmetry.
    apply Z.mod_small. apply Hrange. lia. }
  assert (Hdrv : forall st2, st2 = st ->
    forall w0 : World,
      open_sfen_input_file (NudgedStaticParams.input_filename params) = Some input ->
      create_new_sfen_output (NudgedStaticParams.output_filename params) = true ->
      w = touch (CreateOutput (NudgedStaticParams.output_filename params))
            (touch (OpenInput (NudgedStaticParams.input_filename params)) w0) ->
      do_nudged_static params w0
      = Returns (print [Str ("Finished." +:+ LF)] (ns_world st2))).
  { intros st2 -> w0 Hin Hout ->. unfold do_nudged_static.
    rewrite Hin, Hout. reflexivity. }
  subst st. unfold nudged_drain.
  destruct (ns_buffer st1) as [|b0 buf] eqn:Hbuf.
  - exists batches. rewrite app_nil_r in Hc. simpl in HR.
    split_and!.
    + rewrite Hw. reflexivity.
    + lia.
    + unfold T in *. rewrite HR, Hsz.
      rewrite (ceil_div_split nudged_batch_size _ 0) by lia. simpl. lia.
    + rewrite Hnp1. f_equal. lia.
    + intros Hsmall. rewrite Hnp1, Z.mod_small; lia.
    + exact Hc.
    + exact Hbuf.
    + apply Hdrv. unfold nudged_drain. rewrite Hbuf. reflexivity.
  - exists (batches ++ [b0 :: buf]).
    cbn [nudged_flush ns_buffer ns_num_processed ns_world written write print].
    rewrite Hbuf.
    assert (Hlast : total_size (batches ++ [b0 :: buf])
                    = total_size batches + Z.of_nat (length (b0 :: buf))).
    { rewrite !total_size_concat, concat_app, length_app. simpl. rewrite app_nil_r. lia. }
    split_and!.
    + rewrite Hw, app_assoc. reflexivity.
    + rewrite Hlast. lia.
    + rewrite length_app. simpl length.
      unfold T in *. rewrite HR, Hsz.
      rewrite (ceil_div_split nudged_batch_size _ (Z.of_nat (length (b0 :: buf)))) by lia.
      destruct (Z.eqb_spec (Z.of_nat (length (b0 :: buf))) 0) as [E|_];
        [simpl in E; lia | lia].
    + rewrite Hnp1. unfold u64_add, to_u64.
      rewrite Zplus_mod_idemp_l. f_equal. lia.
    + intros Hsmall. rewrite Hnp1. unfold u64_add, to_u64.
      rewrite Zplus_mod_idemp_l, Z.mod_small; simpl length in *; lia.
    + rewrite concat_app. simpl. rewrite app_nil_r. exact Hc.
    + reflexivity.
    + intros. rewrite <- Hbuf.
      apply (Hdrv (nudged_flush st1)); try assumption.
      unfold nudged_drain. rewrite Hbuf. reflexivity.
Qed.

End NudgedStaticFacts.

(** ** The argument stream *)

Module IStreamFacts.
Import IStream.

Lemma occurs_drop (key : string) (n : nat) :
  forall s, occurs key (drop n s) = true -> occurs key s = true.
Proof.
  induction n as [|n IH]; intros [|c s] Hocc; simpl in Hocc; try exact Hocc.
  cbn [occurs]. rewrite (IH s Hocc). apply orb_true_r.
Qed.

Lemma skip_ws_drop (s : string) : exists n, skip_ws s = drop n s.
Proof.
  induction s as [|c s [n IH]]; [exists 0%nat; reflexivity|].
  simpl. destruct (isspace c).
  - exists (S n). exact IH.
  - exists 0%nat. reflexivity.
Qed.

Lemma skip_ws_length (s : string) :
  (String.length (skip_ws s) <= String.length s)%nat.
Proof.
  induction s as [|c s IH]; simpl; [lia|]. destruct (isspace c); simpl; lia.
Qed.

Lemma drop_length (n : nat) :
  forall s, (String.length (drop n s) <= String.length s)%nat.
Proof.
  induction n as [|n IH]; intros [|c s]; simpl; try lia.
  specialize (IH s). lia.
Qed.

Lemma read_word_spec (s : string) :
  forall w r, read_word s = (w, r) ->
  String.prefix w s = true
  /\ (exists n, r = drop n s)
  /\ (String.length r + String.length w = String.length s)%nat.
Proof.
  induction s as [|c s IH]; intros w r Hrw; simpl in Hrw.
  - inversion Hrw; subst. split; [reflexivity|]. split; [exists 0%nat|]; reflexivity.
  - destruct (isspace c).
    + inversion Hrw; subst. split; [reflexivity|].
      split; [exists 0%nat; reflexivity | simpl; lia].
    + destruct (read_word s) as [w' r'] eqn:Hrw'. inversion Hrw; subst.
      destruct (IH w' r eq_refl) as (Hp & [n Hn] & Hl).
      split; [|split].
      * simpl. destruct (Ascii.ascii_dec c c); [exact Hp | congruence].
      * exists (S n). exact Hn.
      * simpl. lia.
Qed.

Lemma skip_ws_head (s : string) (c : Ascii.ascii) (s' : string) :
  skip_ws s = String c s' -> isspace c = false.
Proof.
  induction s as [|a s IH]; simpl; [discriminate|].
  destruct (isspace a) eqn:Ha; [exact IH|].
  intros E. inversion E; subst. exact Ha.
Qed.

(** A word that [is >> str] delivers stands in the stream, is not empty,
    and what is left is a strictly shorter part of the stream. *)
Lemma get_string_some (ins ins' : t) (w : string) :
  get_string ins = (Some w, ins') ->
  occurs w (buf ins) = true
  /\ w <> EmptyString
  /\ (String.length (buf ins') < String.length (buf ins))%nat
  /\ forall key, occurs key (buf ins') = true -> occurs key (buf ins) = true.
Proof.
  unfold get_string. destruct (failbit ins); [discriminate|].
  destruct (skip_ws (buf ins)) as [|c s'] eqn:Hskip; [discriminate|].
  destruct (read_word (String c s')) as [w0 r] eqn:Hrw.
  intros E. inversion E; subst. clear E.
  pose proof (skip_ws_head _ _ _ Hskip) as Hc.
  destruct (read_word_spec _ _ _ Hrw) as (Hp & [n Hn] & Hl).
  destruct (skip_ws_drop (buf ins)) as [k Hk]. rewrite Hskip in Hk.
  pose proof (skip_ws_length (buf ins)) as Hsl. rewrite Hskip in Hsl.
  assert (Hw : w <> EmptyString).
  { intros ->. simpl in Hrw. rewrite Hc in Hrw.
    destruct (read_word s'); discriminate. }
  split; [|split; [exact Hw|split]].
  - apply (occurs_drop w k). rewrite <- Hk.
    cbn [occurs]. rewrite Hp. reflexivity.
  - simpl. destruct w; [congruence|]. simpl in Hl, Hsl. lia.
  - intros key Hocc. simpl in Hocc. rewrite Hn in Hocc.
    apply (occurs_drop key k). rewrite <- Hk.
    apply (occurs_drop key n). exact Hocc.
Qed.

Lemma get_string_none (ins ins' : t) :
  get_string ins = (None, ins') -> failbit ins' = true.
Proof.
  unfold get_string. destruct (failbit ins) eqn:Hf.
  - intros E. inversion E; subst. exact Hf.
  - destruct (skip_ws (buf ins)) as [|c s'].
    + intros E. inversion E. reflexivity.
    + destruct (read_word (String c s')). discriminate.
Qed.

Lemma get_string_failed (ins : t) :
  failbit ins = true -> get_string ins = (None, ins).
Proof. unfold get_string. intros ->. reflexivity. Qed.

(** Whatever an extraction does, what is left is a part of the stream,
    no longer than before. *)
Lemma get_string_rest (ins ins' : t) (got : option string) :
  get_string ins = (got, ins') ->
  (String.length (buf ins') <= String.length (buf ins))%nat
  /\ forall key, occurs key (buf ins') = true -> occurs key (buf ins) = true.
Proof.
  destruct got as [w|]; intros Hg.
  - destruct (get_string_some _ _ _ Hg) as (_ & _ & Hl & Hocc).
    split; [lia | exact Hocc].
  - unfold get_string in Hg. destruct (failbit ins).
    + inversion Hg; subst. split; [lia | auto].
    + destruct (skip_ws (buf ins)) as [|c s'].
      * inversion Hg; subst. simpl. split; [lia|].
        intros key Hocc. destruct key; [|simpl in Hocc; discriminate].
        destruct (buf ins); reflexivity.
      * destruct (read_word (String c s')). discriminate.
Qed.

Lemma get_num_rest {A : Type} (num_get : string -> num_result A)
    (ins ins' : t) (got : option A) :
  get_num num_get ins = (got, ins') ->
  (String.length (buf ins') <= String.length (buf ins))%nat
  /\ forall key, occurs key (buf ins') = true -> occurs key (buf ins) = true.
Proof.
  unfold get_num. destruct (failbit ins).
  { intros E. inversion E; subst. split; [lia | auto]. }
  destruct (skip_ws_drop (buf ins)) as [k Hk].
  pose proof (skip_ws_length (buf ins)) as Hsl.
  destruct (skip_ws (buf ins)) as [|c s'] eqn:Hskip.
  { intros E. inversion E; subst. simpl. split; [lia|].
    intros key Hocc. destruct key; [|simpl in Hocc; discriminate].
    destruct (buf ins); reflexivity. }
  destruct (num_get (String c s')) as [v n|v]; intros E; inversion E; subst.
  - cbn [buf]. pose proof (drop_length n (String c s')). split; [lia|].
    intros key Hocc. apply (occurs_drop key k). rewrite <- Hk.
    apply (occurs_drop key n). exact Hocc.
  - cbn [buf]. split; [lia|].
    intros key Hocc. apply (occurs_drop key k). rewrite <- Hk. exact Hocc.
Qed.

Lemma get_string_empty : get_string (of_string EmptyString) = (None, mk EmptyString true).
Proof. reflexivity. Qed.

End IStreamFacts.

(** ** Parsing the parameters *)

(** A key that does not occur in the stream is never read as a token. *)
Lemma absent_key_not_read (keys : list string) (ins ins' : IStream.t) (w : string) :
  (forall k, In k keys -> IStream.occurs k (IStream.buf ins) = false) ->
  IStream.get_string ins = (Some w, ins') ->
  ~ In w keys.
Proof.
  intros Habs Hg Hin.
  destruct (IStreamFacts.get_string_some _ _ _ Hg) as (Hocc & _).
  rewrite (Habs w Hin) in Hocc. discriminate.
Qed.

Lemma absent_keys_rest (keys : list string) (s s' : string) :
  (forall key, IStream.occurs key s' = true -> IStream.occurs key s = true) ->
  (forall k, In k keys -> IStream.occurs k s = false) ->
  forall k, In k keys -> IStream.occurs k s' = false.
Proof.
  intros Hsub Habs k Hin.
  destruct (IStream.occurs k s') eqn:E; [|reflexivity].
  specialize (Habs k Hin). rewrite (Hsub k E) in Habs. discriminate.
Qed.

Section NudgedStaticParse.
Context `{Services}.
Import NudgedStaticParams.

(** Each branch of the loop is entered on its own key only; a property
    of the struct that the branches of the other keys keep is kept by
    the loop on every stream in which [keys] do not occur. *)
Variable P : t -> Prop.
Variable keys : list string.
Hypothesis P_absolute :
  ~ In "absolute" keys -> forall p v, P p -> P (with_absolute p v).
Hypothesis P_relative :
  ~ In "relative" keys -> forall p v, P p -> P (with_relative p v).
Hypothesis P_interpolate :
  ~ In "interpolate" keys -> forall p v, P p -> P (with_interpolate p v).
Hypothesis P_input_file :
  ~ In "input_file" keys -> forall p v, P p -> P (with_input_file p v).
Hypothesis P_output_file :
  ~ In "output_file" keys -> forall p v, P p -> P (with_output_file p v).

Lemma nudged_static_loop_keeps (fuel : nat) :
  forall (ins : IStream.t) (p p' : t),
  (forall k, In k keys -> IStream.occurs k (IStream.buf ins) = false) ->
  P p -> nudged_static_loop fuel ins p = Some p' -> P p'.
Proof.
  induction fuel as [|fuel IH]; intros ins p p' Habs HP Hloop; [discriminate|].
  cbn [nudged_static_loop] in Hloop.
  destruct (IStream.get_string ins) as [got ins1] eqn:Hg.
  destruct got as [w|]; cbn [store] in Hloop;
    [|simpl in Hloop; inversion Hloop; subst; exact HP].
  pose proof (absent_key_not_read keys _ _ _ Habs Hg) as Hnot.
  destruct (IStreamFacts.get_string_some _ _ _ Hg) as (_ & _ & _ & Hsub).
  pose proof (absent_keys_rest keys _ _ Hsub Habs) as Habs1.
  destruct (String.eqb_spec w "") as [->|_];
    [inversion Hloop; subst; exact HP|].
  destruct (String.eqb_spec w "absolute") as [->|_].
  { destruct (IStream.get_num num_get_int ins1) as [v ins2] eqn:Hn.
    destruct (IStreamFacts.get_num_rest _ _ _ _ Hn) as [_ Hsub2].
    eapply IH; [|apply P_absolute; [exact Hnot | exact HP]|exact Hloop].
    exact (absent_keys_rest keys _ _ Hsub2 Habs1). }
  destruct (String.eqb_spec w "relative") as [->|_].
  { destruct (IStream.get_num num_get_float ins1) as [v ins2] eqn:Hn.
    destruct (IStreamFacts.get_num_rest _ _ _ _ Hn) as [_ Hsub2].
    eapply IH; [|apply P_relative; [exact Hnot | exact HP]|exact Hloop].
    exact (absent_keys_rest keys _ _ Hsub2 Habs1). }
  destruct (String.eqb_spec w "interpolate") as [->|_].
  { destruct (IStream.get_num num_get_float ins1) as [v ins2] eqn:Hn.
    destruct (IStreamFacts.get_num_rest _ _ _ _ Hn) as [_ Hsub2].
    eapply IH; [|apply P_interpolate; [exact Hnot | exact HP]|exact Hloop].
    exact (absent_keys_rest keys _ _ Hsub2 Habs1). }
  destruct (String.eqb_spec w "input_file") as [->|_].
  { destruct (IStream.get_string ins1) as [v ins2] eqn:Hn.
    destruct (IStreamFacts.get_string_rest _ _ _ Hn) as [_ Hsub2].
    eapply IH; [|apply P_input_file; [exact Hnot | exact HP]|exact Hloop].
    exact (absent_keys_rest keys _ _ Hsub2 Habs1). }
  destruct (String.eqb_spec w "output_file") as [->|_].
  { destruct (IStream.get_string ins1) as [v ins2] eqn:Hn.
    destruct (IStreamFacts.get_string_rest _ _ _ Hn) as [_ Hsub2].
    eapply IH; [|apply P_output_file; [exact Hnot | exact HP]|exact Hloop].
    exact (absent_keys_rest keys _ _ Hsub2 Habs1). }
  eapply IH; [exact Habs1 | exact HP | exact Hloop].
Qed.

(** The same for the keys that the loop never reads at its head. *)
Lemma nudged_static_loop_keeps_read (fuel : nat) :
  forall (ins : IStream.t) (p p' : t),
  (forall k, In k keys -> ~ In k (nudged_static_tokens fuel ins)) ->
  P p -> nudged_static_loop fuel ins p = Some p' -> P p'.
Proof.
  induction fuel as [|fuel IH]; intros ins p p' Habs HP Hloop; [discriminate|].
  cbn [nudged_static_loop nudged_static_tokens] in Hloop, Habs.
  destruct (IStream.get_string ins) as [got ins1] eqn:Hg.
  destruct got as [w|]; cbn [store] in Hloop, Habs;
    [|simpl in Hloop; inversion Hloop; subst; exact HP].
  destruct (String.eqb_spec w "") as [->|_];
    [inversion Hloop; subst; exact HP|].
  destruct (String.eqb_spec w "absolute") as [->|_].
  { destruct (IStream.get_num num_get_int ins1) as [v ins2] eqn:Hn.
    eapply IH; [|apply P_absolute; [|exact HP]|exact Hloop].
    - intros k Hk Hin. apply (Habs k Hk). right. exact Hin.
    - intros Hk. apply (Habs _ Hk). left. reflexivity. }
  destruct (String.eqb_spec w "relative") as [->|_].
  { destruct (IStream.get_num num_get_float ins1) as [v ins2] eqn:Hn.
    eapply IH; [|apply P_relative; [|exact HP]|exact Hloop].
    - intros k Hk Hin. apply (Habs k Hk). right. exact Hin.
    - intros Hk. apply (Habs _ Hk). left. reflexivity. }
  destruct (String.eqb_spec w "interpolate") as [->|_].
  { destruct (IStream.get_num num_get_float ins1) as [v ins2] eqn:Hn.
    eapply IH; [|apply P_interpolate; [|exact HP]|exact Hloop].
    - intros k Hk Hin. apply (Habs k Hk). right. exact Hin.
    - intros Hk. apply (Habs _ Hk). left. reflexivity. }
  destruct (String.eqb_spec w "input_file") as [->|_].
  { destruct (IStream.get_string ins1) as [v ins2] eqn:Hn.
    eapply IH; [|apply P_input_file; [|exact HP]|exact Hloop].
    - intros k Hk Hin. apply (Habs k Hk). right. exact Hin.
    - intros Hk. apply (Habs _ Hk). left. reflexivity. }
  destruct (String.eqb_spec w "output_file") as [->|_].
  { destruct (IStream.get_string ins1) as [v ins2] eqn:Hn.
    eapply IH; [|apply P_output_file; [|exact HP]|exact Hloop].
    - intros k Hk Hin. apply (Habs k Hk). right. exact Hin.
    - intros Hk. apply (Habs _ Hk). left. reflexivity. }
  eapply IH; [|exact HP | exact Hloop].
  intros k Hk Hin. apply (Habs k Hk). right. exact Hin.
Qed.

End NudgedStaticParse.

Section ParseTotal.
Context `{Services}.

(** The loops return: one iteration more than there are characters is
    enough. *)
Lemma nudged_static_loop_total (fuel : nat) :
  forall (ins : IStream.t) (p : NudgedStaticParams.t),
  (String.length (IStream.buf ins) < fuel)%nat ->
  exists p', nudged_static_loop fuel ins p = Some p'.
Proof.
  induction fuel as [|fuel IH]; intros ins p Hlen; [lia|].
  cbn [nudged_static_loop].
  destruct (IStream.get_string ins) as [got ins1] eqn:Hg.
  destruct got as [w|]; cbn [store]; [|simpl; eauto].
  destruct (IStreamFacts.get_string_some _ _ _ Hg) as (_ & _ & Hlt & _).
  destruct (String.eqb w ""); [eauto|].
  destruct (String.eqb w "absolute").
  { destruct (IStream.get_num num_get_int ins1) as [v ins2] eqn:Hn.
    destruct (IStreamFacts.get_num_rest _ _ _ _ Hn) as [Hle _]. apply IH. lia. }
  destruct (String.eqb w "relative").
  { destruct (IStream.get_num num_get_float ins1) as [v ins2] eqn:Hn.
    destruct (IStreamFacts.get_num_rest _ _ _ _ Hn) as [Hle _]. apply IH. lia. }
  destruct (String.eqb w "interpolate").
  { destruct (IStream.get_num num_get_float ins1) as [v ins2] eqn:Hn.
    destruct (IStreamFacts.get_num_rest _ _ _ _ Hn) as [Hle _]. apply IH. lia. }
  destruct (String.eqb w "input_file").
  { destruct (IStream.get_string ins1) as [v ins2] eqn:Hn.
    destruct (IStreamFacts.get_string_rest _ _ _ Hn) as [Hle _]. apply IH. lia. }
  destruct (String.eqb w "output_file").
  { destruct (IStream.get_string ins1) as [v ins2] eqn:Hn.
    destruct (IStreamFacts.get_string_rest _ _ _ Hn) as [Hle _]. apply IH. lia. }
  apply IH. lia.
Qed.

Lemma rescore_fen_loop_total (fuel : nat) :
  forall (ins : IStream.t) (p : RescoreFenParams.t),
  (String.length (IStream.buf ins) < fuel)%nat ->
  exists p', rescore_fen_loop fuel ins p = Some p'.
Proof.
  induction fuel as [|fuel IH]; intros ins p Hlen; [lia|].
  cbn [rescore_fen_loop].
  destruct (IStream.get_string ins) as [got ins1] eqn:Hg.
  destruct got as [w|]; cbn [store]; [|simpl; eauto].
  destruct (IStreamFacts.get_string_some _ _ _ Hg) as (_ & _ & Hlt & _).
  destruct (String.eqb w ""); [eauto|].
  destruct (String.eqb w "depth").
  { destruct (IStream.get_num num_get_int ins1) as [v ins2] eqn:Hn.
    destruct (IStreamFacts.get_num_rest _ _ _ _ Hn) as [Hle _]. apply IH. lia. }
  destruct (String.eqb w "input_file").
  { destruct (IStream.get_string ins1) as [v ins2] eqn:Hn.
    destruct (IStreamFacts.get_string_rest _ _ _ Hn) as [Hle _]. apply IH. lia. }
  destruct (String.eqb w "output_file").
  { destruct (IStream.get_string ins1) as [v ins2] eqn:Hn.
    destruct (IStreamFacts.get_string_rest _ _ _ Hn) as [Hle _]. apply IH. lia. }
  apply IH. lia.
Qed.

Lemma nudged_static_params_total (ins : IStream.t) :
  exists p, nudged_static_params ins = Some p.
Proof. apply nudged_static_loop_total. lia. Qed.

Lemma rescore_fen_params_total (ins : IStream.t) :
  exists q, rescore_fen_params ins = Some q.
Proof. apply rescore_fen_loop_total. lia. Qed.

End ParseTotal.

Section RescoreFenParse.
Context `{Services}.
Import RescoreFenParams.

Variable P : t -> Prop.
Variable keys : list string.
Hypothesis P_depth :
  ~ In "depth" keys ->
  forall p v, P p -> P (mk (input_filename p) (output_filename p) (store (depth p) v)).
Hypothesis P_input_file :
  ~ In "input_file" keys ->
  forall p v, P p -> P (mk (store (input_filename p) v) (output_filename p) (depth p)).
Hypothesis P_output_file :
  ~ In "output_file" keys ->
  forall p v, P p -> P (mk (input_filename p) (store (output_filename p) v) (depth p)).

Lemma rescore_fen_loop_keeps (fuel : nat) :
  forall (ins : IStream.t) (p p' : t),
  (forall k, In k keys -> IStream.occurs k (IStream.buf ins) = false) ->
  P p -> rescore_fen_loop fuel ins p = Some p' -> P p'.
Proof.
  induction fuel as [|fuel IH]; intros ins p p' Habs HP Hloop; [discriminate|].
  cbn [rescore_fen_loop] in Hloop.
  destruct (IStream.get_string ins) as [got ins1] eqn:Hg.
  destruct got as [w|]; cbn [store] in Hloop;
    [|simpl in Hloop; inversion Hloop; subst; exact HP].
  pose proof (absent_key_not_read keys _ _ _ Habs Hg) as Hnot.
  destruct (IStreamFacts.get_string_some _ _ _ Hg) as (_ & _ & _ & Hsub).
  pose proof (absent_keys_rest keys _ _ Hsub Habs) as Habs1.
  destruct (String.eqb_spec w "") as [->|_];
    [inversion Hloop; subst; exact HP|].
  destruct (String.eqb_spec w "depth") as [->|_].
  { destruct (IStream.get_num num_get_int ins1) as [v ins2] eqn:Hn.
    destruct (IStreamFacts.get_num_rest _ _ _ _ Hn) as [_ Hsub2].
    eapply IH; [|apply P_depth; [exact Hnot | exact HP]|exact Hloop].
    exact (absent_keys_rest keys _ _ Hsub2 Habs1). }
  destruct (String.eqb_spec w "input_file") as [->|_].
  { destruct (IStream.get_string ins1) as [v ins2] eqn:Hn.
    destruct (IStreamFacts.get_string_rest _ _ _ Hn) as [_ Hsub2].
    eapply IH; [|apply P_input_file; [exact Hnot | exact HP]|exact Hloop].
    exact (absent_keys_rest keys _ _ Hsub2 Habs1). }
  destruct (String.eqb_spec w "output_file") as [->|_].
  { destruct (IStream.get_string ins1) as [v ins2] eqn:Hn.
    destruct (IStreamFacts.get_string_rest _ _ _ Hn) as [_ Hsub2].
    eapply IH; [|apply P_output_file; [exact Hnot | exact HP]|exact Hloop].
    exact (absent_keys_rest keys _ _ Hsub2 Habs1). }
  eapply IH; [exact Habs1 | exact HP | exact Hloop].
Qed.

Lemma rescore_fen_loop_keeps_read (fuel : nat) :
  forall (ins : IStream.t) (p p' : t),
  (forall k, In k keys -> ~ In k (rescore_fen_tokens fuel ins)) ->
  P p -> rescore_fen_loop fuel ins p = Some p' -> P p'.
Proof.
  induction fuel as [|fuel IH]; intros ins p p' Habs HP Hloop; [discriminate|].
  cbn [rescore_fen_loop rescore_fen_tokens] in Hloop, Habs.
  destruct (IStream.get_string ins) as [got ins1] eqn:Hg.
  destruct got as [w|]; cbn [store] in Hloop, Habs;
    [|simpl in Hloop; inversion Hloop; subst; exact HP].
  destruct (String.eqb_spec w "") as [->|_];
    [inversion Hloop; subst; exact HP|].
  destruct (String.eqb_spec w "depth") as [->|_].
  { destruct (IStream.get_num num_get_int ins1) as [v ins2] eqn:Hn.
    eapply IH; [|apply P_depth; [|exact HP]|exact Hloop].
    - intros k Hk Hin. apply (Habs k Hk). right. exact Hin.
    - intros Hk. apply (Habs _ Hk). left. reflexivity. }
  destruct (String.eqb_spec w "input_file") as [->|_].
  { destruct (IStream.get_string ins1) as [v ins2] eqn:Hn.
    eapply IH; [|apply P_input_file; [|exact HP]|exact Hloop].
    - intros k Hk Hin. apply (Habs k Hk). right. exact Hin.
    - intros Hk. apply (Habs _ Hk). left. reflexivity. }
  destruct (String.eqb_spec w "output_file") as [->|_].
  { destruct (IStream.get_string ins1) as [v ins2] eqn:Hn.
    eapply IH; [|apply P_output_file; [|exact HP]|exact Hloop].
    - intros k Hk Hin. apply (Habs k Hk). right. exact Hin.
    - intros Hk. apply (Habs _ Hk). left. reflexivity. }
  eapply IH; [|exact HP | exact Hloop].
  intros k Hk Hin. apply (Habs k Hk). right. exact Hin.
Qed.

End RescoreFenParse.

(** ** Every token read occurs in the stream *)

Section TokensOccur.
Context `{Services}.

Lemma nudged_static_tokens_occur (fuel : nat) :
  forall (ins : IStream.t) (w : string),
  In w (nudged_static_tokens fuel ins) -> IStream.occurs w (IStream.buf ins) = true.
Proof.
  induction fuel as [|fuel IH]; intros ins w Hin; [contradiction|].
  cbn [nudged_static_tokens] in Hin.
  destruct (IStream.get_string ins) as [got ins1] eqn:Hg.
  destruct got as [t|]; cbn [store] in Hin; [|contradiction].
  destruct (IStreamFacts.get_string_some _ _ _ Hg) as (Hocc & _ & _ & Hsub).
  destruct (String.eqb t ""); [contradiction|].
  destruct (String.eqb t "absolute").
  { destruct (IStream.get_num num_get_int ins1) as [v ins2] eqn:Hn.
    destruct (IStreamFacts.get_num_rest _ _ _ _ Hn) as [_ Hsub2].
    destruct Hin as [<-|Hin]; [exact Hocc|]. apply Hsub, Hsub2, IH, Hin. }
  destruct (String.eqb t "relative").
  { destruct (IStream.get_num num_get_float ins1) as [v ins2] eqn:Hn.
    destruct (IStreamFacts.get_num_rest _ _ _ _ Hn) as [_ Hsub2].
    destruct Hin as [<-|Hin]; [exact Hocc|]. apply Hsub, Hsub2, IH, Hin. }
  destruct (String.eqb t "interpolate").
  { destruct (IStream.get_num num_get_float ins1) as [v ins2] eqn:Hn.
    destruct (IStreamFacts.get_num_rest _ _ _ _ Hn) as [_ Hsub2].
    destruct Hin as [<-|Hin]; [exact Hocc|]. apply Hsub, Hsub2, IH, Hin. }
  destruct (String.eqb t "input_file").
  { destruct (IStream.get_string ins1) as [v ins2] eqn:Hn.
    destruct (IStreamFacts.get_string_rest _ _ _ Hn) as [_ Hsub2].
    destruct Hin as [<-|Hin]; [exact Hocc|]. apply Hsub, Hsub2, IH, Hin. }
  destruct (String.eqb t "output_file").
  { destruct (IStream.get_string ins1) as [v ins2] eqn:Hn.
    destruct (IStreamFacts.get_string_rest _ _ _ Hn) as [_ Hsub2].
    destruct Hin as [<-|Hin]; [exact Hocc|]. apply Hsub, Hsub2, IH, Hin. }
  destruct Hin as [<-|Hin]; [exact Hocc|]. apply Hsub, IH, Hin.
Qed.

Lemma rescore_fen_tokens_occur (fuel : nat) :
  forall (ins : IStream.t) (w : string),
  In w (rescore_fen_tokens fuel ins) -> IStream.occurs w (IStream.buf ins) = true.
Proof.
  induction fuel as [|fuel IH]; intros ins w Hin; [contradiction|].
  cbn [rescore_fen_tokens] in Hin.
  destruct (IStream.get_string ins) as [got ins1] eqn:Hg.
  destruct got as [t|]; cbn [store] in Hin; [|contradiction].
  destruct (IStreamFacts.get_string_some _ _ _ Hg) as (Hocc & _ & _ & Hsub).
  destruct (String.eqb t ""); [contradiction|].
  destruct (String.eqb t "depth").
  { destruct (IStream.get_num num_get_int ins1) as [v ins2] eqn:Hn.
    destruct (IStreamFacts.get_num_rest _ _ _ _ Hn) as [_ Hsub2].
    destruct Hin as [<-|Hin]; [exact Hocc|]. apply Hsub, Hsub2, IH, Hin. }
  destruct (String.eqb t "input_file").
  { destruct (IStream.get_string ins1) as [v ins2] eqn:Hn.
    destruct (IStreamFacts.get_string_rest _ _ _ Hn) as [_ Hsub2].
    destruct Hin as [<-|Hin]; [exact Hocc|]. apply Hsub, Hsub2, IH, Hin. }
  destruct (String.eqb t "output_file").
  { destruct (IStream.get_string ins1) as [v ins2] eqn:Hn.
    destruct (IStreamFacts.get_string_rest _ _ _ Hn) as [_ Hsub2].
    destruct Hin as [<-|Hin]; [exact Hocc|]. apply Hsub, Hsub2, IH, Hin. }
  destruct Hin as [<-|Hin]; [exact Hocc|]. apply Hsub, IH, Hin.
Qed.

End TokensOccur.

(** ** Defaults *)

Section Defaults.
Context `{Services}.

Lemma enforce_default_nudged :
  NudgedStaticParams.enforce_constraints NudgedStaticParams.default
  = NudgedStaticParams.default.
Proof. reflexivity. Qed.

Lemma enforce_default_rescore :
  RescoreFenParams.enforce_constraints RescoreFenParams.default
  = RescoreFenParams.default.
Proof. reflexivity. Qed.

Local Ltac absent_key :=
  let Hn := fresh in
  intros Hn; exfalso; apply Hn; simpl; tauto.

Local Ltac other_key :=
  let HP := fresh in
  intros _ ? ? HP; first [exact HP | reflexivity].

Local Ltac one_key :=
  let k := fresh in let Hin := fresh in
  intros k Hin; simpl in Hin;
  repeat (destruct Hin as [<-|Hin]; [assumption|]); contradiction.

(** C10, amended.  Both parsers return on every argument stream.  A
    key is absent from a stream when the parsing loop never reads it
    as a token at the head of an iteration; this is so, in particular,
    when its letters occur nowhere in the stream, since every token
    read occurs in it.  A parameter whose key is absent reaches the
    driver with its default: mode absolute (when neither [relative] nor
    [interpolate] is read), cap 5, relative fraction and interpolation
    weight the [float] nearest to 0.1, files [in.binpack] and
    [out.binpack]; depth 3 and files [in.epd] and [out.binpack] for
    rescoring.  On the empty stream each command runs its driver with
    exactly the defaults.  A key that is the value of another key is
    not read as a token; a key that is not a word of the stream is
    read when it follows the digits of a number. *)
Theorem parse_defaults (s : string) :
  let ins := IStream.of_string s in
  let read := nudged_static_tokens (S (String.length s)) ins in
  let read' := rescore_fen_tokens (S (String.length s)) ins in
  exists (p : NudgedStaticParams.t) (q : RescoreFenParams.t),
    nudged_static_params ins = Some p
    /\ rescore_fen_params ins = Some q
    /\ (forall w : string, In w read \/ In w read' -> IStream.occurs w s = true)
    /\ let p' := NudgedStaticParams.enforce_constraints p in
       let q' := RescoreFenParams.enforce_constraints q in
       (~ In "relative" read -> ~ In "interpolate" read ->
        NudgedStaticParams.mode p' = Absolute)
       /\ (~ In "absolute" read -> NudgedStaticParams.absolute_nudge p' = 5)
       /\ (~ In "relative" read ->
           NudgedStaticParams.relative_nudge p' = F32.one_tenth)
       /\ (~ In "interpolate" read ->
           NudgedStaticParams.interpolate_nudge p' = F32.one_tenth)
       /\ (~ In "input_file" read ->
           NudgedStaticParams.input_filename p' = "in.binpack")
       /\ (~ In "output_file" read ->
           NudgedStaticParams.output_filename p' = "out.binpack")
       /\ (~ In "depth" read' -> RescoreFenParams.depth q' = 3)
       /\ (~ In "input_file" read' -> RescoreFenParams.input_filename q' = "in.epd")
       /\ (~ In "output_file" read' ->
           RescoreFenParams.output_filename q' = "out.binpack")
       /\ (s = EmptyString ->
           p' = NudgedStaticParams.default /\ q' = RescoreFenParams.default)
       /\ forall w : World,
            nudged_static (IStream.of_string EmptyString) w
            = Some (do_nudged_static NudgedStaticParams.default
                      (print (nudged_static_echo NudgedStaticParams.default) w))
            /\ rescore_fen (IStream.of_string EmptyString) w
               = do_rescore_fen RescoreFenParams.default
                   (print (rescore_fen_echo RescoreFenParams.default) w).
Proof.
  intros ins read read'.
  destruct (nudged_static_params_total ins) as [p Hp].
  destruct (rescore_fen_params_total ins) as [q Hq].
  exists p, q. split; [exact Hp|]. split; [exact Hq|].
  split.
  { intros w [Hin|Hin].
    - exact (nudged_static_tokens_occur _ ins w Hin).
    - exact (rescore_fen_tokens_occur _ ins w Hin). }
  unfold nudged_static_params in Hp. unfold rescore_fen_params in Hq.
  change (IStream.buf ins) with s in Hp, Hq. fold read in Hp. fold read' in Hq.
  cbv zeta. split_and!.
  - intros Hr Hi. simpl.
    apply (nudged_static_loop_keeps_read
             (fun p => NudgedStaticParams.mode p = Absolute)
             ["relative"; "interpolate"]) in Hp;
      [exact Hp | other_key | absent_key | absent_key | other_key | other_key
       | one_key | reflexivity].
  - intros Ha. simpl.
    apply (nudged_static_loop_keeps_read
             (fun p => NudgedStaticParams.absolute_nudge p = 5) ["absolute"]) in Hp;
      [rewrite Hp; reflexivity
       | absent_key | other_key | other_key | other_key | other_key
       | one_key | reflexivity].
  - intros Hr. simpl.
    apply (nudged_static_loop_keeps_read
             (fun p => NudgedStaticParams.relative_nudge p = F32.one_tenth)
             ["relative"]) in Hp;
      [rewrite Hp; reflexivity
       | other_key | absent_key | other_key | other_key | other_key
       | one_key | reflexivity].
  - intros Hi. simpl.
    apply (nudged_static_loop_keeps_read
             (fun p => NudgedStaticParams.interpolate_nudge p = F32.one_tenth)
             ["interpolate"]) in Hp;
      [exact Hp
       | other_key | other_key | absent_key | other_key | other_key
       | one_key | reflexivity].
  - intros Hf. simpl.
    apply (nudged_static_loop_keeps_read
             (fun p => NudgedStaticParams.input_filename p = "in.binpack")
             ["input_file"]) in Hp;
      [exact Hp
       | other_key | other_key | other_key | absent_key | other_key
       | one_key | reflexivity].
  - intros Hf. simpl.
    apply (nudged_static_loop_keeps_read
             (fun p => NudgedStaticParams.output_filename p = "out.binpack")
             ["output_file"]) in Hp;
      [exact Hp
       | other_key | other_key | other_key | other_key | absent_key
       | one_key | reflexivity].
  - intros Hd. simpl.
    apply (rescore_fen_loop_keeps_read
             (fun q => RescoreFenParams.depth q = 3) ["depth"]) in Hq;
      [rewrite Hq; reflexivity
       | absent_key | other_key | other_key | one_key | reflexivity].
  - intros Hf. simpl.
    apply (rescore_fen_loop_keeps_read
             (fun q => RescoreFenParams.input_filename q = "in.epd")
             ["input_file"]) in Hq;
      [exact Hq | other_key | absent_key | other_key | one_key | reflexivity].
  - intros Hf. simpl.
    apply (rescore_fen_loop_keeps_read
             (fun q => RescoreFenParams.output_filename q = "out.binpack")
             ["output_file"]) in Hq;
      [exact Hq | other_key | other_key | absent_key | one_key | reflexivity].
  - intros ->. simpl in Hp, Hq. inversion Hp; inversion Hq; subst.
    split; reflexivity.
  - intros w. split; reflexivity.
Qed.

End Defaults.

(** ** The worker pool *)

Section PoolFacts.
Context `{Services}.
Variable params : RescoreFenParams.t.

Local Open Scope nat_scope.

Lemma count_workers_insert (f : worker -> bool) (ws : list worker) :
  forall (i : nat) (old new : worker),
  ws !! i = Some old ->
  count_workers f (<[i := new]> ws) + (if f old then 1 else 0)
  = count_workers f ws + (if f new then 1 else 0).
Proof.
  induction ws as [|w ws IH]; intros [|i] old new Hi; cbn in Hi; try discriminate.
  - inversion Hi; subst. cbn. lia.
  - specialize (IH i old new Hi).
    change (<[S i := new]> (w :: ws)) with (w :: <[i := new]> ws).
    cbn [count_workers]. lia.
Qed.

Lemma total_weight_insert (ws : list worker) :
  forall (i : nat) (old new : worker),
  ws !! i = Some old ->
  total_weight (<[i := new]> ws) + worker_weight old
  = total_weight ws + worker_weight new.
Proof.
  induction ws as [|w ws IH]; intros [|i] old new Hi; cbn in Hi; try discriminate.
  - inversion Hi; subst. cbn. lia.
  - specialize (IH i old new Hi).
    change (<[S i := new]> (w :: ws)) with (w :: <[i := new]> ws).
    cbn [total_weight]. lia.
Qed.

Lemma count_workers_replicate (f : worker -> bool) (k : nat) (wk : worker) :
  count_workers f (replicate k wk) = if f wk then k else 0.
Proof.
  induction k as [|k IH]; cbn.
  - destruct (f wk); reflexivity.
  - cbn in IH. rewrite IH. destruct (f wk); lia.
Qed.

Lemma count_workers_finished (f : worker -> bool) (ws : list worker) :
  f Finished = false -> forallb is_finished ws = true -> count_workers f ws = 0.
Proof.
  intros Hf.
  induction ws as [|w ws IH]; cbn; [reflexivity|].
  intros Hall. apply andb_true_iff in Hall as [Hw Hws].
  destruct w; try discriminate. rewrite Hf, (IH Hws). reflexivity.
Qed.

(** *** [next_fen] *)

Lemma next_fen_none (fens : list string) :
  (next_fen fens).1 = None
  <-> fens = [] \/ exists fen rest, fens = fen :: rest /\ String.length fen < 10.
Proof.
  unfold next_fen. destruct fens as [|fen rest].
  - split; [intros _; left; reflexivity | reflexivity].
  - destruct (10 <=? String.length fen) eqn:Hlen; cbn [fst]; split.
    + intros E. discriminate E.
    + apply Nat.leb_le in Hlen.
      intros [E|(f & r & E & Hlt)]; [discriminate|]. inversion E; subst. lia.
    + apply Nat.leb_gt in Hlen.
      intros _. right. exists fen, rest. split; [reflexivity | lia].
    + reflexivity.
Qed.

Lemma next_fen_some (fens : list string) (fen : string) :
  (next_fen fens).1 = Some fen
  <-> exists rest, fens = fen :: rest /\ 10 <= String.length fen.
Proof.
  unfold next_fen. destruct fens as [|fen' rest].
  - split; [intros E; discriminate E | intros (r & E & _); discriminate].
  - destruct (10 <=? String.length fen') eqn:Hlen; cbn [fst]; split.
    + apply Nat.leb_le in Hlen.
      intros E. inversion E; subst. exists rest. split; [reflexivity | lia].
    + intros (r & E & _). inversion E; subst. reflexivity.
    + intros E. discriminate E.
    + apply Nat.leb_gt in Hlen.
      intros (r & E & Hle). inversion E; subst. lia.
Qed.

(** *** What the workers read *)

Lemma lines_read_nil (k : nat) : lines_read [] k = [].
Proof. destruct k; reflexivity. Qed.

Lemma lines_read_valid (fen : string) (rest : list string) (k : nat) :
  valid_fen fen = true -> 0 < k ->
  lines_read (fen :: rest) k = fen :: lines_read rest k.
Proof. intros Hv Hk. destruct k; [lia|]. simpl. rewrite Hv. reflexivity. Qed.

Lemma lines_read_short (fen : string) (rest : list string) (k : nat) :
  valid_fen fen = false ->
  lines_read (fen :: rest) (S k) = fen :: lines_read rest k.
Proof. intros Hv. simpl. rewrite Hv. reflexivity. Qed.

Lemma count_valid_cons (fen : string) (fens : list string) :
  count_valid (fen :: fens)
  = (if valid_fen fen then 1 else 0) + count_valid fens.
Proof.
  unfold count_valid. rewrite filter_cons.
  destruct (decide (valid_fen fen = true)) as [E|E].
  - rewrite E. reflexivity.
  - destruct (valid_fen fen); [congruence | reflexivity].
Qed.

Lemma count_valid_le (fens : list string) : count_valid fens <= length fens.
Proof.
  induction fens as [|fen fens IH]; [reflexivity|].
  rewrite count_valid_cons. simpl. destruct (valid_fen fen); lia.
Qed.

(** Every line read is a line of the file, in order: the lines read are
    a prefix of the file. *)
Lemma lines_read_prefix (fens : list string) :
  forall k, exists rest, fens = lines_read fens k ++ rest.
Proof.
  induction fens as [|fen fens IH]; intros k.
  - exists []. rewrite lines_read_nil. reflexivity.
  - destruct k as [|k]; [exists (fen :: fens); reflexivity|].
    simpl. destruct (IH (if valid_fen fen then S k else k)) as [rest Hrest].
    exists rest. simpl. rewrite <- Hrest. reflexivity.
Qed.

End PoolFacts.

Section PoolRun.
Context `{Services}.
Variable params : RescoreFenParams.t.

Local Open Scope nat_scope.

(** *** The steps, case by case *)

Lemma worker_step_kind (i : nat) (p p' : pool) :
  worker_step params i p = Some p' -> null_deref p = false /\ step_kind params i p p'.
Proof.
  unfold worker_step. destruct (null_deref p) eqn:Hnull; [discriminate|].
  intros Hstep. split; [reflexivity|].
  destruct (workers p !! i) as [[| fen | ps |]|] eqn:Hw; try discriminate.
  - unfold next_fen in Hstep. destruct (fens_file p) as [|fen rest] eqn:Hf.
    + inversion Hstep; subst. eapply StepEnd; eauto.
    + destruct (10 <=? String.length fen) eqn:Hv; inversion Hstep; subst.
      * eapply StepFen; eauto.
      * eapply StepShort; eauto.
  - inversion Hstep; subst. eapply StepSearch; eauto.
  - inversion Hstep; subst. eapply StepAppend; eauto.
Qed.

Lemma worker_step_enabled (i : nat) (p : pool) (wk : worker) :
  null_deref p = false -> workers p !! i = Some wk -> is_finished wk = false ->
  exists p', worker_step params i p = Some p'.
Proof.
  intros Hnull Hw Hfin. unfold worker_step. rewrite Hnull, Hw.
  destruct wk; try discriminate; eauto.
  destruct (next_fen (fens_file p)) as [[fen|] rest]; eauto.
Qed.

(** *** The invariant *)

Variables (fens0 : list string) (k : nat) (sink : bool) (w0 : World).

Lemma pool_inv_initial : pool_inv fens0 k sink w0 (initial_pool fens0 k sink w0).
Proof.
  unfold pool_inv, initial_pool, alive, searching, appending.
  cbn [fens_file workers buffer num_processed out pool_world null_deref searches].
  rewrite !count_workers_replicate. cbn [negb is_finished].
  split_and!; try reflexivity.
  - intros E. discriminate E.
  - intros _. split; [reflexivity|]. exists [].
    rewrite !app_nil_r. split; [reflexivity | simpl; lia].
Qed.

Lemma search_fen_kind (fen : string) :
  search_fen params fen = AtNextFen \/ exists ps, search_fen params fen = AtAppend ps.
Proof.
  unfold search_fen. destruct (search _ _ _) as [v [|m pv]]; eauto.
Qed.

Lemma pool_inv_step (i : nat) (p p' : pool) :
  worker_step params i p = Some p' ->
  pool_inv fens0 k sink w0 p -> pool_inv fens0 k sink w0 p'.
Proof.
  intros Hstep (Hcount & Hout & Hnullout & Hcerr & Hbuf).
  destruct (worker_step_kind _ _ _ Hstep) as [Hnull Hkind].
  specialize (Hbuf Hnull). destruct Hbuf as (Hlen & emitted & Hem & Hle).
  unfold pool_inv, alive, searching, appending in *.
  destruct Hkind as [Hw Hf -> | fen rest Hw Hf Hv -> | fen rest Hw Hf Hv ->
                    | fen Hw Hf' Hw' Hb' Hn' Ho' Hpw' Hnd' Hs' | ps Hw ->].
  - (* the end of the file *)
    cbn [set_worker fens_file workers buffer num_processed out pool_world
         null_deref searches].
    pose proof (count_workers_insert (fun wk => negb (is_finished wk)) _ _ _ Finished Hw) as Ha.
    pose proof (count_workers_insert
      (fun wk => match wk with AtSearch _ => true | _ => false end) _ _ _ Finished Hw) as Hs.
    pose proof (count_workers_insert
      (fun wk => match wk with AtAppend _ => true | _ => false end) _ _ _ Finished Hw) as Hp.
    cbn [negb is_finished] in Ha, Hs, Hp. rewrite Hf, lines_read_nil in Hcount.
    rewrite lines_read_nil. split_and!; auto; [lia|].
    intros _. split; [exact Hlen|]. exists emitted. split; [exact Hem | lia].
  - (* a line of ten characters or more *)
    cbn [set_worker fens_file workers buffer num_processed out pool_world
         null_deref searches].
    pose proof (count_workers_insert (fun wk => negb (is_finished wk)) _ _ _ (AtSearch fen) Hw) as Ha.
    pose proof (count_workers_insert
      (fun wk => match wk with AtSearch _ => true | _ => false end) _ _ _ (AtSearch fen) Hw) as Hs.
    pose proof (count_workers_insert
      (fun wk => match wk with AtAppend _ => true | _ => false end) _ _ _ (AtSearch fen) Hw) as Hp.
    cbn [negb is_finished] in Ha, Hs, Hp. rewrite Hf in Hcount.
    assert (Halive : count_workers (fun wk => negb (is_finished wk))
                       (<[i := AtSearch fen]> (workers p))
                     = count_workers (fun wk => negb (is_finished wk)) (workers p)) by lia.
    rewrite Halive.
    pose proof (count_workers_insert (fun wk => negb (is_finished wk)) _ _ _ Finished Hw) as Hpos.
    cbn [negb is_finished] in Hpos.
    rewrite lines_read_valid, count_valid_cons, Hv in Hcount by (auto; lia).
    split_and!; auto; [lia|].
    intros _. split; [exact Hlen|]. exists emitted. split; [exact Hem | lia].
  - (* a shorter line *)
    cbn [set_worker fens_file workers buffer num_processed out pool_world
         null_deref searches].
    pose proof (count_workers_insert (fun wk => negb (is_finished wk)) _ _ _ Finished Hw) as Ha.
    pose proof (count_workers_insert
      (fun wk => match wk with AtSearch _ => true | _ => false end) _ _ _ Finished Hw) as Hs.
    pose proof (count_workers_insert
      (fun wk => match wk with AtAppend _ => true | _ => false end) _ _ _ Finished Hw) as Hp.
    cbn [negb is_finished] in Ha, Hs, Hp. rewrite Hf in Hcount.
    assert (Halive : count_workers (fun wk => negb (is_finished wk)) (workers p)
                     = S (count_workers (fun wk => negb (is_finished wk))
                            (<[i := Finished]> (workers p)))) by lia.
    rewrite Halive, lines_read_short, count_valid_cons, Hv in Hcount by auto.
    split_and!; auto; [lia|].
    intros _. split; [exact Hlen|]. exists emitted. split; [exact Hem | lia].
  - (* the search *)
    rewrite Hf', Hw', Hb', Ho', Hpw', Hnd', Hs'.
    pose proof (count_workers_insert (fun wk => negb (is_finished wk)) _ _ _
                  (search_fen params fen) Hw) as Ha.
    pose proof (count_workers_insert
      (fun wk => match wk with AtSearch _ => true | _ => false end) _ _ _
                  (search_fen params fen) Hw) as Hs.
    pose proof (count_workers_insert
      (fun wk => match wk with AtAppend _ => true | _ => false end) _ _ _
                  (search_fen params fen) Hw) as Hp.
    destruct (search_fen_kind fen) as [E|[ps E]]; rewrite E in *; cbn [negb is_finished] in Ha, Hs, Hp.
    + assert (Halive : count_workers (fun wk => negb (is_finished wk))
                         (<[i := AtNextFen]> (workers p))
                       = count_workers (fun wk => negb (is_finished wk)) (workers p)) by lia.
      rewrite Halive. split_and!; auto; [lia|].
      intros _. split; [exact Hlen|]. exists emitted. split; [exact Hem | lia].
    + assert (Halive : count_workers (fun wk => negb (is_finished wk))
                         (<[i := AtAppend ps]> (workers p))
                       = count_workers (fun wk => negb (is_finished wk)) (workers p)) by lia.
      rewrite Halive. split_and!; auto; [lia|].
      intros _. split; [exact Hlen|]. exists emitted. split; [exact Hem | lia].
  - (* the critical section *)
    pose proof (count_workers_insert (fun wk => negb (is_finished wk)) _ _ _ AtNextFen Hw) as Ha.
    pose proof (count_workers_insert
      (fun wk => match wk with AtSearch _ => true | _ => false end) _ _ _ AtNextFen Hw) as Hs.
    pose proof (count_workers_insert
      (fun wk => match wk with AtAppend _ => true | _ => false end) _ _ _ AtNextFen Hw) as Hp.
    cbn [negb is_finished] in Ha, Hs, Hp.
    assert (Halive : count_workers (fun wk => negb (is_finished wk))
                       (<[i := AtNextFen]> (workers p))
                     = count_workers (fun wk => negb (is_finished wk)) (workers p)) by lia.
    unfold append.
    assert (Hlen1 : Z.of_nat (length (buffer p ++ [ps]))
                    = (Z.of_nat (length (buffer p)) + 1)%Z).
    { rewrite length_app. simpl. lia. }
    destruct (Z.leb_spec rescore_batch_size (Z.of_nat (length (buffer p ++ [ps]))))
      as [Hfull|Hroom].
    + destruct (out p) eqn:Hsink;
        cbn [fens_file workers buffer num_processed out pool_world null_deref
             searches written cerr print write].
      * rewrite Halive. split_and!.
        -- lia.
        -- exact Hout.
        -- intros E. congruence.
        -- exact Hcerr.
        -- intros _. split; [unfold rescore_batch_size; simpl; lia|].
           exists (emitted ++ [ps]). split.
           ++ rewrite concat_app. simpl. rewrite !app_nil_r, !app_assoc.
              rewrite <- Hem. rewrite <- !app_assoc. reflexivity.
           ++ rewrite length_app. simpl. lia.
      * split_and!.
        -- exact Hcount.
        -- exact Hout.
        -- reflexivity.
        -- exact Hcerr.
        -- intros E. discriminate E.
    + cbn [fens_file workers buffer num_processed out pool_world null_deref
           searches written cerr print write].
      rewrite Halive. split_and!.
      * lia.
      * exact Hout.
      * exact Hnullout.
      * exact Hcerr.
      * intros _. split; [lia|].
        exists (emitted ++ [ps]). split.
        -- rewrite !app_assoc, <- Hem. reflexivity.
        -- rewrite length_app. simpl. lia.
Qed.

Lemma pool_inv_steps (p p' : pool) :
  rtc (pool_step params) p p' ->
  pool_inv fens0 k sink w0 p -> pool_inv fens0 k sink w0 p'.
Proof.
  induction 1 as [|p p1 p2 [i Hstep] _ IH]; [auto|].
  intros Hinv. apply IH. exact (pool_inv_step i _ _ Hstep Hinv).
Qed.

End PoolRun.

Section PoolTermination.
Context `{Services}.
Variable params : RescoreFenParams.t.

Local Open Scope nat_scope.

(** *** Every run ends *)

Lemma worker_step_decreases (i : nat) (p p' : pool) :
  worker_step params i p = Some p' ->
  null_deref p' = true \/ steps_left p' < steps_left p.
Proof.
  intros Hstep. destruct (worker_step_kind params _ _ _ Hstep) as [Hnull Hkind].
  unfold steps_left.
  destruct Hkind as [Hw Hf -> | fen rest Hw Hf Hv -> | fen rest Hw Hf Hv ->
                    | fen Hw Hf' Hw' Hb' Hn' Ho' Hpw' Hnd' Hs' | ps Hw ->].
  - right. cbn [set_worker fens_file workers]. rewrite Hf.
    pose proof (total_weight_insert _ _ _ Finished Hw) as Hwt. cbn [worker_weight length] in *. lia.
  - right. cbn [set_worker fens_file workers]. rewrite Hf.
    pose proof (total_weight_insert _ _ _ (AtSearch fen) Hw) as Hwt. cbn [worker_weight length] in *. lia.
  - right. cbn [set_worker fens_file workers]. rewrite Hf.
    pose proof (total_weight_insert _ _ _ Finished Hw) as Hwt. cbn [worker_weight length] in *. lia.
  - right. rewrite Hf', Hw'.
    pose proof (total_weight_insert _ _ _ (search_fen params fen) Hw) as Hwt.
    destruct (search_fen_kind params fen) as [E|[ps E]]; rewrite E in Hwt |- *;
      cbn [worker_weight length] in *; lia.
  - unfold append.
    pose proof (total_weight_insert _ _ _ AtNextFen Hw) as Hwt.
    destruct (Z.leb rescore_batch_size _); [destruct (out p)|];
      cbn [fens_file workers null_deref]; cbn [worker_weight length] in *;
      auto; right; lia.
Qed.

Lemma runnable_elem (p : pool) (i : nat) :
  i ∈ runnable p ->
  exists wk, workers p !! i = Some wk /\ is_finished wk = false.
Proof.
  unfold runnable. rewrite list_elem_of_filter. intros [Hrun _].
  destruct (workers p !! i) as [wk|]; [|discriminate].
  exists wk. split; [reflexivity|]. destruct (is_finished wk); [discriminate | reflexivity].
Qed.

Lemma runnable_nil (p : pool) :
  runnable p = [] -> forallb is_finished (workers p) = true.
Proof.
  intros Hnil. apply forallb_forall. intros wk Hin.
  apply list_elem_of_In, list_elem_of_lookup in Hin as [i Hi].
  destruct (is_finished wk) eqn:Hfin; [reflexivity|]. exfalso.
  assert (Hseq : i ∈ seq 0 (length (workers p))).
  { apply elem_of_seq. pose proof (lookup_lt_Some _ _ _ Hi). lia. }
  revert Hseq. unfold runnable in Hnil.
  apply (filter_nil_not_elem_of _ _ _ Hnil). rewrite Hi, Hfin. reflexivity.
Qed.

Lemma steps_left_zero (p : pool) :
  steps_left p = 0 -> forallb is_finished (workers p) = true.
Proof.
  unfold steps_left. intros Hz.
  assert (Hw : total_weight (workers p) = 0) by lia. clear Hz.
  induction (workers p) as [|wk ws IH]; [reflexivity|].
  simpl in *. destruct wk; simpl in *; try lia. apply IH. lia.
Qed.

Lemma run_pool_faulted (fuel t : nat) (p : pool) :
  null_deref p = true -> run_pool params fuel t p = p.
Proof.
  intros Hnull. destruct fuel as [|fuel]; [reflexivity|]. cbn [run_pool].
  destruct (runnable p !! _); [|reflexivity].
  unfold worker_step. rewrite Hnull. reflexivity.
Qed.

(** With as much fuel as [steps_left] the pool runs until every worker
    has returned, or into the null sink. *)
Lemma run_pool_spec (fuel : nat) :
  forall (t : nat) (p : pool),
  steps_left p <= fuel ->
  rtc (pool_step params) p (run_pool params fuel t p)
  /\ (null_deref (run_pool params fuel t p) = true
      \/ forallb is_finished (workers (run_pool params fuel t p)) = true).
Proof.
  induction fuel as [|fuel IH]; intros t p Hfuel.
  - simpl. split; [constructor|]. right. apply steps_left_zero. lia.
  - destruct (null_deref p) eqn:Hnull.
    { rewrite run_pool_faulted by exact Hnull. split; [constructor | left; exact Hnull]. }
    cbn [run_pool].
    destruct (runnable p !! (schedule t mod length (runnable p))) as [i|] eqn:Hpick.
    + assert (Hin : i ∈ runnable p) by (eapply list_elem_of_lookup_2; exact Hpick).
      destruct (runnable_elem _ _ Hin) as (wk & Hw & Hfin).
      destruct (worker_step_enabled params i p wk Hnull Hw Hfin) as [p' Hstep].
      rewrite Hstep.
      destruct (worker_step_decreases _ _ _ Hstep) as [Hnull'|Hlt].
      * rewrite run_pool_faulted by exact Hnull'.
        split; [|left; exact Hnull'].
        apply rtc_once. exists i. exact Hstep.
      * destruct (IH (S t) p') as [Hrtc Hend]; [lia|].
        split; [|exact Hend].
        eapply rtc_l; [exists i; exact Hstep | exact Hrtc].
    + split; [constructor|]. right. apply runnable_nil.
      destruct (runnable p) as [|j r] eqn:Hr; [reflexivity|]. exfalso.
      apply lookup_ge_None in Hpick.
      pose proof (Nat.mod_upper_bound (schedule t) (length (j :: r))) as Hmod.
      simpl length in *. lia.
Qed.

Lemma execute_with_workers_spec (p : pool) :
  rtc (pool_step params) p (execute_with_workers params p)
  /\ (null_deref (execute_with_workers params p) = true
      \/ forallb is_finished (workers (execute_with_workers params p)) = true).
Proof. apply run_pool_spec. reflexivity. Qed.

End PoolTermination.

(** ** The search-rescoring driver: attempts and output *)

Section RescoreAttempts.
Context `{Services}.
Variable params : RescoreFenParams.t.

Local Open Scope nat_scope.

Lemma count_valid_lines_read_le (fens : list string) (k : nat) :
  count_valid (lines_read fens k) <= count_valid fens.
Proof.
  revert k. induction fens as [|fen fens IH]; intros k.
  - rewrite lines_read_nil. reflexivity.
  - destruct k as [|k]; [exact (Nat.le_0_l _)|]. cbn [lines_read].
    rewrite !count_valid_cons.
    specialize (IH (if valid_fen fen then S k else k)). lia.
Qed.

(** With fewer short lines than workers every line is read. *)
Lemma lines_read_all (fens : list string) :
  forall k, length fens - count_valid fens < k -> lines_read fens k = fens.
Proof.
  induction fens as [|fen fens IH]; intros k Hk.
  - apply lines_read_nil.
  - destruct k as [|k]; [lia|]. cbn [lines_read].
    rewrite count_valid_cons in Hk. cbn [length] in Hk.
    pose proof (count_valid_le fens) as Hle.
    f_equal. apply IH. destruct (valid_fen fen); lia.
Qed.

(** What the final flush leaves in the sink. *)
Lemma finish_rescore_written (p : pool) :
  out p = true ->
  exists w', finish_rescore p = Returns w'
    /\ concat (written w') = concat (written (pool_world p)) ++ buffer p
    /\ cerr w' = cerr (pool_world p).
Proof.
  intros Hout. unfold finish_rescore. rewrite Hout.
  destruct (buffer p) as [|ps buf]; eexists; (split; [reflexivity|]); cbn.
  - rewrite app_nil_r. split; reflexivity.
  - rewrite concat_app. cbn. rewrite app_nil_r. split; reflexivity.
Qed.

(** C3, as the code has it.  [next_fen] reports the end exactly when no
    line is left or the next line has fewer than ten characters; the
    line is consumed either way, and only the calling worker returns.
    So with [k] workers the lines read are [lines_read fens k]: the file
    up to and including its [k]-th short line.  In every interleaving,
    once all workers have returned, the number of searches is the
    number of valid lines among the lines read; that is the number of
    all valid lines when the file has fewer short lines than there are
    workers.  The records in the sink after the final flush are at most
    as many as the searches.  The driver itself ends in such a state. *)
Theorem rescore_attempts (fens : list string) (k : nat) (w : World) :
  (forall l : list string,
     (next_fen l).1 = None
     <-> l = [] \/ exists fen rest, l = fen :: rest /\ String.length fen < 10)
  /\ (forall p' : pool,
        rtc (pool_step params) (initial_pool fens k true w) p' ->
        forallb is_finished (workers p') = true ->
        searches p' = count_valid (lines_read fens k)
        /\ exists (w' : World) (emitted : PSVector),
             finish_rescore p' = Returns w'
             /\ concat (written w') = concat (written w) ++ emitted
             /\ length emitted <= searches p')
  /\ (exists rest, fens = lines_read fens k ++ rest)
  /\ count_valid (lines_read fens k) <= count_valid fens
  /\ (length fens - count_valid fens < k ->
      count_valid (lines_read fens k) = count_valid fens)
  /\ (forall w0 : World,
        ifstream (RescoreFenParams.input_filename params) = Some fens ->
        create_new_sfen_output (RescoreFenParams.output_filename params) = true ->
        k = pool_size ->
        w = set_limits (mkLimits true true 0 0)
              (touch (CreateOutput (RescoreFenParams.output_filename params))
                 (touch (OpenInput (RescoreFenParams.input_filename params)) w0)) ->
        exists p' : pool,
          rtc (pool_step params) (initial_pool fens k true w) p'
          /\ forallb is_finished (workers p') = true
          /\ do_rescore_fen params w0 = Some (finish_rescore p')).
Proof.
  split; [exact next_fen_none|].
  assert (Hfinal : forall p' : pool,
            rtc (pool_step params) (initial_pool fens k true w) p' ->
            pool_inv fens k true w p').
  { intros p' Hrtc. eapply pool_inv_steps; [exact Hrtc | apply pool_inv_initial]. }
  split_and!.
  - intros p' Hrtc Hfin.
    destruct (Hfinal p' Hrtc) as (Hcount & Hout & Hnullout & Hcerr & Hbuf).
    assert (Hnull : null_deref p' = false).
    { destruct (null_deref p'); [|reflexivity].
      specialize (Hnullout eq_refl). congruence. }
    destruct (Hbuf Hnull) as (_ & emitted & Hem & Hle).
    unfold alive, searching in Hcount.
    rewrite (count_workers_finished _ _ eq_refl Hfin) in Hcount.
    rewrite (count_workers_finished (fun wk => negb (is_finished wk)) _ eq_refl Hfin)
      in Hcount.
    assert (Hread : lines_read (fens_file p') 0 = [])
      by (destruct (fens_file p'); reflexivity).
    rewrite Hread in Hcount. cbn in Hcount.
    split; [lia|].
    destruct (finish_rescore_written p' Hout) as (w' & Hfr & Hw' & _).
    exists w', emitted. split; [exact Hfr|]. split; [congruence | lia].
  - apply lines_read_prefix.
  - apply count_valid_lines_read_le.
  - intros Hfew. rewrite lines_read_all by exact Hfew. reflexivity.
  - intros w0 Hin Hsink -> ->.
    set (p0 := initial_pool fens pool_size true _) in *.
    destruct (execute_with_workers_spec params p0) as [Hrtc Hend].
    exists (execute_with_workers params p0).
    destruct (Hfinal _ Hrtc) as (_ & Hout & Hnullout & _).
    assert (Hnull : null_deref (execute_with_workers params p0) = false).
    { destruct (null_deref (execute_with_workers params p0)); [|reflexivity].
      specialize (Hnullout eq_refl). congruence. }
    assert (Hfin : forallb is_finished (workers (execute_with_workers params p0)) = true).
    { destruct Hend as [E|E]; [congruence | exact E]. }
    split; [exact Hrtc|]. split; [exact Hfin|].
    unfold do_rescore_fen. rewrite Hin, Hsink. cbn [default id]. fold p0.
    rewrite Hnull, Hfin. reflexivity.
Qed.

End RescoreAttempts.

(** ** The search-rescoring worker: one record per successful search *)

Section WorkerLoop.
Context `{Services}.
Variable params : RescoreFenParams.t.

Lemma append_emits (i : nat) (ps : PSV) (p : pool) :
  out p = true ->
  null_deref (append i ps p) = null_deref p
  /\ concat (written (pool_world (append i ps p))) ++ buffer (append i ps p)
     = concat (written (pool_world p)) ++ buffer p ++ [ps].
Proof.
  intros Hout. unfold append. rewrite Hout.
  destruct (Z.leb rescore_batch_size _); cbn.
  - split; [reflexivity|]. rewrite concat_app. cbn. rewrite !app_nil_r. reflexivity.
  - split; reflexivity.
Qed.

(** C7.  A worker that holds a line resets the draw counter and
    searches.  On an empty principal variation it produces nothing and
    goes back to [next_fen].  Otherwise it builds the record with the
    packed position, the search value as score (narrowed to 16 bits, so
    the value itself when it fits), the first move of the line, ply 1,
    result 0 and padding 0, and its next step appends exactly this
    record to the batch. *)
Theorem worker_search_step (i : nat) (p : pool) (fen : string) :
  null_deref p = false ->
  workers p !! i = Some (AtSearch fen) ->
  let pos := set_rule50 (set_from_fen fen) 0 in
  let search_value := (search pos (RescoreFenParams.depth params) 1).1 in
  let search_pv := (search pos (RescoreFenParams.depth params) 1).2 in
  exists p1 : pool,
    worker_step params i p = Some p1
    /\ searches p1 = S (searches p)
    /\ buffer p1 = buffer p
    /\ pool_world p1 = pool_world p
    /\ fens_file p1 = fens_file p
    /\ match search_pv with
       | [] => workers p1 = <[i := AtNextFen]> (workers p)
       | best :: _ =>
           exists ps : PSV,
             workers p1 = <[i := AtAppend ps]> (workers p)
             /\ sfen ps = sfen_pack pos
             /\ score ps = to_i16 search_value
             /\ (in_i16 search_value -> score ps = search_value)
             /\ move ps = best
             /\ gamePly ps = 1 /\ game_result ps = 0 /\ padding ps = 0
             /\ worker_step params i p1 = Some (append i ps p1)
             /\ (out p = true ->
                 concat (written (pool_world (append i ps p1)))
                   ++ buffer (append i ps p1)
                 = concat (written (pool_world p)) ++ buffer p ++ [ps])
       end.
Proof.
  intros Hnull Hw pos search_value search_pv.
  unfold worker_step at 1. rewrite Hnull, Hw.
  eexists. split; [reflexivity|].
  cbn [set_worker fens_file workers buffer num_processed out pool_world
       null_deref searches].
  split_and!; try reflexivity.
  unfold search_fen. fold pos.
  subst search_value search_pv.
  destruct (search pos (RescoreFenParams.depth params) 1) as [v [|best pv]];
    cbn [fst snd]; [reflexivity|].
  exists (rescored pos v best). cbn [rescored sfen score move gamePly game_result padding].
  split_and!; try reflexivity.
  - intros Hv. apply to_i16_id. exact Hv.
  - unfold worker_step.
    cbn [set_worker fens_file workers buffer num_processed out pool_world
         null_deref searches].
    rewrite Hnull, list_lookup_insert_eq by (eapply lookup_lt_Some; exact Hw).
    reflexivity.
  - intros Hout.
    match goal with |- context [append i ?ps ?q] =>
      destruct (append_emits i ps q Hout) as [_ Hem] end.
    exact Hem.
Qed.

End WorkerLoop.

Lemma worker_search_step_witness :
  let toy := Toy.services None (Some [Toy.startpos]) true 1 (fun t => t) in
  let p := @mkPool toy [] [@AtSearch toy Toy.startpos] [] 0 true
             (@empty_world toy) false 0 in
  exists p1 : @pool toy,
    @worker_step toy RescoreFenParams.default 0 p = Some p1
    /\ @workers toy p1
       = [@AtAppend toy (mkPSV Toy.startpos 168 56%nat 1 0 0)].
Proof.
  intros toy p.
  destruct (@worker_search_step toy RescoreFenParams.default 0%nat p Toy.startpos
              eq_refl eq_refl)
    as (p1 & Hstep & _ & _ & _ & _ & Hrec).
  exists p1. split; [exact Hstep|].
  cbv zeta in Hrec. cbn in Hrec.
  destruct Hrec as (ps & Hws & Hsfen & Hscore & _ & Hmove & Hply & Hres & Hpad & _).
  rewrite Hws. destruct ps as [s v m g r d]. cbn in *. subst. reflexivity.
Defined.

(** ** The search-rescoring driver on a file with a short line *)

(** The claim as the specification states it fails: the file below
    holds one valid line after a short one.  [next_fen] reports the end
    on the short line although a valid line follows; a pool of one
    worker then searches nothing, a pool of two searches once.  The
    number of searches is not a function of the file alone. *)
Lemma rescore_attempts_counterexample :
  let fens := ["8/8/8 w"; Toy.startpos] in
  let toy := fun k => Toy.services None (Some fens) true k (fun t => t) in
  let run := fun k =>
    @execute_with_workers (toy k) RescoreFenParams.default
      (@initial_pool (toy k) fens k true (@empty_world (toy k))) in
  count_valid fens = 1%nat
  /\ (next_fen fens).1 = None
  /\ @searches (toy 1%nat) (run 1%nat) = 0%nat
  /\ forallb (@is_finished (toy 1%nat)) (@workers (toy 1%nat) (run 1%nat)) = true
  /\ @searches (toy 2%nat) (run 2%nat) = 1%nat
  /\ forallb (@is_finished (toy 2%nat)) (@workers (toy 2%nat) (run 2%nat)) = true.
Proof. vm_compute. repeat split. Qed.

(** The theorem at this file: one worker reads the short line only. *)
Lemma rescore_attempts_witness :
  let fens := ["8/8/8 w"; Toy.startpos] in
  let toy := Toy.services None (Some fens) true 1 (fun t => t) in
  exists p' : @pool toy,
    @do_rescore_fen toy RescoreFenParams.default (@empty_world toy)
    = Some (@finish_rescore toy p')
    /\ @searches toy p' = 0%nat.
Proof.
  intros fens toy.
  destruct (@rescore_attempts toy RescoreFenParams.default fens 1%nat
              (@set_limits toy (mkLimits true true 0 0)
                 (@touch toy (CreateOutput "out.binpack")
                    (@touch toy (OpenInput "in.epd") (@empty_world toy)))))
    as (_ & Hall & _ & _ & _ & Hdrv).
  destruct (Hdrv (@empty_world toy) eq_refl eq_refl eq_refl eq_refl)
    as (p' & Hrtc & Hfin & Hrun).
  exists p'. split; [exact Hrun|].
  destruct (Hall p' Hrtc Hfin) as [Hs _]. exact Hs.
Defined.

(** ** Failure to open the source or the sink *)

Section OpenFailure.
Context `{Services}.

(** The static driver checks both handles: it reports on [std::cerr]
    and returns before it has read or written a record. *)
Lemma do_nudged_static_open_failure (params : NudgedStaticParams.t) (w : World) :
  open_sfen_input_file (NudgedStaticParams.input_filename params) = None
  \/ create_new_sfen_output (NudgedStaticParams.output_filename params) = false ->
  exists (w' : World) (diagnostic : string),
    do_nudged_static params w = Returns w'
    /\ cerr w' = cerr w ++ [Str diagnostic]
    /\ cout w' = cout w
    /\ written w' = written w.
Proof.
  intros Hfail. unfold do_nudged_static.
  destruct (open_sfen_input_file _) as [input|].
  - destruct Hfail as [Hin|Hout]; [discriminate|]. rewrite Hout.
    eexists _, _. cbn. split_and!; reflexivity.
  - eexists _, _. cbn. split_and!; reflexivity.
Qed.

End OpenFailure.

(** C2 at the search-rescoring driver.  The text file cannot be opened:
    the driver reports nothing on [std::cerr] and ends with "Finished.".
    The sink cannot be created and the file holds one position: the
    driver searches it and then writes through the null sink. *)
Theorem do_rescore_fen_unchecked :
  let no_source := Toy.services None None true 2 (fun t => t) in
  let no_sink := Toy.services None (Some [Toy.startpos]) false 2 (fun t => t) in
  @do_rescore_fen no_source RescoreFenParams.default (@empty_world no_source)
  = Some (Returns
            (@mkWorld no_source [Str ("Finished." +:+ LF)] []
               [OpenInput "in.epd"; CreateOutput "out.binpack"] [] 0
               (mkLimits true true 0 0)))
  /\ exists w' : @World no_sink,
       @do_rescore_fen no_sink RescoreFenParams.default (@empty_world no_sink)
       = Some (NullSink w')
       /\ @cerr no_sink w' = [].
Proof.
  intros no_source no_sink. split; [reflexivity|].
  eexists. split; reflexivity.
Qed.

(** ** The command dispatcher *)

Section Dispatch.
Context `{Services}.

(** C9.  The evaluator is initialised once, then the first token is
    looked up in the table.  A token that is neither [nudged_static] nor
    [rescore_fen] (also the empty token of an empty stream) is reported
    on [std::cout] and [transform] returns: no driver has run, no file
    has been opened or written.  The two names reach their commands with
    the rest of the stream. *)
Theorem transform_invalid_subcommand (ins : IStream.t) (w : World) :
  let subcommand := store EmptyString (IStream.get_string ins).1 in
  subcommand <> "nudged_static" ->
  subcommand <> "rescore_fen" ->
  exists w' : World,
    transform ins w = Some (Returns w')
    /\ cout w' = cout w ++ [Str "Invalid subcommand "; Str subcommand;
                            Str (". Exiting..." +:+ LF)]
    /\ cerr w' = cerr w
    /\ files w' = files w
    /\ written w' = written w
    /\ limits w' = limits w
    /\ nnue_inits w' = S (nnue_inits w).
Proof.
  intros subcommand Hn Hr. unfold transform.
  destruct (IStream.get_string ins) as [got ins'] eqn:Hg.
  cbn [fst] in subcommand. fold subcommand.
  unfold subcommands.
  rewrite lookup_insert_ne by (intros E; apply Hn; symmetry; exact E).
  rewrite lookup_insert_ne by (intros E; apply Hr; symmetry; exact E).
  rewrite lookup_empty.
  eexists. split; [reflexivity|]. cbn. split_and!; reflexivity.
Qed.

Lemma transform_dispatch (ins : IStream.t) (w : World) :
  let subcommand := store EmptyString (IStream.get_string ins).1 in
  let rest := (IStream.get_string ins).2 in
  (subcommand = "nudged_static" ->
   transform ins w = nudged_static rest (nnue_init w))
  /\ (subcommand = "rescore_fen" ->
      transform ins w = rescore_fen rest (nnue_init w)).
Proof.
  intros subcommand rest. unfold transform. subst subcommand rest.
  destruct (IStream.get_string ins) as [got ins']. cbn [fst snd].
  unfold subcommands. split; intros ->.
  - rewrite lookup_insert_eq. reflexivity.
  - rewrite lookup_insert_ne by discriminate. rewrite lookup_insert_eq. reflexivity.
Qed.

End Dispatch.

Lemma transform_invalid_subcommand_witness :
  let toy := Toy.services None None true 1 (fun t => t) in
  exists w' : @World toy,
    @transform toy (IStream.of_string "bogus depth 3") (@empty_world toy)
    = Some (Returns w')
    /\ @cout toy w' = [Str "Invalid subcommand "; Str "bogus";
                       Str (". Exiting..." +:+ LF)]
    /\ @files toy w' = []
    /\ @written toy w' = [].
Proof.
  intros toy.
  destruct (@transform_invalid_subcommand toy (IStream.of_string "bogus depth 3")
              (@empty_world toy))
    as (w' & Hrun & Hcout & _ & Hfiles & Hwritten & _).
  - cbn. discriminate.
  - cbn. discriminate.
  - exists w'. cbn in Hcout, Hfiles, Hwritten. split_and!; assumption.
Defined.

(** The parsers at a concrete stream: the keys that do not occur keep
    their defaults, the others take the values given. *)
Lemma parse_defaults_witness :
  let toy := Toy.services None None true 1 (fun t => t) in
  exists p : NudgedStaticParams.t,
    @nudged_static_params toy (IStream.of_string "input_file absolute.bin") = Some p
    /\ IStream.occurs "absolute" "input_file absolute.bin" = true
    /\ NudgedStaticParams.mode (NudgedStaticParams.enforce_constraints p) = Absolute
    /\ NudgedStaticParams.absolute_nudge (NudgedStaticParams.enforce_constraints p) = 5
    /\ NudgedStaticParams.relative_nudge (NudgedStaticParams.enforce_constraints p)
       = F32.one_tenth
    /\ NudgedStaticParams.output_filename (NudgedStaticParams.enforce_constraints p)
       = "out.binpack".
Proof.
  intros toy.
  destruct (@parse_defaults toy "input_file absolute.bin")
    as (p & q & Hp & _ & _ & Hm & Ha & Hr & _ & _ & Ho & _).
  assert (Hread : forall key : string,
            key <> "input_file" ->
            ~ In key (@nudged_static_tokens toy 24 (IStream.of_string "input_file absolute.bin"))).
  { intros key Hkey Hin. vm_compute in Hin. destruct Hin as [E|[]].
    apply Hkey. symmetry. exact E. }
  exists p. split; [exact Hp|]. split; [reflexivity|]. split_and!.
  - apply Hm; apply Hread; discriminate.
  - apply Ha. apply Hread. discriminate.
  - apply Hr. apply Hread. discriminate.
  - apply Ho. apply Hread. discriminate.
Defined.

(** The claim as it stands fails when being absent means not being
    one of the words of the stream: in [absolute 12relative 3] the
    words are [absolute], [12relative] and [3], the extraction of the
    cap stops after the digits, and the loop reads [relative] next.
    The run is in relative mode with the fraction 3. *)
Lemma parse_defaults_counterexample :
  let toy := Toy.services None None true 1 (fun t => t) in
  let s := "absolute 12relative 3" in
  words s = ["absolute"; "12relative"; "3"]
  /\ existsb (String.eqb "relative") (words s) = false
  /\ @nudged_static_tokens toy (S (String.length s)) (IStream.of_string s)
     = ["absolute"; "relative"]
  /\ @nudged_static_params toy (IStream.of_string s)
     = Some (NudgedStaticParams.mk "in.binpack" "out.binpack" Relative 12
               (F32.of_int 3) F32.one_tenth)
  /\ NudgedStaticParams.mode
       (NudgedStaticParams.enforce_constraints
          (NudgedStaticParams.mk "in.binpack" "out.binpack" Relative 12
             (F32.of_int 3) F32.one_tenth))
     = Relative.
Proof. vm_compute. repeat split. Qed.

(** ** binary32 arithmetic: digits, shifts and rounding

    The facts below follow the executable specification through
    [binary_round_aux]: the first shift to the target exponent, the
    rounding of the mantissa, and the second shift that repairs a
    mantissa of 25 bits. *)

Module F32Facts.
Import F32.

(** The number of binary digits of a non-negative integer. *)
Lemma digits2_pos_size (p : positive) : digits2_pos p = Pos.size p.
Proof. induction p as [p IH|p IH|]; simpl; congruence. Qed.

Lemma Zdigits2_log2 (m : Z) : 0 < m -> Zdigits2 m = Z.log2 m + 1.
Proof.
  destruct m as [|p|p]; try lia. intros _. simpl.
  rewrite digits2_pos_size. destruct p as [p|p|]; simpl; try lia.
Qed.

Lemma Zdigits2_nonneg (m : Z) : 0 <= Zdigits2 m.
Proof. destruct m; simpl; lia. Qed.

Lemma Zdigits2_pos (m : Z) : 0 < m -> 0 < Zdigits2 m.
Proof. destruct m; simpl; lia. Qed.

Lemma Zdigits2_lt_pow (m k : Z) : 0 <= k -> 0 <= m < 2 ^ k -> Zdigits2 m <= k.
Proof.
  intros Hk [H0 Hlt]. destruct (Z.eq_dec m 0) as [->|Hne]; [simpl; lia|].
  rewrite Zdigits2_log2 by lia.
  assert (Z.log2 m < k) by (apply Z.log2_lt_pow2; lia). lia.
Qed.

Lemma Zdigits2_ge_pow (m k : Z) : 0 <= k -> 2 ^ k <= m -> k + 1 <= Zdigits2 m.
Proof.
  intros Hk Hle. assert (0 < 2 ^ k) by (apply Z.pow_pos_nonneg; lia).
  rewrite Zdigits2_log2 by lia.
  assert (k <= Z.log2 m) by (apply Z.log2_le_pow2; lia). lia.
Qed.

Lemma Zdigits2_bounds (m : Z) :
  0 < m -> 2 ^ (Zdigits2 m - 1) <= m < 2 ^ Zdigits2 m.
Proof.
  intros Hm. rewrite Zdigits2_log2 by lia.
  replace (Z.log2 m + 1 - 1) with (Z.log2 m) by lia.
  pose proof (Z.log2_spec m Hm). unfold Z.succ in *. lia.
Qed.

Lemma Zdigits2_le (a b : Z) : 0 <= a <= b -> Zdigits2 a <= Zdigits2 b.
Proof.
  intros [Ha Hab]. destruct (Z.eq_dec a 0) as [->|Hne].
  - simpl. apply Zdigits2_nonneg.
  - rewrite !Zdigits2_log2 by lia.
    pose proof (Z.log2_le_mono a b Hab). lia.
Qed.

Lemma Zdigits2_div_pow (m n : Z) :
  0 <= m -> 0 <= n -> Zdigits2 (m / 2 ^ n) = Z.max (Zdigits2 m - n) 0.
Proof.
  intros Hm Hn. rewrite <- Z.shiftr_div_pow2 by lia.
  destruct (Z.eq_dec m 0) as [->|Hne].
  { rewrite Z.shiftr_0_l. simpl. lia. }
  destruct (Z.eq_dec (Z.shiftr m n) 0) as [E|E].
  - rewrite E. simpl. apply Z.shiftr_eq_0_iff in E as [E|[_ E]]; [lia|].
    rewrite Zdigits2_log2 by lia. lia.
  - assert (0 <= Z.shiftr m n) by (apply Z.shiftr_nonneg; lia).
    rewrite !Zdigits2_log2 by lia. rewrite Z.log2_shiftr by lia.
    assert (~ Z.log2 m < n).
    { intros Hlt. apply E. apply Z.shiftr_eq_0; lia. }
    lia.
Qed.

Lemma Zdigits2_succ (m : Z) : 0 <= m -> Zdigits2 (m + 1) <= Zdigits2 m + 1.
Proof.
  intros Hm. destruct (Z.eq_dec m 0) as [->|Hne]; [simpl; lia|].
  pose proof (Zdigits2_bounds m ltac:(lia)) as [_ Hlt].
  pose proof (Zdigits2_pos m ltac:(lia)).
  apply Zdigits2_lt_pow; [lia|]. split; [lia|].
  replace (Zdigits2 m + 1) with (Z.succ (Zdigits2 m)) by lia.
  rewrite Z.pow_succ_r by lia. lia.
Qed.

Lemma Zdigits2_mul (a b : Z) :
  0 < a -> 0 < b -> Zdigits2 (a * b) <= Zdigits2 a + Zdigits2 b.
Proof.
  intros Ha Hb. rewrite !Zdigits2_log2 by lia.
  pose proof (Z.log2_mul_above a b). lia.
Qed.

Lemma Zdigits2_mul_pow (m k : Z) :
  0 < m -> 0 <= k -> Zdigits2 (m * 2 ^ k) = Zdigits2 m + k.
Proof.
  intros Hm Hk. assert (0 < 2 ^ k) by (apply Z.pow_pos_nonneg; lia).
  rewrite !Zdigits2_log2 by lia. rewrite Z.log2_mul_pow2 by lia. lia.
Qed.

(** *** Shifting right *)

Lemma shr_1_m (mrs : shr_record) :
  0 <= shr_m mrs -> shr_m (shr_1 mrs) = shr_m mrs / 2.
Proof.
  destruct mrs as [m r s]. cbn [shr_m]. intros Hm.
  destruct m as [|[p|p|]|p]; cbn [shr_1 shr_m]; try lia.
  - reflexivity.
  - apply (Z.div_unique _ _ _ 1); lia.
  - apply (Z.div_unique _ _ _ 0); lia.
  - reflexivity.
Qed.

Lemma shr_iter_m (p : positive) :
  forall mrs : shr_record,
  0 <= shr_m mrs ->
  shr_m (SpecFloat.iter_pos shr_1 p mrs) = shr_m mrs / 2 ^ Zpos p.
Proof.
  assert (Hdiv : forall a b c, 0 < b -> 0 < c -> a / b / c = a / (b * c)).
  { intros a b c Hb Hc. apply Z.div_div; lia. }
  assert (Hnn : forall a b, 0 <= a -> 0 < b -> 0 <= a / b).
  { intros a b Ha Hb. apply Z.div_pos; lia. }
  induction p as [p IH|p IH|]; intros mrs Hm; cbn [SpecFloat.iter_pos].
  - assert (H2 : 0 < 2 ^ Zpos p) by (apply Z.pow_pos_nonneg; lia).
    assert (H1 : 0 <= shr_m (shr_1 mrs)) by (rewrite shr_1_m by lia; apply Hnn; lia).
    assert (H3 : 0 <= shr_m (SpecFloat.iter_pos shr_1 p (shr_1 mrs)))
      by (rewrite IH by lia; apply Hnn; lia).
    rewrite IH by lia. rewrite IH by lia. rewrite shr_1_m by lia.
    rewrite !Hdiv by lia. f_equal.
    assert (E : 2 ^ Zpos p~1 = 2 * (2 ^ Zpos p * 2 ^ Zpos p)).
    { rewrite <- Z.pow_add_r, <- Z.pow_succ_r by lia. f_equal. lia. }
    lia.
  - assert (H2 : 0 < 2 ^ Zpos p) by (apply Z.pow_pos_nonneg; lia).
    assert (H3 : 0 <= shr_m (SpecFloat.iter_pos shr_1 p mrs))
      by (rewrite IH by lia; apply Hnn; lia).
    rewrite IH by lia. rewrite IH by lia.
    rewrite !Hdiv by lia. f_equal.
    assert (E : 2 ^ Zpos p~0 = 2 ^ Zpos p * 2 ^ Zpos p).
    { rewrite <- Z.pow_add_r by lia. f_equal. lia. }
    lia.
  - rewrite shr_1_m by lia. reflexivity.
Qed.

Lemma shr_record_of_loc_m (m : Z) (l : location) : shr_m (shr_record_of_loc m l) = m.
Proof. destruct l as [|[| |]]; reflexivity. Qed.

Lemma shr_spec (mrs : shr_record) (e n : Z) :
  0 <= shr_m mrs ->
  shr_m (shr mrs e n).1 = shr_m mrs / 2 ^ Z.max n 0
  /\ (shr mrs e n).2 = e + Z.max n 0.
Proof.
  intros Hm. destruct n as [|p|p]; cbn [shr fst snd].
  - change (Z.max 0 0) with 0. rewrite Z.div_1_r. split; [reflexivity | lia].
  - rewrite shr_iter_m by lia.
    replace (Z.max (Zpos p) 0) with (Zpos p) by lia. split; reflexivity.
  - replace (Z.max (Zneg p) 0) with 0 by lia.
    rewrite Z.div_1_r. split; [reflexivity | lia].
Qed.

Lemma fexp_eq (e : Z) : fexp F32.prec F32.emax e = fexp32 e.
Proof. reflexivity. Qed.

Lemma shr_fexp_spec (m e : Z) (l : location) :
  0 <= m ->
  let n := Z.max (fexp32 (Zdigits2 m + e) - e) 0 in
  shr_m (shr_fexp F32.prec F32.emax m e l).1 = m / 2 ^ n
  /\ (shr_fexp F32.prec F32.emax m e l).2 = e + n.
Proof.
  intros Hm n. unfold shr_fexp. rewrite fexp_eq.
  pose proof (shr_spec (shr_record_of_loc m l) e (fexp32 (Zdigits2 m + e) - e)) as Hs.
  rewrite shr_record_of_loc_m in Hs. apply Hs. exact Hm.
Qed.

Lemma round_nearest_even_range (m : Z) (l : location) :
  m <= round_nearest_even m l <= m + 1.
Proof.
  destruct l as [|[| |]]; simpl; try lia. destruct (Z.even m); lia.
Qed.

(** *** [binary_round_aux], unfolded *)

Lemma binary_round_aux_unfold (sx : bool) (mx ex : Z) (lx : location) :
  0 <= mx ->
  let n1 := Z.max (fexp32 (Zdigits2 mx + ex) - ex) 0 in
  let m1 := mx / 2 ^ n1 in
  let e1 := ex + n1 in
  exists mr : Z,
    m1 <= mr <= m1 + 1
    /\ let n2 := Z.max (fexp32 (Zdigits2 mr + e1) - e1) 0 in
       binary_round_aux F32.prec F32.emax sx mx ex lx
       = pack sx (mr / 2 ^ n2) (e1 + n2).
Proof.
  intros Hmx n1 m1 e1. unfold binary_round_aux.
  destruct (shr_fexp_spec mx ex lx Hmx) as [Hm1 He1].
  destruct (shr_fexp F32.prec F32.emax mx ex lx) as [mrs' e'].
  cbn [fst snd] in Hm1, He1. fold n1 in Hm1, He1. fold m1 in Hm1. fold e1 in He1.
  set (mr := round_nearest_even (shr_m mrs') (loc_of_shr_record mrs')).
  pose proof (round_nearest_even_range (shr_m mrs') (loc_of_shr_record mrs')) as Hr.
  fold mr in Hr. rewrite Hm1 in Hr.
  assert (H1 : 0 <= m1).
  { unfold m1. apply Z.div_pos; [lia|]. apply Z.pow_pos_nonneg; lia. }
  exists mr. split; [exact Hr|]. cbv zeta.
  destruct (shr_fexp_spec mr e' loc_Exact ltac:(lia)) as [Hm2 He2].
  destruct (shr_fexp F32.prec F32.emax mr e' loc_Exact) as [mrs'' e''].
  cbn [fst snd] in Hm2, He2. subst e'. rewrite Hm2, He2.
  unfold pack. reflexivity.
Qed.


(** Every result has a mantissa of at most 24 bits, and its exponent is
    at most one above the larger of the exponent given and the exponent
    of the format at that magnitude. *)
Lemma binary_round_aux_bound (sx : bool) (mx ex : Z) (lx : location) :
  0 <= mx ->
  exists m2 e2 : Z,
    binary_round_aux prec emax sx mx ex lx = pack sx m2 e2
    /\ 0 <= m2
    /\ Zdigits2 m2 <= 24
    /\ e2 <= Z.max ex (fexp32 (Zdigits2 mx + ex)) + 1.
Proof.
  intros Hmx.
  destruct (binary_round_aux_unfold sx mx ex lx Hmx) as (mr & Hr & Heq).
  cbv zeta in *.
  set (D := Zdigits2 mx + ex) in *.
  set (n1 := Z.max (fexp32 D - ex) 0) in *.
  set (m1 := mx / 2 ^ n1) in *.
  set (e1 := ex + n1) in *.
  set (n2 := Z.max (fexp32 (Zdigits2 mr + e1) - e1) 0) in *.
  assert (Hn1 : 0 <= n1) by (unfold n1; lia).
  assert (Hn2 : 0 <= n2) by (unfold n2; lia).
  assert (H1 : 0 <= m1).
  { unfold m1. apply Z.div_pos; [lia|]. apply Z.pow_pos_nonneg; lia. }
  assert (Hd1 : Zdigits2 m1 = Z.max (Zdigits2 mx - n1) 0)
    by (apply Zdigits2_div_pow; lia).
  assert (Hdr : Zdigits2 mr <= Zdigits2 m1 + 1).
  { etransitivity; [apply (Zdigits2_le mr (m1 + 1)); lia|].
    apply Zdigits2_succ; lia. }
  assert (Hd2 : Zdigits2 (mr / 2 ^ n2) = Z.max (Zdigits2 mr - n2) 0)
    by (apply Zdigits2_div_pow; lia).
  exists (mr / 2 ^ n2), (e1 + n2). split; [exact Heq|].
  split; [apply Z.div_pos; [lia | apply Z.pow_pos_nonneg; lia]|].
  pose proof (Zdigits2_nonneg mx). pose proof (Zdigits2_nonneg mr).
  unfold fexp32 in *. split; lia.
Qed.

(** *** Alignment and [binary_round] *)

Lemma iter_xO (m d : positive) : Zpos (Pos.iter xO m d) = Zpos m * 2 ^ Zpos d.
Proof.
  induction d as [|d IH] using Pos.peano_ind.
  - simpl. lia.
  - rewrite Pos.iter_succ, Pos2Z.inj_xO, IH, Pos2Z.inj_succ.
    rewrite Z.pow_succ_r by lia. lia.
Qed.

Lemma shl_align_spec (mx : positive) (ex ex' : Z) :
  let '(mz, ez) := shl_align mx ex ex' in
  ez = Z.min ex ex' /\ Zpos mz = Zpos mx * 2 ^ (ex - ez).
Proof.
  unfold shl_align. destruct (ex' - ex) as [|d|d] eqn:Hd.
  - split; [lia|]. replace (ex - ex) with 0 by lia. lia.
  - split; [lia|]. replace (ex - ex) with 0 by lia. lia.
  - split; [lia|]. rewrite iter_xO. f_equal. f_equal. lia.
Qed.

(** After the alignment the first shift is exact to the exponent of the
    format: the result lies at that exponent, or one above with the
    mantissa [2^23]; in the normal range the mantissa has 24 bits. *)
Lemma binary_round_bound (sx : bool) (p : positive) (e : Z) :
  let D := Zdigits2 (Zpos p) + e in
  exists m2 e2 : Z,
    binary_round prec emax sx p e = pack sx m2 e2
    /\ 0 <= m2
    /\ Zdigits2 m2 <= 24
    /\ (e2 = fexp32 D \/ (e2 = fexp32 D + 1 /\ m2 = 2 ^ 23))
    /\ (-125 <= D -> Zdigits2 m2 = 24).
Proof.
  intros D. unfold binary_round. rewrite fexp_eq.
  pose proof (shl_align_spec p e (fexp32 (Zpos (digits2_pos p) + e))) as Hal.
  destruct (shl_align p e (fexp32 (Zpos (digits2_pos p) + e))) as [mz ez].
  destruct Hal as [Hez Hmz].
  change (Zpos (digits2_pos p)) with (Zdigits2 (Zpos p)) in Hez. fold D in Hez.
  assert (Hsh : 0 <= e - ez) by lia.
  assert (HDz : Zdigits2 (Zpos mz) + ez = D).
  { rewrite Hmz, Zdigits2_mul_pow by lia. unfold D. lia. }
  destruct (binary_round_aux_unfold sx (Zpos mz) ez loc_Exact ltac:(lia))
    as (mr & Hr & Heq).
  cbv zeta in *. rewrite HDz in *.
  set (n1 := Z.max (fexp32 D - ez) 0) in *.
  set (m1 := Zpos mz / 2 ^ n1) in *.
  set (e1 := ez + n1) in *.
  set (n2 := Z.max (fexp32 (Zdigits2 mr + e1) - e1) 0) in *.
  assert (He1 : e1 = fexp32 D) by (unfold e1, n1; lia).
  assert (Hn1 : 0 <= n1) by (unfold n1; lia).
  assert (Hn2 : 0 <= n2) by (unfold n2; lia).
  assert (H1 : 0 <= m1).
  { unfold m1. apply Z.div_pos; [lia|]. apply Z.pow_pos_nonneg; lia. }
  assert (Hd1 : Zdigits2 m1 = Z.max (D - e1) 0).
  { unfold m1. rewrite Zdigits2_div_pow by lia. unfold e1. lia. }
  assert (Hd1' : Zdigits2 m1 <= 24) by (rewrite Hd1, He1; unfold fexp32; lia).
  assert (Hm1 : m1 < 2 ^ 24).
  { destruct (Z.eq_dec m1 0) as [->|Hne]; [reflexivity|].
    pose proof (Zdigits2_bounds m1 ltac:(lia)) as [_ Hlt].
    eapply Z.lt_le_trans; [exact Hlt|]. apply Z.pow_le_mono_r; lia. }
  assert (Hdr : Zdigits2 mr <= 25).
  { apply Zdigits2_lt_pow; [lia|]. change (2 ^ 25) with (2 * 2 ^ 24). lia. }
  assert (Hd2 : Zdigits2 (mr / 2 ^ n2) = Z.max (Zdigits2 mr - n2) 0)
    by (apply Zdigits2_div_pow; lia).
  pose proof (Zdigits2_nonneg mr) as Hdr0.
  exists (mr / 2 ^ n2), (e1 + n2). split; [exact Heq|].
  split; [apply Z.div_pos; [lia | apply Z.pow_pos_nonneg; lia]|].
  split; [unfold n2, fexp32 in *; lia|].
  split.
  - destruct (Z.eq_dec n2 0) as [Hz|Hnz]; [left; lia|]. right.
    assert (Hn21 : n2 = 1) by (unfold n2, fexp32 in *; lia).
    assert (Hr25 : Zdigits2 mr = 25) by (unfold n2, fexp32 in *; lia).
    assert (Hmr : mr = 2 ^ 24).
    { assert (2 ^ 24 <= mr); [|lia].
      assert (0 < mr) by (destruct mr; simpl in Hr25; lia).
      pose proof (Zdigits2_bounds mr ltac:(lia)) as [Hge _].
      rewrite Hr25 in Hge. exact Hge. }
    split; [lia|]. rewrite Hmr, Hn21. reflexivity.
  - intros HD.
    assert (Hd24 : Zdigits2 m1 = 24) by (rewrite Hd1, He1; unfold fexp32; lia).
    assert (Hm1pos : 0 < m1) by (destruct m1; simpl in Hd24; lia).
    assert (Hdr24 : 24 <= Zdigits2 mr).
    { rewrite <- Hd24. apply Zdigits2_le. lia. }
    rewrite Hd2. unfold n2, fexp32 in *. lia.
Qed.

(** *** Magnitudes of the results *)

Lemma fits_le (x : float32) (E E' : Z) : fits x E -> E <= E' -> fits x E'.
Proof. destruct x; simpl; try tauto. lia. Qed.

Lemma pack_fits (sx : bool) (m e E : Z) :
  0 <= m -> Zdigits2 m <= 24 -> e <= E -> E <= 104 -> fits (pack sx m e) E.
Proof.
  intros Hm Hd He HE. unfold pack. destruct m as [|p|p]; [exact I| |lia].
  destruct (Z.leb_spec e 104); [|lia]. simpl. split; [exact Hd | exact He].
Qed.

Lemma fexp32_mono (a b : Z) : a <= b -> fexp32 a <= fexp32 b.
Proof. unfold fexp32. lia. Qed.

Lemma mul_fits (x y : float32) (Ex Ey : Z) :
  fits x Ex -> fits y Ey ->
  Z.max (Ex + Ey + 24) (-149) + 1 <= 104 ->
  fits (mul x y) (Z.max (Ex + Ey + 24) (-149) + 1).
Proof.
  intros Hx Hy HE.
  destruct x as [sx|sx| |sx mx ex]; try contradiction;
    destruct y as [sy|sy| |sy my ey]; try contradiction; try exact I.
  destruct Hx as [Hdx Hex], Hy as [Hdy Hey]. unfold mul, SFmul.
  destruct (binary_round_aux_bound (xorb sx sy) (Zpos (mx * my)) (ex + ey) loc_Exact
              ltac:(lia)) as (m2 & e2 & Heq & Hm2 & Hd2 & He2).
  rewrite Heq. apply pack_fits; try assumption.
  pose proof (Zdigits2_mul (Zpos mx) (Zpos my) ltac:(lia) ltac:(lia)) as Hd.
  rewrite <- Pos2Z.inj_mul in Hd.
  unfold fexp32 in *. lia.
Qed.

(** The sum of two aligned mantissas. *)
Lemma Zdigits2_sum (a b : Z) (k : Z) :
  0 <= k -> 0 <= a -> Zdigits2 a <= k -> 0 <= b -> Zdigits2 b <= k ->
  forall c, 0 <= c <= a + b -> Zdigits2 c <= k + 1.
Proof.
  intros Hk Ha Hda Hb Hdb c Hc.
  assert (Hlt : forall z, 0 <= z -> Zdigits2 z <= k -> z < 2 ^ k).
  { intros z Hz Hdz. destruct (Z.eq_dec z 0) as [->|Hne].
    - apply Z.pow_pos_nonneg; lia.
    - pose proof (Zdigits2_bounds z ltac:(lia)) as [_ Hu].
      eapply Z.lt_le_trans; [exact Hu|]. apply Z.pow_le_mono_r; lia. }
  pose proof (Hlt a Ha Hda). pose proof (Hlt b Hb Hdb).
  apply Zdigits2_lt_pow; [lia|].
  replace (k + 1) with (Z.succ k) by lia. rewrite Z.pow_succ_r by lia. lia.
Qed.

Lemma binary_normalize_fits (m e : Z) (szero : bool) (K E : Z) :
  Zdigits2 (Z.abs m) + e <= K ->
  fexp32 K + 1 <= E -> E <= 104 ->
  fits (binary_normalize prec emax m e szero) E.
Proof.
  intros HK HE HE'. unfold binary_normalize.
  destruct m as [|p|p]; [exact I| |].
  - destruct (binary_round_bound false p e) as (m2 & e2 & Heq & Hm2 & Hd2 & He2 & _).
    rewrite Heq. cbv zeta in He2. change (Z.abs (Zpos p)) with (Zpos p) in HK.
    pose proof (fexp32_mono _ _ HK).
    apply pack_fits; try assumption. lia.
  - destruct (binary_round_bound true p e) as (m2 & e2 & Heq & Hm2 & Hd2 & He2 & _).
    rewrite Heq. cbv zeta in He2. change (Z.abs (Zneg p)) with (Zpos p) in HK.
    pose proof (fexp32_mono _ _ HK).
    apply pack_fits; try assumption. lia.
Qed.

Lemma aligned_digits (mx my : positive) (ex ey : Z) (sx sy : bool) (Ex Ey : Z)
    (op : Z -> Z -> Z) :
  (forall a b, Z.abs (op a b) <= Z.abs a + Z.abs b) ->
  Zdigits2 (Zpos mx) <= 24 -> ex <= Ex ->
  Zdigits2 (Zpos my) <= 24 -> ey <= Ey ->
  let ez := Z.min ex ey in
  Zdigits2 (Z.abs (op (cond_Zopp sx (Zpos (shl_align mx ex ez).1))
                      (cond_Zopp sy (Zpos (shl_align my ey ez).1))))
    + ez <= 24 + Z.max Ex Ey + 1.
Proof.
  intros Hop Hdx Hex Hdy Hey ez.
  pose proof (shl_align_spec mx ex ez) as Hax.
  pose proof (shl_align_spec my ey ez) as Hay.
  destruct (shl_align mx ex ez) as [mx' ex'], (shl_align my ey ez) as [my' ey'].
  destruct Hax as [Hex' Hmx'], Hay as [Hey' Hmy']. cbn [fst].
  assert (Hsx : 0 <= ex - ez) by (unfold ez; lia).
  assert (Hsy : 0 <= ey - ez) by (unfold ez; lia).
  replace ex' with ez in Hmx' by lia. replace ey' with ez in Hmy' by lia.
  clear Hex' Hey' ex' ey'.
  assert (Hdx' : Zdigits2 (Zpos mx') = Zdigits2 (Zpos mx) + (ex - ez))
    by (rewrite Hmx'; apply Zdigits2_mul_pow; lia).
  assert (Hdy' : Zdigits2 (Zpos my') = Zdigits2 (Zpos my) + (ey - ez))
    by (rewrite Hmy'; apply Zdigits2_mul_pow; lia).
  set (c := Z.abs (op _ _)).
  assert (Hc : 0 <= c <= Zpos mx' + Zpos my').
  { unfold c. split; [apply Z.abs_nonneg|].
    etransitivity; [apply Hop|]. destruct sx, sy; simpl; lia. }
  pose proof (Zdigits2_pos (Zpos mx) ltac:(lia)).
  pose proof (Zdigits2_pos (Zpos my) ltac:(lia)).
  pose proof (Zdigits2_sum (Zpos mx') (Zpos my') (24 + Z.max Ex Ey - ez)
                ltac:(lia) ltac:(lia) ltac:(lia) ltac:(lia) ltac:(lia) c Hc).
  lia.
Qed.

Lemma add_fits (x y : float32) (Ex Ey : Z) :
  fits x Ex -> fits y Ey ->
  Z.max (Z.max Ex Ey + 1) (-149) + 1 <= 104 ->
  fits (add x y) (Z.max (Z.max Ex Ey + 1) (-149) + 1).
Proof.
  intros Hx Hy HE.
  destruct x as [sx|sx| |sx mx ex]; try contradiction;
    destruct y as [sy|sy| |sy my ey]; try contradiction.
  - unfold add, SFadd. destruct sx, sy; exact I.
  - eapply fits_le; [exact Hy | lia].
  - eapply fits_le; [exact Hx | lia].
  - destruct Hx as [Hdx Hex], Hy as [Hdy Hey]. unfold add, SFadd.
    apply (binary_normalize_fits _ _ _ (24 + Z.max Ex Ey + 1)); [|unfold fexp32; lia|lia].
    apply (aligned_digits mx my ex ey sx sy Ex Ey Z.add); auto. intros; lia.
Qed.

Lemma sub_fits (x y : float32) (Ex Ey : Z) :
  fits x Ex -> fits y Ey ->
  Z.max (Z.max Ex Ey + 1) (-149) + 1 <= 104 ->
  fits (sub x y) (Z.max (Z.max Ex Ey + 1) (-149) + 1).
Proof.
  intros Hx Hy HE.
  destruct x as [sx|sx| |sx mx ex]; try contradiction;
    destruct y as [sy|sy| |sy my ey]; try contradiction.
  - unfold sub, SFsub. destruct sx, sy; exact I.
  - unfold sub, SFsub. simpl in *. lia.
  - eapply fits_le; [exact Hx | lia].
  - destruct Hx as [Hdx Hex], Hy as [Hdy Hey]. unfold sub, SFsub.
    apply (binary_normalize_fits _ _ _ (24 + Z.max Ex Ey + 1)); [|unfold fexp32; lia|lia].
    apply (aligned_digits mx my ex ey sx sy Ex Ey Z.sub); auto. intros; lia.
Qed.

(** The quotient has about as many digits as the dividend has more
    than the divisor. *)
Lemma div_fits (x : float32) (sy : bool) (my : positive) (ey : Z) (Ex : Z) :
  fits x Ex ->
  let A := 24 + Ex - (Zdigits2 (Zpos my) + ey) in
  fexp32 (A + 1) + 1 <= 104 ->
  fits (div x (S754_finite sy my ey)) (fexp32 (A + 1) + 1).
Proof.
  intros Hx A HE.
  destruct x as [sx|sx| |sx mx ex]; try contradiction; [exact I|].
  destruct Hx as [Hdx Hex]. unfold div, SFdiv, SFdiv_core_binary.
  rewrite fexp_eq.
  set (d1 := Zdigits2 (Zpos mx)) in *. set (d2 := Zdigits2 (Zpos my)) in *.
  set (e' := Z.min (fexp32 (d1 + ex - (d2 + ey))) (ex - ey)).
  set (s := ex - ey - e').
  set (m' := match s with Zpos _ => Z.shiftl (Zpos mx) s | Z0 => Zpos mx | Zneg _ => 0 end).
  assert (Hs : 0 <= s) by (unfold s, e'; lia).
  assert (Hm' : m' = Zpos mx * 2 ^ s).
  { unfold m'. destruct s as [|ps|ps]; [lia| |lia].
    rewrite Z.shiftl_mul_pow2 by lia. reflexivity. }
  assert (Hq : Z.div_eucl m' (Zpos my) = (m' / Zpos my, m' mod Zpos my)).
  { unfold Z.div, Z.modulo. destruct (Z.div_eucl m' (Zpos my)). reflexivity. }
  rewrite Hq.
  set (q := m' / Zpos my).
  assert (Hd1 : 0 < d1) by (apply Zdigits2_pos; lia).
  assert (Hd2 : 0 < d2) by (apply Zdigits2_pos; lia).
  assert (Hm'pos : 0 < m').
  { rewrite Hm'. apply Z.mul_pos_pos; [lia|]. apply Z.pow_pos_nonneg; lia. }
  assert (Hq0 : 0 <= q) by (apply Z.div_pos; lia).
  assert (Hdq : Zdigits2 q <= Z.max (d1 + s - (d2 - 1)) 0).
  { assert (Hle : q <= m' / 2 ^ (d2 - 1)).
    { apply Z.div_le_compat_l; [lia|].
      split; [apply Z.pow_pos_nonneg; lia|].
      apply (Zdigits2_bounds (Zpos my)). lia. }
    etransitivity;
      [apply (Zdigits2_le q (m' / 2 ^ (d2 - 1))); split; [exact Hq0 | exact Hle]|].
    rewrite Zdigits2_div_pow by lia.
    rewrite Hm', Zdigits2_mul_pow by lia. fold d1. lia. }
  destruct (binary_round_aux_bound (xorb sx sy) q e' (new_location (Zpos my) (m' mod Zpos my))
              Hq0) as (m2 & e2 & Heq & Hm2 & Hdm2 & He2).
  rewrite Heq. apply pack_fits; try assumption.
  pose proof (Zdigits2_nonneg q) as Hq1.
  assert (He'1 : e' <= fexp32 (A + 1)).
  { unfold e'. etransitivity; [apply Z.le_min_l|].
    apply fexp32_mono. unfold A. lia. }
  assert (He'2 : -149 <= fexp32 (A + 1)) by (unfold fexp32; lia).
  assert (HD : Zdigits2 q + e' <= Z.max (A + 1) e').
  { unfold A, s in *. lia. }
  assert (Hf : fexp32 (Zdigits2 q + e') <= fexp32 (A + 1)).
  { etransitivity; [apply fexp32_mono; exact HD|].
    clear - He'1 He'2. unfold fexp32 in *. lia. }
  lia.
Qed.

(** *** Conversion to [int] *)

Lemma int_representable_fits (x : float32) (E : Z) :
  fits x E -> 24 + E <= 31 -> int_representable x = true.
Proof.
  intros Hx HE. unfold int_representable.
  destruct x as [sx|sx| |sx m e]; try contradiction; [reflexivity|].
  destruct Hx as [Hd He]. cbn [trunc].
  set (a := match e with Zneg p => Z.shiftr (Zpos m) (Zpos p) | _ => Z.shiftl (Zpos m) e end).
  assert (Hm : Zpos m < 2 ^ 24).
  { pose proof (Zdigits2_bounds (Zpos m) ltac:(lia)) as [_ Hu].
    eapply Z.lt_le_trans; [exact Hu|]. apply Z.pow_le_mono_r; lia. }
  assert (Ha : 0 <= a < 2 ^ 31).
  { unfold a. destruct e as [|pe|pe].
    - rewrite Z.shiftl_0_r. change (2 ^ 31) with (2 ^ 24 * 128). lia.
    - rewrite Z.shiftl_mul_pow2 by lia.
      assert (0 < 2 ^ Zpos pe) by (apply Z.pow_pos_nonneg; lia).
      split; [lia|].
      assert (2 ^ Zpos pe <= 2 ^ 7) by (apply Z.pow_le_mono_r; lia).
      change (2 ^ 31) with (2 ^ 24 * 2 ^ 7). nia.
    - rewrite Z.shiftr_div_pow2 by lia.
      assert (0 < 2 ^ Zpos pe) by (apply Z.pow_pos_nonneg; lia).
      split; [apply Z.div_pos; lia|].
      assert (Zpos m / 2 ^ Zpos pe <= Zpos m); [|change (2 ^ 31) with (2 ^ 24 * 128); lia].
      apply Z.div_le_upper_bound; [lia|]. nia. }
  change (2 ^ 31) with 2147483648 in Ha. unfold int_min, int_max.
  destruct sx; apply andb_true_iff; split; apply Z.leb_le; lia.
Qed.

Lemma to_int_representable (x : float32) :
  int_representable x = true ->
  exists z : Z, trunc x = Some z /\ in_int z /\ to_int x = z.
Proof.
  unfold int_representable, to_int. destruct (trunc x) as [z|]; [|discriminate].
  intros Hr. rewrite Hr. exists z. split; [reflexivity|]. split; [|reflexivity].
  apply andb_true_iff in Hr as [H1 H2].
  apply Z.leb_le in H1. apply Z.leb_le in H2. split; assumption.
Qed.

(** *** Comparison *)

Lemma compare_antisym (x y : float32) (c : comparison) :
  SFcompare x y = Some c -> SFcompare y x = Some (CompOpp c).
Proof.
  destruct x as [sx|sx| |sx mx ex], y as [sy|sy| |sy my ey];
    try destruct sx; try destruct sy; cbn [SFcompare];
    intros E; inversion E; subst; try reflexivity;
    change (Pos.compare_cont Eq mx my) with (Pos.compare mx my);
    change (Pos.compare_cont Eq my mx) with (Pos.compare my mx);
    destruct (Z.compare_spec ex ey), (Z.compare_spec ey ex); try lia;
    cbn [CompOpp]; try reflexivity;
    destruct (Pos.compare_spec mx my), (Pos.compare_spec my mx); try lia;
    reflexivity.
Qed.

Lemma compare_refl (x : float32) : is_nan x = false -> SFcompare x x = Some Eq.
Proof.
  destruct x as [sx|sx| |sx mx ex]; try destruct sx; cbn [SFcompare is_nan];
    intros E; try discriminate; try reflexivity;
    rewrite Z.compare_refl, Pos.compare_cont_refl; reflexivity.
Qed.

Lemma compare_some (x y : float32) :
  is_nan x = false -> is_nan y = false -> exists c, SFcompare x y = Some c.
Proof.
  destruct x as [sx|sx| |sx mx ex], y as [sy|sy| |sy my ey];
    cbn [is_nan SFcompare]; intros Hx Hy; try discriminate; eauto.
Qed.

Lemma leb_refl (x : float32) : is_nan x = false -> leb x x = true.
Proof. intros Hx. unfold leb, SFleb. rewrite (compare_refl x Hx). reflexivity. Qed.

Lemma leb_not_nan (x y : float32) :
  leb x y = true -> is_nan x = false /\ is_nan y = false.
Proof.
  unfold leb, SFleb.
  destruct x as [sx|sx| |sx mx ex], y as [sy|sy| |sy my ey];
    cbn [SFcompare is_nan]; intros E; try discriminate; split; reflexivity.
Qed.

(** [!(x < y)] gives [y <= x] when neither is a NaN. *)
Lemma leb_of_not_ltb (x y : float32) :
  is_nan x = false -> is_nan y = false -> ltb x y = false -> leb y x = true.
Proof.
  intros Hx Hy. unfold ltb, leb, SFltb, SFleb.
  destruct (compare_some x y Hx Hy) as [c Hc]. rewrite Hc.
  rewrite (compare_antisym x y c Hc). destruct c; cbn; congruence.
Qed.

(** Two positive finite numbers compare by exponent, then mantissa. *)
Lemma leb_finite_pos (m1 m2 : positive) (e1 e2 : Z) :
  leb (S754_finite false m1 e1) (S754_finite false m2 e2) = true
  <-> e1 < e2 \/ (e1 = e2 /\ Zpos m1 <= Zpos m2).
Proof.
  unfold leb, SFleb. cbn [SFcompare].
  change (Pos.compare_cont Eq m1 m2) with (Pos.compare m1 m2).
  destruct (Z.compare_spec e1 e2) as [He|He|He].
  - destruct (Pos.compare_spec m1 m2) as [Hm|Hm|Hm]; split; intros E;
      try discriminate E; try reflexivity; try lia;
      right; (split; [exact He | lia]).
  - split; [intros _; left; exact He | reflexivity].
  - split; [discriminate | lia].
Qed.

(** What it is to be at most, and at least, [1.0f]. *)
Lemma leb_one_inv (x : float32) :
  leb x one = true ->
  match x with
  | S754_zero _ => True
  | S754_infinity s => s = true
  | S754_nan => False
  | S754_finite s m e =>
      s = true \/ e < -23 \/ (e = -23 /\ Zpos m <= 8388608)
  end.
Proof.
  unfold one. destruct x as [sx|sx| |sx mx ex].
  - intros _. exact I.
  - destruct sx; [reflexivity | discriminate].
  - discriminate.
  - destruct sx; [intros _; left; reflexivity|].
    intros E. right. apply leb_finite_pos in E. exact E.
Qed.

Lemma leb_one_intro (m : positive) (e : Z) :
  e < -23 \/ (e = -23 /\ Zpos m <= 8388608) ->
  leb (S754_finite false m e) one = true.
Proof. intros He. unfold one. apply leb_finite_pos. exact He. Qed.

Lemma one_leb_inv (x : float32) :
  leb one x = true ->
  match x with
  | S754_infinity s => s = false
  | S754_finite s m e =>
      s = false /\ (-23 < e \/ (e = -23 /\ 8388608 <= Zpos m))
  | _ => False
  end.
Proof.
  unfold one. destruct x as [sx|sx| |sx mx ex].
  - destruct sx; discriminate.
  - destruct sx; [discriminate | reflexivity].
  - discriminate.
  - destruct sx; [discriminate|].
    intros E. split; [reflexivity|]. apply leb_finite_pos in E.
    destruct E as [E|[E1 E2]]; [left; exact E | right; split; [symmetry|]; assumption].
Qed.

Lemma one_leb_intro (m : positive) (e : Z) :
  -23 < e \/ (e = -23 /\ 8388608 <= Zpos m) ->
  leb one (S754_finite false m e) = true.
Proof.
  intros He. unfold one. apply leb_finite_pos.
  destruct He as [He|[E1 E2]]; [left; exact He | right; split; [symmetry|]; assumption].
Qed.

Lemma leb_through_one (lo hi : float32) :
  leb lo one = true -> leb one hi = true -> leb lo hi = true.
Proof.
  intros Hlo Hhi. apply leb_one_inv in Hlo. apply one_leb_inv in Hhi.
  unfold leb, SFleb.
  destruct lo as [sl|sl| |sl ml el], hi as [sh|sh| |sh mh eh];
    try contradiction;
    repeat match goal with
           | H : _ /\ _ |- _ => destruct H
           | H : ?s = true |- _ => subst s
           | H : ?s = false |- _ => subst s
           end;
    cbn [SFcompare]; try reflexivity.
  destruct sl; [reflexivity|].
  destruct Hlo as [Hl|Hl]; [discriminate|].
  destruct (Z.compare_spec el eh) as [E|E|E]; try reflexivity; [|lia].
  change (Pos.compare_cont Eq ml mh) with (Pos.compare ml mh).
  destruct (Pos.compare_spec ml mh); try reflexivity. lia.
Qed.

(** *** The bounds [1.0f - F] and [1.0f + F] for [F >= 0] *)

Lemma zero_leb_inv (F : float32) :
  leb zero F = true ->
  match F with
  | S754_zero _ => True
  | S754_infinity s => s = false
  | S754_nan => False
  | S754_finite s _ _ => s = false
  end.
Proof.
  unfold leb, SFleb, zero. destruct F as [s|s| |s m e]; cbn [SFcompare];
    try destruct s; intros E; try discriminate; auto.
Qed.

Lemma one_aligned (ez : Z) :
  ez <= -23 -> Zpos (shl_align 8388608 (-23) ez).1 = 2 ^ (- ez).
Proof.
  intros Hez. pose proof (shl_align_spec 8388608 (-23) ez) as Hal.
  destruct (shl_align 8388608 (-23) ez) as [m1 e1]. destruct Hal as [He1 Hm1].
  cbn [fst]. rewrite Hm1. replace e1 with ez by lia.
  change 8388608 with (2 ^ 23). rewrite <- Z.pow_add_r by lia. f_equal. lia.
Qed.

Lemma pack_wide (sx : bool) (m e : Z) :
  0 <= m -> Zdigits2 m <= 24 -> wide (pack sx m e).
Proof.
  intros Hm Hd. unfold pack. destruct m as [|p|p]; [exact I| |lia].
  destruct (e <=? 104); [exact Hd | exact I].
Qed.

Lemma add_one_ge (F : float32) :
  leb zero F = true -> leb one (add one F) = true /\ wide (add one F).
Proof.
  intros HF. apply zero_leb_inv in HF.
  destruct F as [s|s| |s m e]; try contradiction.
  - split; [reflexivity | simpl; lia].
  - subst s. split; [reflexivity | exact I].
  - subst s. unfold add, one, SFadd.
    set (ez := Z.min (-23) e).
    pose proof (one_aligned ez ltac:(unfold ez; lia)) as H1.
    set (m1 := (shl_align 8388608 (-23) ez).1) in *.
    set (mF := (shl_align m e ez).1).
    cbn [cond_Zopp]. change (Zpos m1 + Zpos mF) with (Zpos (m1 + mF)).
    cbn [binary_normalize].
    destruct (binary_round_bound false (m1 + mF) ez)
      as (m2 & e2 & Heq & Hm2 & Hd2 & He2 & Hnormal).
    cbv zeta in *. rewrite Heq.
    assert (HD : 1 <= Zdigits2 (Zpos (m1 + mF)) + ez).
    { assert (- ez + 1 <= Zdigits2 (Zpos (m1 + mF))); [|lia].
      apply Zdigits2_ge_pow; [unfold ez; lia|]. rewrite Pos2Z.inj_add. lia. }
    specialize (Hnormal ltac:(lia)).
    split; [|apply pack_wide; lia].
    assert (Hpos : 0 < m2) by (destruct m2; simpl in Hnormal; lia).
    assert (Hge : 2 ^ 23 <= m2).
    { pose proof (Zdigits2_bounds m2 Hpos) as [Hl _]. rewrite Hnormal in Hl. exact Hl. }
    unfold pack. destruct m2 as [|p2|p2]; try lia.
    destruct (e2 <=? 104); [|reflexivity].
    apply one_leb_intro. change (2 ^ 23) with 8388608 in Hge.
    unfold fexp32 in He2. lia.
Qed.

Lemma sub_one_le (F : float32) :
  leb zero F = true -> leb (sub one F) one = true /\ wide (sub one F).
Proof.
  intros HF. apply zero_leb_inv in HF.
  destruct F as [s|s| |s m e]; try contradiction.
  - split; [reflexivity | simpl; lia].
  - subst s. split; [reflexivity | exact I].
  - subst s. unfold sub, one, SFsub.
    set (ez := Z.min (-23) e).
    pose proof (one_aligned ez ltac:(unfold ez; lia)) as H1.
    set (m1 := (shl_align 8388608 (-23) ez).1) in *.
    set (mF := (shl_align m e ez).1).
    cbn [cond_Zopp].
    destruct (Zpos m1 - Zpos mF) as [|p|p] eqn:Hdiff; cbn [binary_normalize].
    + split; [reflexivity | exact I].
    + destruct (binary_round_bound false p ez)
        as (m2 & e2 & Heq & Hm2 & Hd2 & He2 & _).
      cbv zeta in *. rewrite Heq. split; [|apply pack_wide; lia].
      assert (HD : Zdigits2 (Zpos p) + ez <= 0).
      { assert (Zdigits2 (Zpos p) <= - ez); [|lia].
        apply Zdigits2_lt_pow; [unfold ez; lia|]. lia. }
      unfold pack. destruct m2 as [|p2|p2]; [reflexivity| |lia].
      assert (He104 : e2 <= 104) by (unfold fexp32 in He2; lia).
      destruct (Z.leb_spec e2 104); [|lia].
      apply leb_one_intro. change (2 ^ 23) with 8388608 in He2.
      unfold fexp32 in He2. lia.
    + destruct (binary_round_bound true p ez)
        as (m2 & e2 & Heq & Hm2 & Hd2 & He2 & _).
      rewrite Heq. split; [|apply pack_wide; lia].
      unfold pack. destruct m2 as [|p2|p2]; [reflexivity| |lia].
      destruct (e2 <=? 104); reflexivity.
Qed.

(** *** The clamp *)

Lemma fits_not_nan (x : float32) (E : Z) : fits x E -> is_nan x = false.
Proof. destruct x; simpl; tauto. Qed.

Lemma clamp_between (v lo hi : float32) (Ev : Z) :
  fits v Ev ->
  leb lo one = true -> wide lo ->
  leb one hi = true -> wide hi ->
  let r := std_clamp ltb v lo hi in
  leb lo r = true /\ leb r hi = true /\ fits r (Z.max Ev (-23)).
Proof.
  intros Hv Hlo Hwlo Hhi Hwhi r. subst r. unfold std_clamp.
  pose proof (leb_through_one lo hi Hlo Hhi) as Hlh.
  destruct (leb_not_nan lo hi Hlh) as [Hnlo Hnhi].
  pose proof (fits_not_nan v Ev Hv) as Hnv.
  destruct (ltb v lo) eqn:Hvlo; [|destruct (ltb hi v) eqn:Hhiv].
  - split; [apply leb_refl; exact Hnlo|]. split; [exact Hlh|].
    apply leb_one_inv in Hlo. unfold ltb, SFltb in Hvlo.
    destruct lo as [sl|sl| |sl ml el]; try contradiction; [exact I| |].
    + subst sl. destruct v as [sv|sv| |sv mv ev]; try contradiction;
        cbn [SFcompare] in Hvlo; discriminate.
    + cbn [fits wide] in *. split; [exact Hwlo|].
      destruct sl.
      * destruct v as [sv|sv| |sv mv ev]; try contradiction;
          cbn [SFcompare] in Hvlo; [discriminate|].
        destruct Hv as [_ Hev]. destruct sv; [|discriminate].
        destruct (Z.compare_spec ev el); try discriminate; lia.
      * destruct Hlo as [Hl|Hl]; [discriminate | lia].
  - split; [exact Hlh|]. split; [apply leb_refl; exact Hnhi|].
    apply one_leb_inv in Hhi. unfold ltb, SFltb in Hhiv.
    destruct hi as [sh|sh| |sh mh eh]; try contradiction.
    + subst sh. destruct v as [sv|sv| |sv mv ev]; try contradiction;
        cbn [SFcompare] in Hhiv; discriminate.
    + destruct Hhi as [-> Hh]. cbn [fits wide] in *. split; [exact Hwhi|].
      destruct v as [sv|sv| |sv mv ev]; try contradiction;
        cbn [SFcompare] in Hhiv; [discriminate|].
      destruct Hv as [_ Hev]. destruct sv; [discriminate|].
      destruct (Z.compare_spec eh ev); try discriminate; lia.
  - split; [apply leb_of_not_ltb; assumption|].
    split; [apply leb_of_not_ltb; assumption|].
    eapply fits_le; [exact Hv | lia].
Qed.

(** *** Conversion from [int], over the 16-bit range *)

Lemma all_from_spec (n : nat) :
  forall (z : Z) (P : Z -> bool),
  all_from n z P = true ->
  forall x, z <= x < z + Z.of_nat n -> P x = true.
Proof.
  induction n as [|n IH]; intros z P Hall x Hx; [lia|].
  cbn [all_from] in Hall. apply andb_true_iff in Hall as [Hz Hrest].
  destruct (Z.eq_dec x z) as [->|Hne]; [exact Hz|].
  apply (IH (z + 1) P Hrest). lia.
Qed.

Lemma all_i16 (P : Z -> bool) :
  all_from (Z.to_nat 65536) (-32768) P = true ->
  forall i, in_i16 i -> P i = true.
Proof.
  intros Hall i [Hlo Hhi]. apply (all_from_spec _ _ _ Hall).
  unfold i16_min, i16_max in *. lia.
Qed.

Lemma of_int_shape_i16 (i : Z) : in_i16 i -> of_int_shape i = true.
Proof. apply all_i16. vm_compute. reflexivity. Qed.

Lemma of_int_exact_i16 (i : Z) : in_i16 i -> of_int_exact i = true.
Proof. apply all_i16. vm_compute. reflexivity. Qed.

Lemma mul_one_exact_i16 (i : Z) : in_i16 i -> mul_one_exact i = true.
Proof. apply all_i16. vm_compute. reflexivity. Qed.

Lemma same_eq (x y : float32) : same x y = true -> x = y.
Proof.
  destruct x as [a|a| |a m e], y as [b|b| |b m' e']; cbn [same];
    intros E; try discriminate; try reflexivity.
  - apply Bool.eqb_prop in E. congruence.
  - apply Bool.eqb_prop in E. congruence.
  - apply andb_true_iff in E as [E He]. apply andb_true_iff in E as [Hs Hm].
    apply Bool.eqb_prop in Hs. apply Pos.eqb_eq in Hm. apply Z.eqb_eq in He.
    congruence.
Qed.

(** [(float)i] is exact: zero for zero, otherwise a normal number with
    the sign of [i] at the exponent that the digits of [i] give. *)
Lemma of_int_i16 (i : Z) :
  in_i16 i ->
  (i = 0 /\ of_int i = zero)
  \/ (i <> 0 /\ exists m : positive,
        of_int i = S754_finite (i <? 0) m (Zdigits2 (Z.abs i) - 24)
        /\ Zdigits2 (Zpos m) = 24
        /\ 1 <= Zdigits2 (Z.abs i) <= 16).
Proof.
  intros Hi. pose proof (of_int_shape_i16 i Hi) as Hs. unfold of_int_shape in Hs.
  destruct (of_int i) as [sg|sg| |sg m e]; try discriminate.
  - left. apply andb_true_iff in Hs as [H0 Hsg]. apply Z.eqb_eq in H0.
    destruct sg; [discriminate|]. split; [exact H0 | reflexivity].
  - right. repeat (apply andb_true_iff in Hs as [Hs ?]).
    apply negb_true_iff, Z.eqb_neq in Hs.
    repeat match goal with
           | H : Bool.eqb _ _ = true |- _ => apply Bool.eqb_prop in H
           | H : (_ =? _) = true |- _ => apply Z.eqb_eq in H
           | H : (_ <=? _) = true |- _ => apply Z.leb_le in H
           end.
    split; [exact Hs|]. exists m. subst. split; [reflexivity|].
    split; [assumption|]. split; [|assumption].
    pose proof (Zdigits2_pos (Z.abs i) ltac:(lia)). lia.
Qed.

Lemma of_int_fits (i : Z) : in_i16 i -> fits (of_int i) (Zdigits2 (Z.abs i) - 24).
Proof.
  intros Hi. destruct (of_int_i16 i Hi) as [[_ ->]|(_ & m & -> & Hd & _)].
  - exact I.
  - cbn [fits]. rewrite Hd. lia.
Qed.

Lemma to_int_of_int (i : Z) : in_i16 i -> to_int (of_int i) = i.
Proof.
  intros Hi. pose proof (of_int_exact_i16 i Hi) as He. unfold of_int_exact in He.
  unfold to_int. destruct (trunc (of_int i)) as [z|]; [|discriminate].
  apply Z.eqb_eq in He. subst z.
  destruct Hi as [Hlo Hhi]. unfold i16_min, i16_max, int_min, int_max in *.
  destruct (Z.leb_spec (-2147483648) i); [|lia].
  destruct (Z.leb_spec i 2147483647); [|lia]. reflexivity.
Qed.

Lemma mul_of_int_one (i : Z) : in_i16 i -> mul (of_int i) one = of_int i.
Proof. intros Hi. apply same_eq. exact (mul_one_exact_i16 i Hi). Qed.

End F32Facts.

(** ** The score adjuster: relative mode *)

Section NudgeFloat.
Import F32 F32Facts.

Lemma saturate_f32_to_i16_eq (x : float32) :
  int_representable x = true ->
  exists t : Z,
    trunc x = Some t /\ in_int t
    /\ saturate_f32_to_i16 x = Z.max i16_min (Z.min i16_max t).
Proof.
  intros Hr. destruct (to_int_representable x Hr) as (t & Ht & Hin & Hto).
  exists t. split; [exact Ht|]. split; [exact Hin|].
  unfold saturate_f32_to_i16. rewrite Hto. apply saturate_i32_to_i16_eq.
Qed.

(** C4, amended.  In relative mode, for 16-bit scores with
    [static <> 0] and a fraction [F >= 0], [nudge] multiplies
    [(float)static] by
    [ratio = clamp((float)deep / (float)static, 1 - F, 1 + F)], all in
    binary32; the product converts to an [int] (so the conversion is
    the truncation toward zero), and the result is its saturation to 16
    bits.  It is the factor [ratio] that lies within [1 - F, 1 + F], the
    bounds being the binary32 values of [1.0f - F] and [1.0f + F].  The
    ratio of the result to [static] is not bounded so: the product is
    rounded and then truncated. *)
Theorem nudge_relative (params : NudgedStaticParams.t) (static deep : Z) :
  NudgedStaticParams.mode params = Relative ->
  leb zero (NudgedStaticParams.relative_nudge params) = true ->
  in_i16 static -> in_i16 deep -> static <> 0 ->
  let F := NudgedStaticParams.relative_nudge params in
  let lo := sub one F in
  let hi := add one F in
  let ratio := std_clamp ltb (div (of_int deep) (of_int static)) lo hi in
  let product := mul (of_int static) ratio in
  leb lo ratio = true
  /\ leb ratio hi = true
  /\ exists t : Z,
       trunc product = Some t
       /\ in_int t
       /\ nudge params static deep = Z.max i16_min (Z.min i16_max t).
Proof.
  intros Hmode HF Hs Hd Hs0 F lo hi ratio product.
  destruct (sub_one_le F HF) as [Hlo Hwlo].
  destruct (add_one_ge F HF) as [Hhi Hwhi].
  fold lo in Hlo, Hwlo. fold hi in Hhi, Hwhi.
  destruct (of_int_i16 static Hs) as [[E _]|(_ & ms & Hfs & Hdms & Hks)];
    [contradiction|].
  pose proof (of_int_fits deep Hd) as Hfd.
  pose proof (of_int_fits static Hs) as Hfs'.
  assert (Hkd : 0 <= Zdigits2 (Z.abs deep) <= 16).
  { destruct (of_int_i16 deep Hd) as [[-> _]|(_ & _ & _ & _ & Hk)]; [simpl; lia | lia]. }
  set (ks := Zdigits2 (Z.abs static)) in *.
  set (kd := Zdigits2 (Z.abs deep)) in *.
  assert (Hv : fits (div (of_int deep) (of_int static)) (kd - ks - 22)).
  { rewrite Hfs.
    pose proof (div_fits (of_int deep) (static <? 0) ms (ks - 24) (kd - 24) Hfd) as Hdiv.
    cbv zeta in Hdiv. rewrite Hdms in Hdiv.
    eapply fits_le; [apply Hdiv|]; unfold fexp32; lia. }
  destruct (clamp_between _ lo hi _ Hv Hlo Hwlo Hhi Hwhi) as (Hl & Hh & Hr).
  fold ratio in Hl, Hh, Hr.
  split; [exact Hl|]. split; [exact Hh|].
  assert (Hp : fits product (-5)).
  { pose proof (mul_fits (of_int static) ratio (ks - 24) (Z.max (kd - ks - 22) (-23))
                  Hfs' Hr ltac:(lia)) as Hm.
    eapply fits_le; [exact Hm | lia]. }
  destruct (saturate_f32_to_i16_eq product (int_representable_fits _ _ Hp ltac:(lia)))
    as (t & Ht & Hin & Hsat).
  exists t. split; [exact Ht|]. split; [exact Hin|].
  unfold nudge. rewrite Hmode. exact Hsat.
Qed.

Lemma nudge_relative_witness :
  nudge (NudgedStaticParams.mk "in" "out" Relative 5 one_tenth one_tenth) 7 0 = 6.
Proof.
  destruct (nudge_relative
              (NudgedStaticParams.mk "in" "out" Relative 5 one_tenth one_tenth) 7 0
              eq_refl eq_refl)
    as (_ & _ & t & Ht & _ & Hn).
  - unfold in_i16, i16_min, i16_max. lia.
  - unfold in_i16, i16_min, i16_max. lia.
  - lia.
  - vm_compute in Ht. inversion Ht; subst t. rewrite Hn. reflexivity.
Defined.

(** ** The score adjuster: interpolate mode *)

(** The claim as it stands fails for the result: with [F] the [float]
    nearest to 0.1, [static = 7] and [deep = 0] the factor is the lower
    bound, the rounded product is [13212057 * 2^-21], a little below
    6.3, and the result is 6.  Its ratio to [static], 6/7, is below
    [1 - F], in binary32 and exactly ([F] is [13421773 * 2^-27]); so is,
    exactly, that of the product before the truncation.  With
    [static = 1] the result is 0. *)
Lemma nudge_relative_counterexample :
  let params := NudgedStaticParams.mk "in" "out" Relative 5 one_tenth one_tenth in
  let lo := sub one one_tenth in
  let ratio := std_clamp ltb (div (of_int 0) (of_int 7)) lo (add one one_tenth) in
  leb zero one_tenth = true
  /\ ratio = lo
  /\ mul (of_int 7) ratio = S754_finite false 13212057 (-21)
  /\ nudge params 7 0 = 6
  /\ ltb (div (of_int 6) (of_int 7)) lo = true
  /\ 6 * 2 ^ 27 < 7 * (2 ^ 27 - 13421773)
  /\ 13212057 * 2 ^ 6 < 7 * (2 ^ 27 - 13421773)
  /\ nudge params 1 0 = 0.
Proof. vm_compute. repeat split. Qed.

Lemma valid_wide (x : float32) : valid x = true -> is_nan x = false -> wide x.
Proof.
  destruct x as [s|s| |s m e]; cbn [valid valid_binary wide is_nan];
    intros Hv Hn; try exact I; try discriminate.
  unfold bounded, canonical_mantissa in Hv.
  apply andb_true_iff in Hv as [Hc _]. apply Z.eqb_eq in Hc.
  rewrite fexp_eq in Hc. unfold fexp32 in Hc.
  change (Zpos (digits2_pos m)) with (Zdigits2 (Zpos m)) in Hc. lia.
Qed.

Lemma weight_fits (W : float32) :
  valid W = true -> leb zero W = true -> leb W one = true -> fits W (-23).
Proof.
  intros Hv H0 H1. destruct (leb_not_nan _ _ H1) as [Hn _].
  pose proof (valid_wide W Hv Hn) as Hw.
  apply zero_leb_inv in H0. apply leb_one_inv in H1.
  destruct W as [s|s| |s m e]; try contradiction; [exact I | congruence |].
  subst s. cbn [fits wide] in *. split; [exact Hw|].
  destruct H1 as [H1|H1]; [discriminate | lia].
Qed.

Lemma eqb_zero_inv (W : float32) : eqb W zero = true -> exists s, W = S754_zero s.
Proof.
  unfold eqb, SFeqb, zero. destruct W as [s|s| |s m e]; cbn [SFcompare];
    try destruct s; intros E; try discriminate; eauto.
Qed.

Lemma eqb_finite_pos (m1 m2 : positive) (e1 e2 : Z) :
  eqb (S754_finite false m1 e1) (S754_finite false m2 e2) = true ->
  m1 = m2 /\ e1 = e2.
Proof.
  unfold eqb, SFeqb. cbn [SFcompare].
  change (Pos.compare_cont Eq m1 m2) with (Pos.compare m1 m2).
  destruct (Z.compare_spec e1 e2) as [He|He|He]; try discriminate.
  destruct (Pos.compare_spec m1 m2) as [Hm|Hm|Hm]; try discriminate.
  intros _. split; assumption.
Qed.

Lemma eqb_one_inv (W : float32) : eqb W one = true -> W = one.
Proof.
  unfold one. destruct W as [s|s| |s m e].
  - destruct s; discriminate.
  - destruct s; discriminate.
  - discriminate.
  - destruct s; [discriminate|].
    intros E. apply eqb_finite_pos in E as [-> ->]. reflexivity.
Qed.

(** Adding a zero to, and multiplying a zero with, a converted integer. *)
Lemma to_int_add_zero_r (i : Z) (s : bool) :
  in_i16 i -> to_int (add (of_int i) (S754_zero s)) = i.
Proof.
  intros Hi. destruct (of_int_i16 i Hi) as [[-> E]|(_ & m & E & _)].
  - rewrite E. destruct s; reflexivity.
  - rewrite <- (to_int_of_int i Hi) at 2. rewrite E. reflexivity.
Qed.

Lemma to_int_add_zero_l (i : Z) (s : bool) :
  in_i16 i -> to_int (add (S754_zero s) (of_int i)) = i.
Proof.
  intros Hi. destruct (of_int_i16 i Hi) as [[-> E]|(_ & m & E & _)].
  - rewrite E. destruct s; reflexivity.
  - rewrite <- (to_int_of_int i Hi) at 2. rewrite E. reflexivity.
Qed.

Lemma mul_of_int_zero (i : Z) (s : bool) :
  in_i16 i -> exists s', mul (of_int i) (S754_zero s) = S754_zero s'.
Proof.
  intros Hi. destruct (of_int_i16 i Hi) as [[-> E]|(_ & m & E & _)];
    rewrite E; eexists; reflexivity.
Qed.

(** C5.  In interpolate mode, for 16-bit scores and a weight [W] in
    [0, 1], [nudge] computes [static * (1 - W) + deep * W] in binary32;
    the value converts to an [int] (the truncation toward zero) and the
    result is its saturation to 16 bits.  For [W == 0] the result is
    [static], for [W == 1] it is [deep]. *)
Theorem nudge_interpolate (params : NudgedStaticParams.t) (static deep : Z) :
  NudgedStaticParams.mode params = Interpolate ->
  valid (NudgedStaticParams.interpolate_nudge params) = true ->
  leb zero (NudgedStaticParams.interpolate_nudge params) = true ->
  leb (NudgedStaticParams.interpolate_nudge params) one = true ->
  in_i16 static -> in_i16 deep ->
  let W := NudgedStaticParams.interpolate_nudge params in
  let value := add (mul (of_int static) (sub one W)) (mul (of_int deep) W) in
  (exists t : Z,
     trunc value = Some t
     /\ in_int t
     /\ nudge params static deep = Z.max i16_min (Z.min i16_max t))
  /\ (eqb W zero = true -> nudge params static deep = static)
  /\ (eqb W one = true -> nudge params static deep = deep).
Proof.
  intros Hmode Hvalid H0 H1 Hs Hd W value.
  assert (Hn : nudge params static deep = saturate_f32_to_i16 value).
  { unfold nudge. rewrite Hmode. reflexivity. }
  split; [|split].
  - pose proof (weight_fits W Hvalid H0 H1) as HW.
    assert (Hone : fits one (-23)) by (simpl; lia).
    pose proof (of_int_fits static Hs) as Hfs.
    pose proof (of_int_fits deep Hd) as Hfd.
    assert (Hks : 0 <= Zdigits2 (Z.abs static) <= 16).
    { destruct (of_int_i16 static Hs) as [[-> _]|(_ & _ & _ & _ & Hk)]; [simpl; lia | lia]. }
    assert (Hkd : 0 <= Zdigits2 (Z.abs deep) <= 16).
    { destruct (of_int_i16 deep Hd) as [[-> _]|(_ & _ & _ & _ & Hk)]; [simpl; lia | lia]. }
    pose proof (sub_fits one W (-23) (-23) Hone HW ltac:(lia)) as Hsub.
    pose proof (mul_fits _ _ _ _ Hfs Hsub ltac:(lia)) as Hm1.
    pose proof (mul_fits _ _ _ _ Hfd HW ltac:(lia)) as Hm2.
    assert (Hm1' : fits (mul (of_int static) (sub one W)) (-4))
      by (eapply fits_le; [exact Hm1 | lia]).
    assert (Hm2' : fits (mul (of_int deep) W) (-6))
      by (eapply fits_le; [exact Hm2 | lia]).
    pose proof (add_fits _ _ _ _ Hm1' Hm2' ltac:(lia)) as Hadd.
    fold value in Hadd.
    destruct (saturate_f32_to_i16_eq value (int_representable_fits _ _ Hadd ltac:(lia)))
      as (t & Ht & Hin & Hsat).
    exists t. split; [exact Ht|]. split; [exact Hin|]. rewrite Hn. exact Hsat.
  - intros Hz. destruct (eqb_zero_inv W Hz) as [sg HWz].
    rewrite Hn. unfold value. rewrite HWz.
    assert (Hsub : sub one (S754_zero sg) = one) by (destruct sg; reflexivity).
    rewrite Hsub, (mul_of_int_one static Hs).
    destruct (mul_of_int_zero deep sg Hd) as [s' ->].
    unfold saturate_f32_to_i16. rewrite (to_int_add_zero_r static s' Hs).
    apply saturate_i32_to_i16_id. exact Hs.
  - intros Ho. pose proof (eqb_one_inv W Ho) as HWo.
    rewrite Hn. unfold value. rewrite HWo.
    change (sub one one) with (S754_zero false).
    rewrite (mul_of_int_one deep Hd).
    destruct (mul_of_int_zero static false Hs) as [s' ->].
    unfold saturate_f32_to_i16. rewrite (to_int_add_zero_l deep s' Hd).
    apply saturate_i32_to_i16_id. exact Hd.
Qed.

Lemma nudge_interpolate_witness :
  nudge (NudgedStaticParams.mk "in" "out" Interpolate 5 one_tenth one) 100 200 = 200
  /\ nudge (NudgedStaticParams.mk "in" "out" Interpolate 5 one_tenth zero) 100 200 = 100.
Proof.
  split.
  - destruct (nudge_interpolate
                (NudgedStaticParams.mk "in" "out" Interpolate 5 one_tenth one) 100 200
                eq_refl eq_refl eq_refl eq_refl)
      as (_ & _ & Hone).
    + unfold in_i16, i16_min, i16_max. lia.
    + unfold in_i16, i16_min, i16_max. lia.
    + apply Hone. reflexivity.
  - destruct (nudge_interpolate
                (NudgedStaticParams.mk "in" "out" Interpolate 5 one_tenth zero) 100 200
                eq_refl eq_refl eq_refl eq_refl)
      as (_ & Hzero & _).
    + unfold in_i16, i16_min, i16_max. lia.
    + unfold in_i16, i16_min, i16_max. lia.
    + apply Hzero. reflexivity.
Defined.

End NudgeFloat.

(** ** The score adjuster: further properties *)

Section SaturationFacts.

(** X1.  The saturating conversion of [nudge] is the clamp to the
    16-bit range: the cast after [std::clamp] never wraps.  A value
    above the range gives 32767, one below gives -32768, a 16-bit value
    is returned as it is, and the conversion is monotone. *)
Theorem saturate_i32_to_i16_clamps (v v' : Z) :
  in_i16 (saturate_i32_to_i16 v)
  /\ (i16_max <= v -> saturate_i32_to_i16 v = i16_max)
  /\ (v <= i16_min -> saturate_i32_to_i16 v = i16_min)
  /\ (in_i16 v -> saturate_i32_to_i16 v = v)
  /\ (v <= v' -> saturate_i32_to_i16 v <= saturate_i32_to_i16 v').
Proof.
  rewrite !saturate_i32_to_i16_eq. unfold in_i16, i16_min, i16_max. lia.
Qed.

End SaturationFacts.

Section AbsoluteMode.

Variable params : NudgedStaticParams.t.
Hypothesis Hmode : NudgedStaticParams.mode params = Absolute.
Hypothesis Hcap : 0 <= NudgedStaticParams.absolute_nudge params <= int_max.

(** In absolute mode no operation overflows and the saturation has
    nothing to do. *)
Lemma nudge_absolute_value (static deep : Z) :
  in_i16 static -> in_i16 deep ->
  let C := NudgedStaticParams.absolute_nudge params in
  nudge params static deep = static + Z.max (- C) (Z.min C (deep - static))
  /\ in_i16 (nudge params static deep).
Proof.
  intros Hs Hd C. unfold nudge. rewrite Hmode. fold C.
  unfold in_i16, i16_min, i16_max, int_max in *.
  assert (Hneg : int_neg C = - C).
  { apply to_int_id. unfold in_int, int_min, int_max. lia. }
  assert (Hsub : int_sub deep static = deep - static).
  { apply to_int_id. unfold in_int, int_min, int_max. lia. }
  rewrite Hneg, Hsub, std_clamp_Z by lia.
  assert (Hadd : int_add static (Z.max (- C) (Z.min C (deep - static)))
                 = static + Z.max (- C) (Z.min C (deep - static))).
  { apply to_int_id. unfold in_int, int_min, int_max. lia. }
  rewrite Hadd, saturate_i32_to_i16_eq. unfold i16_min, i16_max. lia.
Qed.

(** X2.  In absolute mode, for 16-bit scores and a cap [C >= 0], the
    result moves from [static] toward [deep] by exactly
    [min(C, |deep - static|)]: it lies between the two scores, it is
    [deep] itself when the two differ by at most [C], and it is [static]
    when [C] is zero.  The saturation never changes the value. *)
Theorem nudge_absolute_toward_deep (static deep : Z) :
  in_i16 static -> in_i16 deep ->
  let C := NudgedStaticParams.absolute_nudge params in
  let r := nudge params static deep in
  r = static + Z.max (- C) (Z.min C (deep - static))
  /\ Z.min static deep <= r <= Z.max static deep
  /\ Z.abs (r - static) = Z.min C (Z.abs (deep - static))
  /\ (static <= deep -> static <= r)
  /\ (deep <= static -> r <= static)
  /\ (Z.abs (deep - static) <= C -> r = deep)
  /\ (C = 0 -> r = static).
Proof.
  intros Hs Hd C r. destruct (nudge_absolute_value static deep Hs Hd) as [Hr _].
  fold C in Hr. fold r in Hr. lia.
Qed.

(** X3.  In absolute mode the adjustment is idempotent and monotone:
    adjusting the adjusted score again, against the same static score,
    changes nothing, and a larger deep score never gives a smaller
    result. *)
Theorem nudge_absolute_idempotent (static deep deep' : Z) :
  in_i16 static -> in_i16 deep -> in_i16 deep' ->
  nudge params static (nudge params static deep) = nudge params static deep
  /\ (deep <= deep' -> nudge params static deep <= nudge params static deep').
Proof.
  intros Hs Hd Hd'.
  destruct (nudge_absolute_value static deep Hs Hd) as [Hr Hin].
  destruct (nudge_absolute_value static deep' Hs Hd') as [Hr' _].
  destruct (nudge_absolute_value static _ Hs Hin) as [Hrr _].
  cbv zeta in Hr, Hr', Hrr. lia.
Qed.

End AbsoluteMode.

Lemma nudge_absolute_toward_deep_witness :
  nudge (NudgedStaticParams.mk "in" "out" Absolute 3 F32.one_tenth F32.one_tenth) 10 (-20)
  = 7
  /\ nudge (NudgedStaticParams.mk "in" "out" Absolute 3 F32.one_tenth F32.one_tenth) 10 12
     = 12.
Proof.
  pose (P := NudgedStaticParams.mk "in" "out" Absolute 3 F32.one_tenth F32.one_tenth).
  assert (HC : 0 <= NudgedStaticParams.absolute_nudge P <= int_max).
  { unfold int_max. simpl. lia. }
  assert (H10 : in_i16 10) by (unfold in_i16, i16_min, i16_max; lia).
  assert (H20 : in_i16 (-20)) by (unfold in_i16, i16_min, i16_max; lia).
  assert (H12 : in_i16 12) by (unfold in_i16, i16_min, i16_max; lia).
  split.
  - destruct (nudge_absolute_toward_deep P eq_refl HC 10 (-20) H10 H20) as [Hr _].
    exact Hr.
  - destruct (nudge_absolute_toward_deep P eq_refl HC 10 12 H10 H12) as [Hr _].
    exact Hr.
Defined.

Lemma nudge_absolute_idempotent_witness :
  nudge (NudgedStaticParams.mk "in" "out" Absolute 3 F32.one_tenth F32.one_tenth) 10
    (nudge (NudgedStaticParams.mk "in" "out" Absolute 3 F32.one_tenth F32.one_tenth) 10 50)
  = nudge (NudgedStaticParams.mk "in" "out" Absolute 3 F32.one_tenth F32.one_tenth) 10 50.
Proof.
  pose (P := NudgedStaticParams.mk "in" "out" Absolute 3 F32.one_tenth F32.one_tenth).
  assert (HC : 0 <= NudgedStaticParams.absolute_nudge P <= int_max).
  { unfold int_max. simpl. lia. }
  assert (H10 : in_i16 10) by (unfold in_i16, i16_min, i16_max; lia).
  assert (H50 : in_i16 50) by (unfold in_i16, i16_min, i16_max; lia).
  destruct (nudge_absolute_idempotent P eq_refl HC 10 50 50 H10 H50 H50) as [Hi _].
  exact Hi.
Defined.

(** ** Relative mode at its edges *)

Section RelativeMode.
Import F32 F32Facts.

Lemma div_self_exact_i16 (i : Z) : in_i16 i -> div_self_exact i = true.
Proof. apply all_i16. vm_compute. reflexivity. Qed.

Lemma div_of_int_self (i : Z) :
  in_i16 i -> i <> 0 -> div (of_int i) (of_int i) = one.
Proof.
  intros Hi Hi0. pose proof (div_self_exact_i16 i Hi) as Hd.
  unfold div_self_exact in Hd. apply orb_true_iff in Hd as [Hd|Hd]; [lia|].
  apply same_eq. exact Hd.
Qed.

Lemma ltb_of_leb_false (x y : float32) : leb x y = true -> ltb y x = false.
Proof.
  unfold leb, SFleb, ltb, SFltb. intros H.
  destruct (SFcompare x y) as [c|] eqn:E; [|discriminate H].
  rewrite (compare_antisym _ _ _ E). destruct c; try reflexivity. discriminate H.
Qed.

(** A value between the bounds is what [std::clamp] returns. *)
Lemma std_clamp_inside (v lo hi : float32) :
  leb lo v = true -> leb v hi = true -> std_clamp ltb v lo hi = v.
Proof.
  intros Hlo Hhi. unfold std_clamp.
  rewrite (ltb_of_leb_false _ _ Hlo), (ltb_of_leb_false _ _ Hhi). reflexivity.
Qed.

(** Between [1.0f] and [1.0f] there is only [1.0f]. *)
Lemma std_clamp_one_one (v : float32) :
  is_nan v = false -> std_clamp ltb v one one = one.
Proof.
  intros Hv. destruct (compare_some v one Hv eq_refl) as [c Hc].
  unfold std_clamp, ltb, SFltb. rewrite Hc.
  destruct c.
  - assert (E : v = one).
    { apply eqb_one_inv. unfold eqb, SFeqb. rewrite Hc. reflexivity. }
    subst v. reflexivity.
  - reflexivity.
  - rewrite (compare_antisym _ _ _ Hc). reflexivity.
Qed.

Lemma saturate_of_int (i : Z) : in_i16 i -> saturate_f32_to_i16 (of_int i) = i.
Proof.
  intros Hi. unfold saturate_f32_to_i16. rewrite (to_int_of_int i Hi).
  apply saturate_i32_to_i16_id. exact Hi.
Qed.

Lemma ratio_not_nan (static deep : Z) :
  in_i16 static -> in_i16 deep -> static <> 0 ->
  is_nan (div (of_int deep) (of_int static)) = false.
Proof.
  intros Hs Hd Hs0.
  destruct (of_int_i16 static Hs) as [[E _]|(_ & ms & Hfs & Hdms & Hks)];
    [contradiction|].
  rewrite Hfs.
  pose proof (div_fits (of_int deep) (static <? 0) ms
                (Zdigits2 (Z.abs static) - 24) (Zdigits2 (Z.abs deep) - 24)
                (of_int_fits deep Hd)) as Hdiv.
  cbv zeta in Hdiv.
  assert (Hkd : 0 <= Zdigits2 (Z.abs deep) <= 16).
  { destruct (of_int_i16 deep Hd) as [[-> _]|(_ & _ & _ & _ & Hk)]; [simpl; lia | lia]. }
  eapply fits_not_nan. apply Hdiv. rewrite Hdms. unfold fexp32. lia.
Qed.

(** The clamped quotient and the product of relative mode, for any
    fraction [F >= 0]. *)
Lemma relative_product (F : float32) (static deep : Z) :
  leb zero F = true -> in_i16 static -> in_i16 deep -> static <> 0 ->
  let ratio :=
    std_clamp ltb (div (of_int deep) (of_int static)) (sub one F) (add one F) in
  leb (sub one F) ratio = true
  /\ fits (mul (of_int static) ratio) (-5).
Proof.
  intros HF Hs Hd Hs0 ratio.
  destruct (sub_one_le F HF) as [Hlo Hwlo].
  destruct (add_one_ge F HF) as [Hhi Hwhi].
  destruct (of_int_i16 static Hs) as [[E _]|(_ & ms & Hfs & Hdms & Hks)];
    [contradiction|].
  pose proof (of_int_fits deep Hd) as Hfd.
  pose proof (of_int_fits static Hs) as Hfs'.
  assert (Hkd : 0 <= Zdigits2 (Z.abs deep) <= 16).
  { destruct (of_int_i16 deep Hd) as [[-> _]|(_ & _ & _ & _ & Hk)]; [simpl; lia | lia]. }
  set (ks := Zdigits2 (Z.abs static)) in *.
  set (kd := Zdigits2 (Z.abs deep)) in *.
  assert (Hv : fits (div (of_int deep) (of_int static)) (kd - ks - 22)).
  { rewrite Hfs.
    pose proof (div_fits (of_int deep) (static <? 0) ms (ks - 24) (kd - 24) Hfd) as Hdiv.
    cbv zeta in Hdiv. rewrite Hdms in Hdiv.
    eapply fits_le; [apply Hdiv|]; unfold fexp32; lia. }
  destruct (clamp_between _ (sub one F) (add one F) _ Hv Hlo Hwlo Hhi Hwhi)
    as (Hl & _ & Hr).
  fold ratio in Hl, Hr. split; [exact Hl|].
  pose proof (mul_fits (of_int static) ratio (ks - 24) (Z.max (kd - ks - 22) (-23))
                Hfs' Hr ltac:(lia)) as Hm.
  eapply fits_le; [exact Hm | lia].
Qed.

Lemma leb_zero_pack (m e : Z) : 0 <= m -> leb zero (pack false m e) = true.
Proof.
  intros Hm. unfold pack. destruct m as [|p|p]; [reflexivity| |lia].
  destruct (e <=? 104); reflexivity.
Qed.

(** [1 - F] is not negative for a fraction of at most one. *)
Lemma sub_one_nonneg (F : float32) :
  valid F = true -> leb zero F = true -> leb F one = true ->
  leb zero (sub one F) = true.
Proof.
  intros Hv H0 H1. pose proof (weight_fits F Hv H0 H1) as Hfit.
  apply zero_leb_inv in H0. apply leb_one_inv in H1.
  destruct F as [s|s| |s m e]; try contradiction.
  - destruct s; reflexivity.
  - subst s. destruct Hfit as [Hd He].
    destruct H1 as [H1|H1]; [discriminate H1|].
    unfold sub, one, SFsub.
    replace (Z.min (-23) e) with e by lia.
    pose proof (one_aligned e ltac:(lia)) as Hone.
    pose proof (shl_align_spec m e e) as Hal.
    destruct (shl_align m e e) as [mF eF]. destruct Hal as [HeF HmF].
    replace eF with e in HmF by lia.
    rewrite Z.sub_diag, Z.mul_1_r in HmF.
    set (m1 := (shl_align 8388608 (-23) e).1) in *.
    cbn [cond_Zopp fst].
    assert (Hle : Zpos mF <= Zpos m1).
    { rewrite HmF, Hone. destruct H1 as [H1|[-> H1]].
      - pose proof (Zdigits2_bounds (Zpos m) ltac:(lia)) as [_ Hub].
        assert (2 ^ Zdigits2 (Zpos m) <= 2 ^ (- e)) by (apply Z.pow_le_mono_r; lia).
        lia.
      - exact H1. }
    destruct (Zpos m1 - Zpos mF) as [|p|p] eqn:Hdiff; cbn [binary_normalize]; [| |lia].
    + reflexivity.
    + destruct (binary_round_bound false p e) as (m2 & e2 & Heq & Hm2 & _).
      rewrite Heq. apply leb_zero_pack. exact Hm2.
Qed.

Lemma zero_leb_trans (x y : float32) :
  leb zero x = true -> leb x y = true -> leb zero y = true.
Proof.
  intros H0 Hxy. apply zero_leb_inv in H0.
  destruct x as [sx|sx| |sx mx ex]; try contradiction.
  - destruct sx, y as [[]|[]| |[] my ey]; try reflexivity; discriminate Hxy.
  - subst sx. destruct y as [[]|[]| |[] my ey]; try reflexivity; discriminate Hxy.
  - subst sx. destruct y as [[]|[]| |[] my ey]; try reflexivity; discriminate Hxy.
Qed.

(** The integer part of a product has the sign of the first factor
    when the second is not negative. *)
Lemma trunc_pack_sign (s : bool) (m e t : Z) :
  0 <= m -> trunc (pack s m e) = Some t ->
  (s = false -> 0 <= t) /\ (s = true -> t <= 0).
Proof.
  intros Hm. unfold pack. destruct m as [|p|p]; [| |lia].
  - cbn [trunc]. intros E. inversion E. lia.
  - destruct (e <=? 104); [|discriminate]. cbn [trunc]. intros E. inversion E.
    assert (Ha : 0 <= match e with
                      | Zneg q => Z.shiftr (Zpos p) (Zpos q)
                      | _ => Z.shiftl (Zpos p) e
                      end).
    { destruct e; [apply Z.shiftl_nonneg | apply Z.shiftl_nonneg
                  | apply Z.shiftr_nonneg]; lia. }
    destruct s; split; intros; try discriminate; lia.
Qed.

Lemma mul_trunc_sign (sx : bool) (mx : positive) (ex : Z) (y : float32) (t : Z) :
  leb zero y = true ->
  trunc (mul (S754_finite sx mx ex) y) = Some t ->
  (sx = false -> 0 <= t) /\ (sx = true -> t <= 0).
Proof.
  intros Hy. apply zero_leb_inv in Hy.
  destruct y as [sy|sy| |sy my ey]; try contradiction.
  - cbn [mul SFmul trunc]. intros E. inversion E. lia.
  - cbn [mul SFmul trunc]. discriminate.
  - subst sy. unfold mul, SFmul. rewrite xorb_false_r.
    destruct (binary_round_aux_bound sx (Zpos (mx * my)) (ex + ey) loc_Exact)
      as (m2 & e2 & Heq & Hm2 & _); [lia|].
    rewrite Heq. apply trunc_pack_sign. exact Hm2.
Qed.

Variable params : NudgedStaticParams.t.
Hypothesis Hmode : NudgedStaticParams.mode params = Relative.

(** X4.  In relative mode with the fraction [0.0f], both bounds of the
    clamp are [1.0f], and the result is [static] whatever [deep] is
    (for 16-bit scores, [static <> 0]). *)
Theorem nudge_relative_zero_fraction (static deep : Z) :
  eqb (NudgedStaticParams.relative_nudge params) zero = true ->
  in_i16 static -> in_i16 deep -> static <> 0 ->
  nudge params static deep = static.
Proof.
  intros HF Hs Hd Hs0. destruct (eqb_zero_inv _ HF) as [s EF].
  unfold nudge. rewrite Hmode, EF.
  assert (Elo : sub one (S754_zero s) = one) by (destruct s; reflexivity).
  assert (Ehi : add one (S754_zero s) = one) by (destruct s; reflexivity).
  rewrite Elo, Ehi, std_clamp_one_one by (apply ratio_not_nan; assumption).
  rewrite (mul_of_int_one static Hs). apply saturate_of_int. exact Hs.
Qed.

(** X5.  In relative mode, a deep score equal to the static score is
    left alone: the quotient is exactly [1.0f], which lies within
    [1 - F, 1 + F] for every fraction [F >= 0], and [static * 1.0f]
    converts back to [static]. *)
Theorem nudge_relative_agreeing (static : Z) :
  leb zero (NudgedStaticParams.relative_nudge params) = true ->
  in_i16 static -> static <> 0 ->
  nudge params static static = static.
Proof.
  intros HF Hs Hs0.
  destruct (sub_one_le _ HF) as [Hlo _]. destruct (add_one_ge _ HF) as [Hhi _].
  unfold nudge. rewrite Hmode, (div_of_int_self static Hs Hs0).
  rewrite (std_clamp_inside _ _ _ Hlo Hhi), (mul_of_int_one static Hs).
  apply saturate_of_int. exact Hs.
Qed.

(** X6.  In relative mode with [static = 0] the quotient is a division
    by zero.  For [deep <> 0] it is an infinity, the clamp brings it
    back to a finite bound, and the result is 0.  For [deep = 0] it is
    a NaN, which passes through the clamp and the multiplication: the
    product has no integer value to convert. *)
Theorem nudge_relative_static_zero (deep : Z) :
  leb zero (NudgedStaticParams.relative_nudge params) = true ->
  fits (NudgedStaticParams.relative_nudge params) 102 ->
  in_i16 deep ->
  let F := NudgedStaticParams.relative_nudge params in
  let product :=
    mul (of_int 0) (std_clamp ltb (div (of_int deep) (of_int 0)) (sub one F) (add one F)) in
  (deep <> 0 -> nudge params 0 deep = 0)
  /\ (deep = 0 -> is_nan product = true /\ int_representable product = false).
Proof.
  intros HF Hfit Hd F product.
  assert (Hone : fits one (-23)) by (split; [vm_compute; discriminate | lia]).
  pose proof (sub_fits one F (-23) 102 Hone Hfit ltac:(lia)) as Hlo.
  pose proof (add_fits one F (-23) 102 Hone Hfit ltac:(lia)) as Hhi.
  change (of_int 0) with (S754_zero false) in *.
  split.
  - intros Hd0.
    destruct (of_int_i16 deep Hd) as [[E _]|(_ & m & Hfd & _ & _)]; [contradiction|].
    assert (Ez : exists s', product = S754_zero s').
    { subst product. rewrite Hfd. fold F.
      destruct (sub one F) as [slo|slo| |slo mlo elo]; try contradiction;
      destruct (add one F) as [shi|shi| |shi mhi ehi]; try contradiction;
      destruct (deep <? 0); eexists; reflexivity. }
    destruct Ez as [s' Ez]. unfold nudge. rewrite Hmode.
    change (of_int 0) with (S754_zero false). fold F. fold product. rewrite Ez.
    reflexivity.
  - intros ->. subst product. change (of_int 0) with (S754_zero false).
    destruct (sub one F), (add one F); split; reflexivity.
Qed.

(** X24.  In relative mode with a fraction between 0 and 1 the
    adjusted score never has the sign opposite to that of the static
    score: the clamped ratio is not negative, so a positive static
    score gives a result that is not negative and a negative one a
    result that is not positive, whatever the deep score. *)
Theorem nudge_relative_keeps_sign (static deep : Z) :
  valid (NudgedStaticParams.relative_nudge params) = true ->
  leb zero (NudgedStaticParams.relative_nudge params) = true ->
  leb (NudgedStaticParams.relative_nudge params) one = true ->
  in_i16 static -> in_i16 deep ->
  (0 < static -> 0 <= nudge params static deep)
  /\ (static < 0 -> nudge params static deep <= 0).
Proof.
  intros Hv H0 H1 Hs Hd.
  assert (Hcase : forall Hs0 : static <> 0,
            (0 < static -> 0 <= nudge params static deep)
            /\ (static < 0 -> nudge params static deep <= 0)).
  { intros Hs0.
    destruct (relative_product _ static deep H0 Hs Hd Hs0) as [Hl Hfit].
    cbv zeta in Hl, Hfit.
    set (ratio := std_clamp ltb (div (of_int deep) (of_int static))
                    (sub one (NudgedStaticParams.relative_nudge params))
                    (add one (NudgedStaticParams.relative_nudge params))) in *.
    pose proof (zero_leb_trans _ _ (sub_one_nonneg _ Hv H0 H1) Hl) as Hratio.
    destruct (saturate_f32_to_i16_eq _ (int_representable_fits _ _ Hfit ltac:(lia)))
      as (t & Ht & _ & Hsat).
    assert (Hn : nudge params static deep = Z.max i16_min (Z.min i16_max t)).
    { unfold nudge. rewrite Hmode. exact Hsat. }
    destruct (of_int_i16 static Hs) as [[E _]|(_ & ms & Hfs & _ & _)];
      [contradiction|].
    rewrite Hfs in Ht.
    destruct (mul_trunc_sign _ _ _ _ _ Hratio Ht) as [Hpos Hneg].
    rewrite Hn. unfold i16_min, i16_max. split; intros Hsign.
    - assert (E : (static <? 0) = false) by (apply Z.ltb_ge; lia).
      specialize (Hpos E). lia.
    - assert (E : (static <? 0) = true) by (apply Z.ltb_lt; lia).
      specialize (Hneg E). lia. }
  split; intros Hsign; apply Hcase; lia.
Qed.

End RelativeMode.

Lemma nudge_relative_zero_fraction_witness :
  nudge (NudgedStaticParams.mk "in" "out" Relative 5 F32.zero F32.one_tenth) 7 (-300) = 7.
Proof.
  apply (nudge_relative_zero_fraction
           (NudgedStaticParams.mk "in" "out" Relative 5 F32.zero F32.one_tenth)
           eq_refl 7 (-300) eq_refl);
    unfold in_i16, i16_min, i16_max; lia.
Defined.

Lemma nudge_relative_agreeing_witness :
  nudge (NudgedStaticParams.mk "in" "out" Relative 5 F32.one_tenth F32.one_tenth)
    (-123) (-123) = -123.
Proof.
  apply (nudge_relative_agreeing
           (NudgedStaticParams.mk "in" "out" Relative 5 F32.one_tenth F32.one_tenth)
           eq_refl (-123) eq_refl);
    unfold in_i16, i16_min, i16_max; lia.
Defined.

Lemma nudge_relative_keeps_sign_witness :
  0 <= nudge (NudgedStaticParams.mk "in" "out" Relative 5 F32.one_tenth F32.one_tenth)
         25 (-3000).
Proof.
  refine (proj1 (nudge_relative_keeps_sign
           (NudgedStaticParams.mk "in" "out" Relative 5 F32.one_tenth F32.one_tenth)
           eq_refl 25 (-3000) eq_refl eq_refl eq_refl _ _) _);
    unfold in_i16, i16_min, i16_max; lia.
Defined.

Lemma nudge_relative_static_zero_witness :
  nudge (NudgedStaticParams.mk "in" "out" Relative 5 F32.one_tenth F32.one_tenth) 0 250 = 0.
Proof.
  refine (proj1 (nudge_relative_static_zero
           (NudgedStaticParams.mk "in" "out" Relative 5 F32.one_tenth F32.one_tenth)
           eq_refl 250 eq_refl _ _) _).
  - split; [vm_compute; discriminate | lia].
  - unfold in_i16, i16_min, i16_max; lia.
  - lia.
Defined.

(** ** Interpolate mode: the sign *)

Section InterpolateSign.
Import F32 F32Facts.

Lemma signed_pack (s : bool) (m e E : Z) :
  0 <= m -> fits (pack s m e) E -> signed s (pack s m e).
Proof.
  intros Hm. unfold pack. destruct m as [|p|p]; [intros _; exact I| |lia].
  destruct (e <=? 104); [intros _; reflexivity | intros []].
Qed.

Lemma of_int_signed (i : Z) :
  in_i16 i ->
  (0 <= i -> signed false (of_int i)) /\ (i <= 0 -> signed true (of_int i)).
Proof.
  intros Hi. destruct (of_int_i16 i Hi) as [[_ ->]|(Hi0 & m & -> & _)].
  - split; intros _; exact I.
  - cbn [signed]. split; intros Hs; [apply Z.ltb_ge | apply Z.ltb_lt]; lia.
Qed.

Lemma signed_of_leb_zero (x : float32) (E : Z) :
  leb zero x = true -> fits x E -> signed false x.
Proof.
  intros H0 Hfit. apply zero_leb_inv in H0.
  destruct x as [s|s| |s m e]; try contradiction; [exact I | exact H0].
Qed.

Lemma mul_signed (s : bool) (x y : float32) (E : Z) :
  signed s x -> signed false y -> fits (mul x y) E -> signed s (mul x y).
Proof.
  destruct x as [sx|sx| |sx mx ex]; try contradiction;
    destruct y as [sy|sy| |sy my ey]; try contradiction;
    cbn [signed]; intros Hx Hy; try (intros _; exact I).
  subst sx sy. unfold mul, SFmul. rewrite xorb_false_r.
  destruct (binary_round_aux_bound s (Zpos (mx * my)) (ex + ey) loc_Exact)
    as (m2 & e2 & Heq & Hm2 & _); [lia|].
  rewrite Heq. apply signed_pack. exact Hm2.
Qed.

Lemma add_signed (s : bool) (x y : float32) (E : Z) :
  signed s x -> signed s y -> fits (add x y) E -> signed s (add x y).
Proof.
  destruct x as [sx|sx| |sx mx ex]; try contradiction;
    destruct y as [sy|sy| |sy my ey]; try contradiction;
    cbn [signed]; intros Hx Hy.
  - intros _. unfold add, SFadd. destruct sx, sy; exact I.
  - intros _. exact Hy.
  - intros _. exact Hx.
  - subst sx sy. unfold add, SFadd.
    set (ez := Z.min ex ey).
    set (a := (shl_align mx ex ez).1). set (b := (shl_align my ey ez).1).
    destruct s; cbn [cond_Zopp];
      [change (- Zpos a + - Zpos b) with (Zneg (a + b))
      |change (Zpos a + Zpos b) with (Zpos (a + b))];
      cbn [binary_normalize].
    + destruct (binary_round_bound true (a + b) ez) as (m2 & e2 & Heq & Hm2 & _).
      rewrite Heq. apply signed_pack. exact Hm2.
    + destruct (binary_round_bound false (a + b) ez) as (m2 & e2 & Heq & Hm2 & _).
      rewrite Heq. apply signed_pack. exact Hm2.
Qed.

Lemma trunc_signed (s : bool) (x : float32) (t : Z) :
  signed s x -> trunc x = Some t -> (s = false -> 0 <= t) /\ (s = true -> t <= 0).
Proof.
  destruct x as [sx|sx| |sx m e]; try contradiction; cbn [signed trunc].
  - intros _ E. inversion E. lia.
  - intros -> E. inversion E.
    assert (Ha : 0 <= match e with
                      | Zneg q => Z.shiftr (Zpos m) (Zpos q)
                      | _ => Z.shiftl (Zpos m) e
                      end).
    { destruct e; [apply Z.shiftl_nonneg | apply Z.shiftl_nonneg
                  | apply Z.shiftr_nonneg]; lia. }
    destruct s; split; intros; try discriminate; lia.
Qed.

(** X26.  In interpolate mode with a valid weight in [0, 1], two
    16-bit scores that are both non-negative give a non-negative
    result, and two that are both non-positive give a non-positive
    one: the rounding of the two products and of their sum never
    crosses zero. *)
Theorem nudge_interpolate_keeps_sign (params : NudgedStaticParams.t)
    (static deep : Z) :
  NudgedStaticParams.mode params = Interpolate ->
  valid (NudgedStaticParams.interpolate_nudge params) = true ->
  leb zero (NudgedStaticParams.interpolate_nudge params) = true ->
  leb (NudgedStaticParams.interpolate_nudge params) one = true ->
  in_i16 static -> in_i16 deep ->
  (0 <= static -> 0 <= deep -> 0 <= nudge params static deep)
  /\ (static <= 0 -> deep <= 0 -> nudge params static deep <= 0).
Proof.
  intros Hmode Hvalid H0 H1 Hs Hd.
  set (W := NudgedStaticParams.interpolate_nudge params) in *.
  set (value := add (mul (of_int static) (sub one W)) (mul (of_int deep) W)).
  assert (Hn : nudge params static deep = saturate_f32_to_i16 value).
  { unfold nudge. rewrite Hmode. reflexivity. }
  pose proof (weight_fits W Hvalid H0 H1) as HW.
  assert (Hone : fits one (-23)) by (split; [vm_compute; discriminate | lia]).
  pose proof (of_int_fits static Hs) as Hfs.
  pose proof (of_int_fits deep Hd) as Hfd.
  assert (Hks : 0 <= Zdigits2 (Z.abs static) <= 16).
  { destruct (of_int_i16 static Hs) as [[-> _]|(_ & _ & _ & _ & Hk)]; [simpl; lia | lia]. }
  assert (Hkd : 0 <= Zdigits2 (Z.abs deep) <= 16).
  { destruct (of_int_i16 deep Hd) as [[-> _]|(_ & _ & _ & _ & Hk)]; [simpl; lia | lia]. }
  pose proof (sub_fits one W (-23) (-23) Hone HW ltac:(lia)) as Hsub.
  pose proof (mul_fits _ _ _ _ Hfs Hsub ltac:(lia)) as Hm1.
  pose proof (mul_fits _ _ _ _ Hfd HW ltac:(lia)) as Hm2.
  assert (Hm1' : fits (mul (of_int static) (sub one W)) (-4))
    by (eapply fits_le; [exact Hm1 | lia]).
  assert (Hm2' : fits (mul (of_int deep) W) (-6))
    by (eapply fits_le; [exact Hm2 | lia]).
  pose proof (add_fits _ _ _ _ Hm1' Hm2' ltac:(lia)) as Hadd.
  fold value in Hadd.
  destruct (saturate_f32_to_i16_eq value (int_representable_fits _ _ Hadd ltac:(lia)))
    as (t & Ht & _ & Hsat).
  rewrite Hn, Hsat.
  pose proof (signed_of_leb_zero W _ H0 HW) as HsW.
  pose proof (signed_of_leb_zero _ _ (sub_one_nonneg W Hvalid H0 H1) Hsub) as HsV.
  destruct (of_int_signed static Hs) as [Hsp Hsn].
  destruct (of_int_signed deep Hd) as [Hdp Hdn].
  assert (Hsign : forall s : bool,
            signed s (of_int static) -> signed s (of_int deep) -> signed s value).
  { intros s Hx Hy. unfold value. eapply add_signed; [| |exact Hadd].
    - eapply mul_signed; [exact Hx | exact HsV | exact Hm1'].
    - eapply mul_signed; [exact Hy | exact HsW | exact Hm2']. }
  unfold i16_min, i16_max. split; intros Hs' Hd'.
  - destruct (trunc_signed false value t (Hsign false (Hsp Hs') (Hdp Hd')) Ht)
      as [Hpos _].
    specialize (Hpos eq_refl). lia.
  - destruct (trunc_signed true value t (Hsign true (Hsn Hs') (Hdn Hd')) Ht)
      as [_ Hneg].
    specialize (Hneg eq_refl). lia.
Qed.

End InterpolateSign.

Lemma nudge_interpolate_keeps_sign_witness :
  nudge (NudgedStaticParams.mk "in" "out" Interpolate 5 F32.one_tenth F32.one_tenth)
    (-7) (-7) <= 0.
Proof.
  refine (proj2 (nudge_interpolate_keeps_sign
           (NudgedStaticParams.mk "in" "out" Interpolate 5 F32.one_tenth F32.one_tenth)
           (-7) (-7) eq_refl eq_refl eq_refl eq_refl _ _) _ _);
    unfold in_i16, i16_min, i16_max; lia.
Defined.

(** ** Constraint enforcement, once more *)

Section ConstraintFacts.

(** X7.  [enforce_constraints] is idempotent on both parameter structs
    and leaves a struct that already meets the constraints as it is.
    It does not repair a NaN fraction: [std::max(NaN, 0.0f)] is the
    NaN. *)
Theorem enforce_constraints_idempotent
    (p : NudgedStaticParams.t) (q : RescoreFenParams.t) :
  NudgedStaticParams.enforce_constraints (NudgedStaticParams.enforce_constraints p)
  = NudgedStaticParams.enforce_constraints p
  /\ RescoreFenParams.enforce_constraints (RescoreFenParams.enforce_constraints q)
     = RescoreFenParams.enforce_constraints q
  /\ (0 <= NudgedStaticParams.absolute_nudge p ->
      F32.ltb (NudgedStaticParams.relative_nudge p) F32.zero = false ->
      NudgedStaticParams.enforce_constraints p = p)
  /\ (1 <= RescoreFenParams.depth q -> RescoreFenParams.enforce_constraints q = q)
  /\ (F32.is_nan (NudgedStaticParams.relative_nudge p) = true ->
      F32.is_nan (NudgedStaticParams.relative_nudge
                    (NudgedStaticParams.enforce_constraints p)) = true).
Proof.
  destruct p as [i o m a r w], q as [i' o' d].
  unfold NudgedStaticParams.enforce_constraints, RescoreFenParams.enforce_constraints.
  cbn [NudgedStaticParams.input_filename NudgedStaticParams.output_filename
       NudgedStaticParams.mode NudgedStaticParams.absolute_nudge
       NudgedStaticParams.relative_nudge NudgedStaticParams.interpolate_nudge
       RescoreFenParams.input_filename RescoreFenParams.output_filename
       RescoreFenParams.depth].
  rewrite !std_max_Z.
  assert (Hr : std_max F32.ltb (std_max F32.ltb r F32.zero) F32.zero
               = std_max F32.ltb r F32.zero).
  { unfold std_max. destruct (F32.ltb r F32.zero) eqn:E; [reflexivity|].
    rewrite E. reflexivity. }
  split_and!.
  - rewrite Hr. f_equal. lia.
  - f_equal. lia.
  - intros Ha Hlt. unfold std_max at 1. rewrite Hlt. f_equal. lia.
  - intros Hd. f_equal. lia.
  - intros Hn. destruct r; try discriminate Hn. reflexivity.
Qed.

End ConstraintFacts.

(** ** The argument stream, word by word *)

Module WordFacts.
Import IStream.

Local Open Scope nat_scope.

Lemma length_append (a b : string) :
  String.length (a +:+ b) = String.length a + String.length b.
Proof. induction a as [|c a IH]; simpl; [reflexivity | rewrite IH; reflexivity]. Qed.

Lemma skip_ws_all_space (ws s : string) :
  all_space ws = true -> skip_ws (ws +:+ s) = skip_ws s.
Proof.
  induction ws as [|c ws IH]; [reflexivity|].
  change (String c ws +:+ s) with (String c (ws +:+ s)).
  cbn [all_space skip_ws].
  intros Hs. apply andb_true_iff in Hs as [Hc Hs]. rewrite Hc. apply IH, Hs.
Qed.

Lemma skip_ws_blank (ws : string) : all_space ws = true -> skip_ws ws = EmptyString.
Proof.
  induction ws as [|c ws IH]; [reflexivity|]. cbn [all_space skip_ws].
  intros Hs. apply andb_true_iff in Hs as [Hc Hs]. rewrite Hc. apply IH, Hs.
Qed.

Lemma read_word_word (w rest : string) :
  no_space w = true -> word_end rest = true -> read_word (w +:+ rest) = (w, rest).
Proof.
  intros Hw Hr. induction w as [|c w IH].
  - change (EmptyString +:+ rest) with rest.
    destruct rest as [|c r]; [reflexivity|].
    cbn [word_end] in Hr. cbn [read_word]. rewrite Hr. reflexivity.
  - change (String c w +:+ rest) with (String c (w +:+ rest)).
    cbn [no_space] in Hw. apply andb_true_iff in Hw as [Hc Hw].
    apply negb_true_iff in Hc. cbn [read_word]. rewrite Hc, (IH Hw). reflexivity.
Qed.

(** [is >> token] on white space, a word, and what may follow one. *)
Lemma get_string_word (ws w rest : string) :
  all_space ws = true -> is_word w = true -> word_end rest = true ->
  get_string (mk (ws +:+ w +:+ rest) false) = (Some w, mk rest false).
Proof.
  intros Hws Hw Hr. unfold get_string. cbn [failbit buf].
  rewrite (skip_ws_all_space _ _ Hws).
  destruct w as [|c w]; [discriminate Hw|]. cbn [is_word] in Hw.
  assert (Hc : isspace c = false).
  { cbn [no_space] in Hw. apply andb_true_iff in Hw as [Hc _].
    apply negb_true_iff, Hc. }
  change (String c w +:+ rest) with (String c (w +:+ rest)).
  cbn [skip_ws]. rewrite Hc.
  change (String c (w +:+ rest)) with (String c w +:+ rest).
  rewrite (read_word_word _ _ Hw Hr). reflexivity.
Qed.

(** [is >> token] when only white space is left. *)
Lemma get_string_blank (ws : string) :
  all_space ws = true -> get_string (mk ws false) = (None, mk EmptyString true).
Proof.
  intros Hws. unfold get_string. cbn [failbit buf].
  rewrite (skip_ws_blank _ Hws). reflexivity.
Qed.

Lemma get_num_blank {A : Type} (num_get : string -> num_result A) (ws : string) :
  all_space ws = true -> get_num num_get (mk ws false) = (None, mk EmptyString true).
Proof.
  intros Hws. unfold get_num. cbn [failbit buf].
  rewrite (skip_ws_blank _ Hws). reflexivity.
Qed.

Lemma get_num_ok {A : Type} (num_get : string -> num_result A) (s : string)
    (v : A) (n : nat) :
  skip_ws s <> EmptyString -> num_get (skip_ws s) = NumOk v n ->
  get_num num_get (mk s false) = (Some v, mk (drop n (skip_ws s)) false).
Proof.
  intros Hne Hn. unfold get_num. cbn [failbit buf].
  destruct (skip_ws s) as [|c r] eqn:E; [contradiction|]. rewrite Hn. reflexivity.
Qed.

Lemma get_num_fail {A : Type} (num_get : string -> num_result A) (s : string) (v : A) :
  skip_ws s <> EmptyString -> num_get (skip_ws s) = NumFail v ->
  get_num num_get (mk s false) = (Some v, mk (skip_ws s) true).
Proof.
  intros Hne Hn. unfold get_num. cbn [failbit buf].
  destruct (skip_ws s) as [|c r] eqn:E; [contradiction|]. rewrite Hn. reflexivity.
Qed.

Lemma is_word_length (w : string) : is_word w = true -> 0 < String.length w.
Proof. destruct w; [discriminate | simpl; lia]. Qed.

Lemma is_word_nonempty (w : string) : is_word w = true -> String.eqb w "" = false.
Proof. destruct w; [discriminate | reflexivity]. Qed.

End WordFacts.

(** ** The parsing loops do not depend on the fuel *)

Section ParseFuel.
Context `{Services}.

Local Open Scope nat_scope.

Lemma nudged_static_loop_mono (fuel : nat) :
  forall (ins : IStream.t) (p r : NudgedStaticParams.t) (fuel' : nat),
  nudged_static_loop fuel ins p = Some r -> fuel <= fuel' ->
  nudged_static_loop fuel' ins p = Some r.
Proof.
  induction fuel as [|fuel IH]; intros ins p r fuel' Hr Hle; [discriminate Hr|].
  destruct fuel' as [|fuel']; [lia|].
  cbn [nudged_static_loop] in Hr |- *.
  destruct (IStream.get_string ins) as [got ins1].
  destruct (String.eqb (store EmptyString got) ""); [exact Hr|].
  destruct (String.eqb (store EmptyString got) "absolute").
  { destruct (IStream.get_num num_get_int ins1) as [v ins2].
    apply (IH _ _ _ _ Hr). lia. }
  destruct (String.eqb (store EmptyString got) "relative").
  { destruct (IStream.get_num num_get_float ins1) as [v ins2].
    apply (IH _ _ _ _ Hr). lia. }
  destruct (String.eqb (store EmptyString got) "interpolate").
  { destruct (IStream.get_num num_get_float ins1) as [v ins2].
    apply (IH _ _ _ _ Hr). lia. }
  destruct (String.eqb (store EmptyString got) "input_file").
  { destruct (IStream.get_string ins1) as [v ins2]. apply (IH _ _ _ _ Hr). lia. }
  destruct (String.eqb (store EmptyString got) "output_file").
  { destruct (IStream.get_string ins1) as [v ins2]. apply (IH _ _ _ _ Hr). lia. }
  apply (IH _ _ _ _ Hr). lia.
Qed.

Lemma rescore_fen_loop_mono (fuel : nat) :
  forall (ins : IStream.t) (p r : RescoreFenParams.t) (fuel' : nat),
  rescore_fen_loop fuel ins p = Some r -> fuel <= fuel' ->
  rescore_fen_loop fuel' ins p = Some r.
Proof.
  induction fuel as [|fuel IH]; intros ins p r fuel' Hr Hle; [discriminate Hr|].
  destruct fuel' as [|fuel']; [lia|].
  cbn [rescore_fen_loop] in Hr |- *.
  destruct (IStream.get_string ins) as [got ins1].
  destruct (String.eqb (store EmptyString got) ""); [exact Hr|].
  destruct (String.eqb (store EmptyString got) "depth").
  { destruct (IStream.get_num num_get_int ins1) as [v ins2].
    apply (IH _ _ _ _ Hr). lia. }
  destruct (String.eqb (store EmptyString got) "input_file").
  { destruct (IStream.get_string ins1) as [v ins2]. apply (IH _ _ _ _ Hr). lia. }
  destruct (String.eqb (store EmptyString got) "output_file").
  { destruct (IStream.get_string ins1) as [v ins2]. apply (IH _ _ _ _ Hr). lia. }
  apply (IH _ _ _ _ Hr). lia.
Qed.

(** Any two amounts of fuel above the number of characters give the
    same parameters. *)
Lemma nudged_static_loop_fuel (fuel fuel' : nat) (ins : IStream.t)
    (p : NudgedStaticParams.t) :
  String.length (IStream.buf ins) < fuel ->
  String.length (IStream.buf ins) < fuel' ->
  nudged_static_loop fuel ins p = nudged_static_loop fuel' ins p.
Proof.
  intros Hf Hf'.
  destruct (nudged_static_loop_total fuel ins p Hf) as [r Hr].
  destruct (nudged_static_loop_total fuel' ins p Hf') as [r' Hr'].
  destruct (Nat.le_ge_cases fuel fuel') as [Hle|Hle].
  - rewrite (nudged_static_loop_mono _ _ _ _ _ Hr Hle). exact Hr.
  - rewrite Hr'. apply (nudged_static_loop_mono _ _ _ _ _ Hr' Hle).
Qed.

Lemma rescore_fen_loop_fuel (fuel fuel' : nat) (ins : IStream.t)
    (p : RescoreFenParams.t) :
  String.length (IStream.buf ins) < fuel ->
  String.length (IStream.buf ins) < fuel' ->
  rescore_fen_loop fuel ins p = rescore_fen_loop fuel' ins p.
Proof.
  intros Hf Hf'.
  destruct (rescore_fen_loop_total fuel ins p Hf) as [r Hr].
  destruct (rescore_fen_loop_total fuel' ins p Hf') as [r' Hr'].
  destruct (Nat.le_ge_cases fuel fuel') as [Hle|Hle].
  - rewrite (rescore_fen_loop_mono _ _ _ _ _ Hr Hle). exact Hr.
  - rewrite Hr'. apply (rescore_fen_loop_mono _ _ _ _ _ Hr' Hle).
Qed.

End ParseFuel.

(** ** What each kind of word does to the parameters *)

Section ParseSteps.
Context `{Services}.
Import WordFacts.

Local Open Scope nat_scope.

Lemma word_end_sep (sep s : string) :
  all_space sep = true -> sep <> EmptyString -> word_end (sep +:+ s) = true.
Proof.
  destruct sep as [|c sep]; [contradiction|]. intros Hs _.
  cbn [all_space] in Hs. apply andb_true_iff in Hs as [Hc _]. exact Hc.
Qed.

Lemma word_end_blank (rest : string) : all_space rest = true -> word_end rest = true.
Proof.
  destruct rest as [|c rest]; [reflexivity|]. intros Hs.
  cbn [all_space] in Hs. apply andb_true_iff in Hs as [Hc _]. exact Hc.
Qed.

Lemma not_key (w key : string) (keys : list string) :
  ~ In w keys -> In key keys -> String.eqb w key = false.
Proof. intros Hn Hin. apply String.eqb_neq. intros ->. contradiction. Qed.

(** X8.  A word that is not a key is skipped: both parsers go on with
    what follows it, the parameters unchanged. *)
Theorem parse_unknown_word (ws w rest : string) (fuel fuel' : nat)
    (p : NudgedStaticParams.t) (q : RescoreFenParams.t) :
  all_space ws = true -> is_word w = true -> word_end rest = true ->
  String.length (ws +:+ w +:+ rest) < fuel ->
  String.length rest < fuel' ->
  let ins := IStream.of_string (ws +:+ w +:+ rest) in
  let ins' := IStream.of_string rest in
  (~ In w ["absolute"; "relative"; "interpolate"; "input_file"; "output_file"] ->
   nudged_static_loop fuel ins p = nudged_static_loop fuel' ins' p)
  /\ (~ In w ["depth"; "input_file"; "output_file"] ->
      rescore_fen_loop fuel ins q = rescore_fen_loop fuel' ins' q).
Proof.
  intros Hws Hw Hr Hf Hf' ins ins'. subst ins ins'. unfold IStream.of_string.
  rewrite !length_append in Hf. pose proof (is_word_length w Hw) as Hlen.
  destruct fuel as [|fuel]; [lia|]. split; intros Hn.
  - cbn [nudged_static_loop]. rewrite (get_string_word _ _ _ Hws Hw Hr).
    cbn [store]. rewrite (is_word_nonempty w Hw).
    rewrite !(not_key w _ _ Hn) by (simpl; tauto).
    apply nudged_static_loop_fuel; cbn [IStream.buf]; lia.
  - cbn [rescore_fen_loop]. rewrite (get_string_word _ _ _ Hws Hw Hr).
    cbn [store]. rewrite (is_word_nonempty w Hw).
    rewrite !(not_key w _ _ Hn) by (simpl; tauto).
    apply rescore_fen_loop_fuel; cbn [IStream.buf]; lia.
Qed.

(** X9.  [input_file NAME] and [output_file NAME] store the next word,
    whatever it is, as the file name and leave the other parameters
    alone; both parsers go on with what follows the name. *)
Theorem parse_file_key (ws sep name rest : string) (fuel fuel' : nat)
    (p : NudgedStaticParams.t) (q : RescoreFenParams.t) :
  all_space ws = true -> all_space sep = true -> sep <> EmptyString ->
  is_word name = true -> word_end rest = true ->
  let tail := sep +:+ name +:+ rest in
  String.length ws + String.length tail + 11 < fuel ->
  String.length rest < fuel' ->
  nudged_static_loop fuel (IStream.of_string (ws +:+ "input_file" +:+ tail)) p
  = nudged_static_loop fuel' (IStream.of_string rest)
      (NudgedStaticParams.mk name (NudgedStaticParams.output_filename p)
         (NudgedStaticParams.mode p) (NudgedStaticParams.absolute_nudge p)
         (NudgedStaticParams.relative_nudge p) (NudgedStaticParams.interpolate_nudge p))
  /\ nudged_static_loop fuel (IStream.of_string (ws +:+ "output_file" +:+ tail)) p
     = nudged_static_loop fuel' (IStream.of_string rest)
         (NudgedStaticParams.mk (NudgedStaticParams.input_filename p) name
            (NudgedStaticParams.mode p) (NudgedStaticParams.absolute_nudge p)
            (NudgedStaticParams.relative_nudge p) (NudgedStaticParams.interpolate_nudge p))
  /\ rescore_fen_loop fuel (IStream.of_string (ws +:+ "input_file" +:+ tail)) q
     = rescore_fen_loop fuel' (IStream.of_string rest)
         (RescoreFenParams.mk name (RescoreFenParams.output_filename q)
            (RescoreFenParams.depth q))
  /\ rescore_fen_loop fuel (IStream.of_string (ws +:+ "output_file" +:+ tail)) q
     = rescore_fen_loop fuel' (IStream.of_string rest)
         (RescoreFenParams.mk (RescoreFenParams.input_filename q) name
            (RescoreFenParams.depth q)).
Proof.
  intros Hws Hsep Hne Hname Hr tail Hf Hf'. unfold IStream.of_string.
  pose proof (word_end_sep sep (name +:+ rest) Hsep Hne) as Htail. fold tail in Htail.
  assert (Hlen : String.length rest < String.length tail).
  { subst tail. rewrite !length_append. pose proof (is_word_length name Hname). lia. }
  destruct fuel as [|fuel]; [lia|].
  assert (Hg2 : IStream.get_string (IStream.mk tail false)
                = (Some name, IStream.mk rest false)).
  { subst tail. apply get_string_word; assumption. }
  split_and!.
  - cbn [nudged_static_loop].
    rewrite (get_string_word ws "input_file" tail Hws eq_refl Htail).
    cbn [store]. change (String.eqb "input_file" "") with false.
    change (String.eqb "input_file" "absolute") with false.
    change (String.eqb "input_file" "relative") with false.
    change (String.eqb "input_file" "interpolate") with false.
    change (String.eqb "input_file" "input_file") with true.
    cbv iota. rewrite Hg2. unfold with_input_file. cbn [store].
    apply nudged_static_loop_fuel; cbn [IStream.buf]; lia.
  - cbn [nudged_static_loop].
    rewrite (get_string_word ws "output_file" tail Hws eq_refl Htail).
    cbn [store]. change (String.eqb "output_file" "") with false.
    change (String.eqb "output_file" "absolute") with false.
    change (String.eqb "output_file" "relative") with false.
    change (String.eqb "output_file" "interpolate") with false.
    change (String.eqb "output_file" "input_file") with false.
    change (String.eqb "output_file" "output_file") with true.
    cbv iota. rewrite Hg2. unfold with_output_file. cbn [store].
    apply nudged_static_loop_fuel; cbn [IStream.buf]; lia.
  - cbn [rescore_fen_loop].
    rewrite (get_string_word ws "input_file" tail Hws eq_refl Htail).
    cbn [store]. change (String.eqb "input_file" "") with false.
    change (String.eqb "input_file" "depth") with false.
    change (String.eqb "input_file" "input_file") with true.
    cbv iota. rewrite Hg2. cbn [store].
    apply rescore_fen_loop_fuel; cbn [IStream.buf]; lia.
  - cbn [rescore_fen_loop].
    rewrite (get_string_word ws "output_file" tail Hws eq_refl Htail).
    cbn [store]. change (String.eqb "output_file" "") with false.
    change (String.eqb "output_file" "depth") with false.
    change (String.eqb "output_file" "input_file") with false.
    change (String.eqb "output_file" "output_file") with true.
    cbv iota. rewrite Hg2. cbn [store].
    apply rescore_fen_loop_fuel; cbn [IStream.buf]; lia.
Qed.

(** Decides the comparisons of a key with the names the loop knows. *)
Local Ltac decide_keys :=
  cbn [store];
  repeat match goal with
         | |- context [String.eqb ?a ?b] =>
             let r := eval vm_compute in (String.eqb a b) in
             change (String.eqb a b) with r
         end;
  cbv iota.

(** X10.  A mode key followed by a number that [num_get] accepts
    selects the mode and stores the number; [depth] stores its number.
    The parser goes on right after the characters [num_get] consumed. *)
Theorem parse_number_key (ws rest : string) (fuel fuel' : nat)
    (p : NudgedStaticParams.t) (q : RescoreFenParams.t) :
  all_space ws = true -> word_end rest = true ->
  IStream.skip_ws rest <> EmptyString ->
  String.length ws + String.length rest + 11 < fuel ->
  let s := IStream.skip_ws rest in
  let after := fun n => IStream.mk (IStream.drop n s) false in
  (forall v n, num_get_int s = NumOk v n ->
     String.length (IStream.drop n s) < fuel' ->
     nudged_static_loop fuel (IStream.of_string (ws +:+ "absolute" +:+ rest)) p
     = nudged_static_loop fuel' (after n)
         (NudgedStaticParams.mk (NudgedStaticParams.input_filename p)
            (NudgedStaticParams.output_filename p) Absolute v
            (NudgedStaticParams.relative_nudge p)
            (NudgedStaticParams.interpolate_nudge p)))
  /\ (forall v n, num_get_float s = NumOk v n ->
        String.length (IStream.drop n s) < fuel' ->
        nudged_static_loop fuel (IStream.of_string (ws +:+ "relative" +:+ rest)) p
        = nudged_static_loop fuel' (after n)
            (NudgedStaticParams.mk (NudgedStaticParams.input_filename p)
               (NudgedStaticParams.output_filename p) Relative
               (NudgedStaticParams.absolute_nudge p) v
               (NudgedStaticParams.interpolate_nudge p)))
  /\ (forall v n, num_get_float s = NumOk v n ->
        String.length (IStream.drop n s) < fuel' ->
        nudged_static_loop fuel (IStream.of_string (ws +:+ "interpolate" +:+ rest)) p
        = nudged_static_loop fuel' (after n)
            (NudgedStaticParams.mk (NudgedStaticParams.input_filename p)
               (NudgedStaticParams.output_filename p) Interpolate
               (NudgedStaticParams.absolute_nudge p)
               (NudgedStaticParams.relative_nudge p) v))
  /\ (forall v n, num_get_int s = NumOk v n ->
        String.length (IStream.drop n s) < fuel' ->
        rescore_fen_loop fuel (IStream.of_string (ws +:+ "depth" +:+ rest)) q
        = rescore_fen_loop fuel' (after n)
            (RescoreFenParams.mk (RescoreFenParams.input_filename q)
               (RescoreFenParams.output_filename q) v)).
Proof.
  intros Hws Hr Hne Hf s after. subst after. cbv beta. unfold IStream.of_string.
  pose proof (IStreamFacts.skip_ws_length rest) as Hs. fold s in Hs.
  destruct fuel as [|fuel]; [lia|].
  split_and!; intros v n Hn Hf'.
  - cbn [nudged_static_loop].
    rewrite (get_string_word ws "absolute" rest Hws eq_refl Hr). decide_keys.
    rewrite (get_num_ok num_get_int rest v n Hne Hn). unfold with_absolute. cbn [store].
    apply nudged_static_loop_fuel; cbn [IStream.buf]; [|exact Hf'].
    pose proof (IStreamFacts.drop_length n s). fold s. lia.
  - cbn [nudged_static_loop].
    rewrite (get_string_word ws "relative" rest Hws eq_refl Hr). decide_keys.
    rewrite (get_num_ok num_get_float rest v n Hne Hn). unfold with_relative. cbn [store].
    apply nudged_static_loop_fuel; cbn [IStream.buf]; [|exact Hf'].
    pose proof (IStreamFacts.drop_length n s). fold s. lia.
  - cbn [nudged_static_loop].
    rewrite (get_string_word ws "interpolate" rest Hws eq_refl Hr). decide_keys.
    rewrite (get_num_ok num_get_float rest v n Hne Hn). unfold with_interpolate.
    cbn [store].
    apply nudged_static_loop_fuel; cbn [IStream.buf]; [|exact Hf'].
    pose proof (IStreamFacts.drop_length n s). fold s. lia.
  - cbn [rescore_fen_loop].
    rewrite (get_string_word ws "depth" rest Hws eq_refl Hr). decide_keys.
    rewrite (get_num_ok num_get_int rest v n Hne Hn). cbn [store].
    apply rescore_fen_loop_fuel; cbn [IStream.buf]; [|exact Hf'].
    pose proof (IStreamFacts.drop_length n s). fold s. lia.
Qed.

(** X11.  A number key followed by characters that [num_get] rejects
    ends the parse: the mode is selected, the value [num_get] leaves
    behind is stored, [failbit] is set, and nothing that follows is
    read any more. *)
Theorem parse_number_failure (ws rest : string) (fuel : nat)
    (p : NudgedStaticParams.t) (q : RescoreFenParams.t) :
  all_space ws = true -> word_end rest = true ->
  IStream.skip_ws rest <> EmptyString ->
  let s := IStream.skip_ws rest in
  (forall v, num_get_int s = NumFail v ->
     nudged_static_loop (S (S fuel)) (IStream.of_string (ws +:+ "absolute" +:+ rest)) p
     = Some (NudgedStaticParams.mk (NudgedStaticParams.input_filename p)
               (NudgedStaticParams.output_filename p) Absolute v
               (NudgedStaticParams.relative_nudge p)
               (NudgedStaticParams.interpolate_nudge p)))
  /\ (forall v, num_get_float s = NumFail v ->
        nudged_static_loop (S (S fuel)) (IStream.of_string (ws +:+ "relative" +:+ rest)) p
        = Some (NudgedStaticParams.mk (NudgedStaticParams.input_filename p)
                  (NudgedStaticParams.output_filename p) Relative
                  (NudgedStaticParams.absolute_nudge p) v
                  (NudgedStaticParams.interpolate_nudge p)))
  /\ (forall v, num_get_float s = NumFail v ->
        nudged_static_loop (S (S fuel))
          (IStream.of_string (ws +:+ "interpolate" +:+ rest)) p
        = Some (NudgedStaticParams.mk (NudgedStaticParams.input_filename p)
                  (NudgedStaticParams.output_filename p) Interpolate
                  (NudgedStaticParams.absolute_nudge p)
                  (NudgedStaticParams.relative_nudge p) v))
  /\ (forall v, num_get_int s = NumFail v ->
        rescore_fen_loop (S (S fuel)) (IStream.of_string (ws +:+ "depth" +:+ rest)) q
        = Some (RescoreFenParams.mk (RescoreFenParams.input_filename q)
                  (RescoreFenParams.output_filename q) v)).
Proof.
  intros Hws Hr Hne s. unfold IStream.of_string.
  split_and!; intros v Hn.
  - cbn [nudged_static_loop].
    rewrite (get_string_word ws "absolute" rest Hws eq_refl Hr). decide_keys.
    rewrite (get_num_fail num_get_int rest v Hne Hn).
    rewrite IStreamFacts.get_string_failed by reflexivity. reflexivity.
  - cbn [nudged_static_loop].
    rewrite (get_string_word ws "relative" rest Hws eq_refl Hr). decide_keys.
    rewrite (get_num_fail num_get_float rest v Hne Hn).
    rewrite IStreamFacts.get_string_failed by reflexivity. reflexivity.
  - cbn [nudged_static_loop].
    rewrite (get_string_word ws "interpolate" rest Hws eq_refl Hr). decide_keys.
    rewrite (get_num_fail num_get_float rest v Hne Hn).
    rewrite IStreamFacts.get_string_failed by reflexivity. reflexivity.
  - cbn [rescore_fen_loop].
    rewrite (get_string_word ws "depth" rest Hws eq_refl Hr). decide_keys.
    rewrite (get_num_fail num_get_int rest v Hne Hn).
    rewrite IStreamFacts.get_string_failed by reflexivity. reflexivity.
Qed.

(** X12.  A key that ends the arguments, with no value after it: a
    mode key still selects its mode and keeps the number the struct
    held; [depth], [input_file] and [output_file] change nothing. *)
Theorem parse_key_at_end (ws rest : string) (fuel : nat)
    (p : NudgedStaticParams.t) (q : RescoreFenParams.t) :
  all_space ws = true -> all_space rest = true ->
  let nudged := fun key =>
    nudged_static_loop (S (S fuel)) (IStream.of_string (ws +:+ key +:+ rest)) p in
  let rescore := fun key =>
    rescore_fen_loop (S (S fuel)) (IStream.of_string (ws +:+ key +:+ rest)) q in
  let with_mode := fun m =>
    NudgedStaticParams.mk (NudgedStaticParams.input_filename p)
      (NudgedStaticParams.output_filename p) m (NudgedStaticParams.absolute_nudge p)
      (NudgedStaticParams.relative_nudge p) (NudgedStaticParams.interpolate_nudge p) in
  nudged "absolute" = Some (with_mode Absolute)
  /\ nudged "relative" = Some (with_mode Relative)
  /\ nudged "interpolate" = Some (with_mode Interpolate)
  /\ nudged "input_file" = Some p
  /\ nudged "output_file" = Some p
  /\ rescore "depth" = Some q
  /\ rescore "input_file" = Some q
  /\ rescore "output_file" = Some q.
Proof.
  intros Hws Hrest nudged rescore with_mode. subst nudged rescore with_mode.
  cbv beta. unfold IStream.of_string.
  pose proof (word_end_blank rest Hrest) as Hr.
  destruct p as [i o m a r w], q as [i' o' d].
  split_and!.
  - cbn [nudged_static_loop].
    rewrite (get_string_word ws "absolute" rest Hws eq_refl Hr). decide_keys.
    rewrite (get_num_blank num_get_int rest Hrest).
    rewrite IStreamFacts.get_string_failed by reflexivity. reflexivity.
  - cbn [nudged_static_loop].
    rewrite (get_string_word ws "relative" rest Hws eq_refl Hr). decide_keys.
    rewrite (get_num_blank num_get_float rest Hrest).
    rewrite IStreamFacts.get_string_failed by reflexivity. reflexivity.
  - cbn [nudged_static_loop].
    rewrite (get_string_word ws "interpolate" rest Hws eq_refl Hr). decide_keys.
    rewrite (get_num_blank num_get_float rest Hrest).
    rewrite IStreamFacts.get_string_failed by reflexivity. reflexivity.
  - cbn [nudged_static_loop].
    rewrite (get_string_word ws "input_file" rest Hws eq_refl Hr). decide_keys.
    rewrite (get_string_blank rest Hrest).
    rewrite IStreamFacts.get_string_failed by reflexivity. reflexivity.
  - cbn [nudged_static_loop].
    rewrite (get_string_word ws "output_file" rest Hws eq_refl Hr). decide_keys.
    rewrite (get_string_blank rest Hrest).
    rewrite IStreamFacts.get_string_failed by reflexivity. reflexivity.
  - cbn [rescore_fen_loop].
    rewrite (get_string_word ws "depth" rest Hws eq_refl Hr). decide_keys.
    rewrite (get_num_blank num_get_int rest Hrest).
    rewrite IStreamFacts.get_string_failed by reflexivity. reflexivity.
  - cbn [rescore_fen_loop].
    rewrite (get_string_word ws "input_file" rest Hws eq_refl Hr). decide_keys.
    rewrite (get_string_blank rest Hrest).
    rewrite IStreamFacts.get_string_failed by reflexivity. reflexivity.
  - cbn [rescore_fen_loop].
    rewrite (get_string_word ws "output_file" rest Hws eq_refl Hr). decide_keys.
    rewrite (get_string_blank rest Hrest).
    rewrite IStreamFacts.get_string_failed by reflexivity. reflexivity.
Qed.

End ParseSteps.

Lemma parse_unknown_word_witness :
  let toy := Toy.services None None true 1 (fun t => t) in
  @nudged_static_loop toy 30 (IStream.of_string "  verbose input_file a.bin")
    NudgedStaticParams.default
  = @nudged_static_loop toy 20 (IStream.of_string " input_file a.bin")
      NudgedStaticParams.default.
Proof.
  intros toy.
  refine (proj1 (@parse_unknown_word toy "  " "verbose" " input_file a.bin" 30 20
                   NudgedStaticParams.default RescoreFenParams.default
                   eq_refl eq_refl eq_refl _ _) _).
  - simpl. lia.
  - simpl. lia.
  - simpl. intros Hin. repeat (destruct Hin as [Hin|Hin]; [discriminate Hin|]).
    exact Hin.
Defined.

Lemma parse_file_key_witness :
  let toy := Toy.services None None true 1 (fun t => t) in
  @nudged_static_params toy (IStream.of_string "output_file input_file")
  = Some (NudgedStaticParams.mk "in.binpack" "input_file" Absolute 5
            F32.one_tenth F32.one_tenth).
Proof.
  intros toy.
  etransitivity.
  - refine (proj1 (proj2 (@parse_file_key toy "" " " "input_file" "" 23 1
                            NudgedStaticParams.default RescoreFenParams.default
                            eq_refl eq_refl _ eq_refl eq_refl _ _))).
    + discriminate.
    + simpl. lia.
    + simpl. lia.
  - reflexivity.
Defined.

Lemma parse_number_key_witness :
  let toy := Toy.services None None true 1 (fun t => t) in
  @nudged_static_params toy (IStream.of_string "interpolate 1 output_file o.bin")
  = Some (NudgedStaticParams.mk "in.binpack" "o.bin" Interpolate 5
            F32.one_tenth F32.one).
Proof.
  intros toy.
  etransitivity.
  - refine (proj1 (proj2 (proj2
             (@parse_number_key toy "" " 1 output_file o.bin" 32 19
                NudgedStaticParams.default RescoreFenParams.default
                eq_refl eq_refl _ _))) F32.one 1%nat eq_refl _).
    + discriminate.
    + simpl. lia.
    + simpl. lia.
  - reflexivity.
Defined.

Lemma parse_number_failure_witness :
  let toy := Toy.services None None true 1 (fun t => t) in
  @nudged_static_params toy (IStream.of_string "absolute x input_file a.bin")
  = Some (NudgedStaticParams.mk "in.binpack" "out.binpack" Absolute 0
            F32.one_tenth F32.one_tenth).
Proof.
  intros toy.
  refine (proj1 (@parse_number_failure toy "" " x input_file a.bin" 26
                   NudgedStaticParams.default RescoreFenParams.default
                   eq_refl eq_refl _) 0%Z eq_refl).
  discriminate.
Defined.

Lemma parse_key_at_end_witness :
  let toy := Toy.services None None true 1 (fun t => t) in
  @nudged_static_params toy (IStream.of_string "relative ")
  = Some (NudgedStaticParams.mk "in.binpack" "out.binpack" Relative 5
            F32.one_tenth F32.one_tenth).
Proof.
  intros toy.
  exact (proj1 (proj2 (@parse_key_at_end toy "" " " 8
                         NudgedStaticParams.default RescoreFenParams.default
                         eq_refl eq_refl))).
Defined.

(** ** The static-rescoring driver: failures, small inputs, records *)

Section NudgedStaticRuns.
Context `{Services}.
Variable params : NudgedStaticParams.t.

(** X13.  [do_nudged_static] checks the source first and the sink
    second, after it has asked for both.  If either is missing it
    returns with exactly one line on [std::cerr], nothing on
    [std::cout] and nothing written; the sink has been asked for even
    when the source could not be opened. *)
Theorem do_nudged_static_fatal (w : World) :
  let name_in := NudgedStaticParams.input_filename params in
  let name_out := NudgedStaticParams.output_filename params in
  let diagnostic :=
    match open_sfen_input_file name_in with
    | None => "Invalid input file type."
    | Some _ => "Invalid output file type."
    end in
  open_sfen_input_file name_in = None \/ create_new_sfen_output name_out = false ->
  exists w' : World,
    do_nudged_static params w = Returns w'
    /\ cerr w' = cerr w ++ [Str (diagnostic +:+ LF)]
    /\ cout w' = cout w
    /\ written w' = written w
    /\ files w' = files w ++ [OpenInput name_in; CreateOutput name_out]
    /\ limits w' = limits w
    /\ nnue_inits w' = nnue_inits w.
Proof.
  intros name_in name_out diagnostic Hfail. subst diagnostic.
  unfold do_nudged_static. fold name_in name_out.
  destruct (open_sfen_input_file name_in) as [input|] eqn:Hin.
  - destruct Hfail as [Hfail|Hfail]; [discriminate Hfail|]. rewrite Hfail.
    eexists. split; [reflexivity|].
    cbn [print_err touch cerr cout written files limits nnue_inits negb].
    rewrite <- app_assoc. split_and!; reflexivity.
  - eexists. split; [reflexivity|].
    cbn [print_err touch cerr cout written files limits nnue_inits].
    rewrite <- app_assoc. split_and!; reflexivity.
Qed.

(** The loop and the flushes touch nothing but [std::cout] and the
    sink. *)
Lemma nudged_loop_frame (input : PSVector) :
  forall st : nudged_state,
  let st' := nudged_loop params input st in
  cerr (ns_world st') = cerr (ns_world st)
  /\ files (ns_world st') = files (ns_world st)
  /\ limits (ns_world st') = limits (ns_world st)
  /\ nnue_inits (ns_world st') = nnue_inits (ns_world st).
Proof.
  induction input as [|ps rest IH]; intros st; [cbn; auto|].
  cbn [nudged_loop]. cbv zeta. cbn [ns_buffer].
  match goal with
  | |- context [nudged_loop params rest ?st2] => specialize (IH st2)
  end.
  cbv zeta in IH. destruct IH as (-> & -> & -> & ->).
  destruct (nudged_batch_size <=? _); cbn; auto.
Qed.

Lemma nudged_drain_frame (st : nudged_state) :
  cerr (ns_world (nudged_drain st)) = cerr (ns_world st)
  /\ files (ns_world (nudged_drain st)) = files (ns_world st)
  /\ limits (ns_world (nudged_drain st)) = limits (ns_world st)
  /\ nnue_inits (ns_world (nudged_drain st)) = nnue_inits (ns_world st).
Proof. unfold nudged_drain. destruct (ns_buffer st); cbn; auto. Qed.

(** What the loop and the flush after it hand to the sink. *)
Lemma do_nudged_static_frame (input : PSVector) (st : nudged_state) :
  Z.of_nat (length (ns_buffer st)) < nudged_batch_size ->
  let st' := nudged_drain (nudged_loop params input st) in
  cerr (ns_world st') = cerr (ns_world st)
  /\ exists batches : list PSVector,
       written (ns_world st') = written (ns_world st) ++ batches
       /\ concat batches = ns_buffer st ++ map (nudged_record params) input.
Proof.
  intros Hlen st'. subst st'. split.
  - destruct (nudged_drain_frame (nudged_loop params input st)) as [-> _].
    apply nudged_loop_frame.
  - destruct (nudged_loop_spec params input st Hlen)
      as (batches & Hw & Hc & _). cbv zeta in Hw, Hc.
    unfold nudged_drain.
    destruct (ns_buffer (nudged_loop params input st)) as [|b0 buf] eqn:Hbuf.
    + exists batches. rewrite app_nil_r in Hc. split; assumption.
    + exists (batches ++ [b0 :: buf]).
      cbn [nudged_flush ns_world written write print]. rewrite Hbuf, Hw.
      split; [rewrite app_assoc; reflexivity|].
      rewrite concat_app. cbn [concat]. rewrite app_nil_r. exact Hc.
Qed.

(** While the buffer stays below the threshold the loop only appends
    to it. *)
Lemma nudged_loop_small (input : PSVector) :
  forall st : nudged_state,
  Z.of_nat (length (ns_buffer st)) + Z.of_nat (length input) < nudged_batch_size ->
  nudged_loop params input st
  = mkNS (ns_buffer st ++ map (nudged_record params) input)
         (ns_num_processed st) (ns_world st).
Proof.
  induction input as [|ps rest IH]; intros st Hlen.
  - cbn [nudged_loop map]. rewrite app_nil_r. destruct st; reflexivity.
  - cbn [nudged_loop]. cbv zeta. cbn [ns_buffer].
    cbn [length] in Hlen.
    destruct (Z.leb_spec nudged_batch_size
                (Z.of_nat (length (ns_buffer st ++ [nudged_record params ps]))))
      as [Hfull|Hroom].
    { rewrite length_app in Hfull. cbn [length] in Hfull. lia. }
    rewrite IH.
    + cbn [ns_buffer ns_num_processed ns_world map]. rewrite <- app_assoc. reflexivity.
    + cbn [ns_buffer]. rewrite length_app. cbn [length]. lia.
Qed.

(** X14.  A run on fewer than 1,000,000 records writes them in one
    batch, after the loop, and reports their number once; a run on no
    record writes nothing and prints only the last line. *)
Theorem do_nudged_static_small (input : PSVector) (w : World) :
  open_sfen_input_file (NudgedStaticParams.input_filename params) = Some input ->
  create_new_sfen_output (NudgedStaticParams.output_filename params) = true ->
  Z.of_nat (length input) < 1000000 ->
  let w1 := touch (CreateOutput (NudgedStaticParams.output_filename params))
              (touch (OpenInput (NudgedStaticParams.input_filename params)) w) in
  do_nudged_static params w
  = Returns
      (print [Str ("Finished." +:+ LF)]
         match input with
         | [] => w1
         | _ :: _ =>
             print [Str "Processed "; Num (Z.of_nat (length input));
                    Str (" positions." +:+ LF)]
               (write (map (nudged_record params) input) w1)
         end).
Proof.
  intros Hin Hout Hlen w1. unfold do_nudged_static. rewrite Hin, Hout.
  cbn [negb]. fold w1. rewrite nudged_loop_small by (cbn [ns_buffer length]; exact Hlen).
  cbn [ns_buffer ns_num_processed ns_world app].
  destruct input as [|ps rest]; [reflexivity|].
  unfold nudged_drain. cbn [ns_buffer map].
  unfold nudged_flush. cbn [ns_buffer ns_num_processed ns_world].
  change (nudged_record params ps :: map (nudged_record params) rest)
    with (map (nudged_record params) (ps :: rest)).
  rewrite length_map. unfold u64_add, to_u64.
  rewrite Z.add_0_l, Z.mod_small by lia. reflexivity.
Qed.

(** Whatever the mode, [nudge] returns a 16-bit value. *)
Lemma nudge_range (static deep : Z) : in_i16 (nudge params static deep).
Proof.
  unfold nudge. destruct (NudgedStaticParams.mode params);
    apply saturate_i32_to_i16_range.
Qed.

(** X15.  A successful run emits one record for each record of the
    source, in the same order, and changes nothing but the score: the
    position, the move, the ply, the game result and the padding are
    those of the source record, and the new score is what [nudge] makes
    of the static evaluation of the position and the old score, a
    16-bit value.  Nothing goes to [std::cerr]. *)
Theorem do_nudged_static_records (input : PSVector) (w : World) :
  open_sfen_input_file (NudgedStaticParams.input_filename params) = Some input ->
  create_new_sfen_output (NudgedStaticParams.output_filename params) = true ->
  exists (w' : World) (emitted : PSVector),
    do_nudged_static params w = Returns w'
    /\ concat (written w') = concat (written w) ++ emitted
    /\ cerr w' = cerr w
    /\ Forall2
         (fun old new =>
            sfen new = sfen old
            /\ move new = move old
            /\ gamePly new = gamePly old
            /\ game_result new = game_result old
            /\ padding new = padding old
            /\ score new
               = nudge params (to_i16 (evaluate (set_from_packed_sfen (sfen old))))
                   (score old)
            /\ in_i16 (score new))
         input emitted.
Proof.
  intros Hin Hout.
  set (w1 := touch (CreateOutput (NudgedStaticParams.output_filename params))
               (touch (OpenInput (NudgedStaticParams.input_filename params)) w)).
  destruct (do_nudged_static_frame input (mkNS [] 0 w1)) as (Hcerr & batches & Hw & Hc).
  { cbn [ns_buffer length]. unfold nudged_batch_size. lia. }
  eexists. exists (map (nudged_record params) input).
  split; [unfold do_nudged_static; rewrite Hin, Hout; reflexivity|].
  fold w1. cbn [print written cerr]. split_and!.
  - rewrite Hw, concat_app, Hc. reflexivity.
  - exact Hcerr.
  - clear. induction input as [|ps rest IH]; [constructor|].
    cbn [map]. constructor; [|exact IH].
    unfold nudged_record, set_score.
    cbn [sfen move gamePly game_result padding score].
    split_and!; try reflexivity. apply nudge_range.
Qed.

(** The progress lines of the loop: the [j]-th flush reports [j]
    batches more than had been reported before. *)
Lemma nudged_loop_console (input : PSVector) :
  forall st : nudged_state,
  Z.of_nat (length (ns_buffer st)) < nudged_batch_size ->
  exists n : nat,
    let st' := nudged_loop params input st in
    cout (ns_world st')
    = cout (ns_world st)
      ++ flat_map (fun j => progress
                     (to_u64 (ns_num_processed st + nudged_batch_size * Z.of_nat j)))
           (seq 1 n)
    /\ Z.of_nat (length (ns_buffer st)) + Z.of_nat (length input)
       = nudged_batch_size * Z.of_nat n + Z.of_nat (length (ns_buffer st'))
    /\ Z.of_nat (length (ns_buffer st')) < nudged_batch_size
    /\ to_u64 (ns_num_processed st')
       = to_u64 (ns_num_processed st + nudged_batch_size * Z.of_nat n)
    /\ (0 <= ns_num_processed st < 2 ^ 64 -> 0 <= ns_num_processed st' < 2 ^ 64).
Proof.
  induction input as [|ps rest IH]; intros st Hlen.
  - exists 0%nat. cbn [nudged_loop seq flat_map length]. rewrite app_nil_r.
    split_and!; [reflexivity | lia | exact Hlen | f_equal; lia | auto].
  - cbn [nudged_loop]. cbv zeta.
    set (buffer1 := ns_buffer st ++ [nudged_record params ps]).
    assert (Hlen1 : Z.of_nat (length buffer1) = Z.of_nat (length (ns_buffer st)) + 1).
    { unfold buffer1. rewrite length_app. cbn [length]. lia. }
    cbn [ns_buffer].
    destruct (Z.leb_spec nudged_batch_size (Z.of_nat (length buffer1))) as [Hfull|Hroom].
    + destruct (IH (nudged_flush (mkNS buffer1 (ns_num_processed st) (ns_world st))))
        as (n & Hc & Hn & Hlt & Hnp & Hrange).
      { cbn [nudged_flush ns_buffer length]. unfold nudged_batch_size. lia. }
      exists (S n). cbv zeta in *.
      set (st' := nudged_loop params rest _) in *.
      cbn [nudged_flush ns_buffer ns_num_processed ns_world cout write print length]
        in Hc, Hn, Hnp, Hrange.
      assert (Hfullsize : Z.of_nat (length buffer1) = nudged_batch_size) by lia.
      rewrite Hfullsize in *. unfold u64_add in *.
      split_and!.
      * rewrite Hc. rewrite <- app_assoc. f_equal.
        cbn [seq flat_map].
        rewrite <- (seq_shift n 1), (flat_map_concat_map _ (map S _)), map_map, <- flat_map_concat_map.
        apply (f_equal2 (@app chunk)).
        { replace (ns_num_processed st + nudged_batch_size * Z.of_nat 1)
            with (ns_num_processed st + nudged_batch_size) by lia.
          reflexivity. }
        apply flat_map_ext. intros j. unfold to_u64.
        rewrite Zplus_mod_idemp_l.
        replace (ns_num_processed st + nudged_batch_size * Z.of_nat (S j))
          with (ns_num_processed st + nudged_batch_size
                + nudged_batch_size * Z.of_nat j) by lia.
        reflexivity.
      * cbn [length]. lia.
      * exact Hlt.
      * rewrite Hnp. unfold to_u64. rewrite Zplus_mod_idemp_l. f_equal. lia.
      * intros _. apply Hrange. unfold to_u64. apply Z.mod_pos_bound. lia.
    + destruct (IH (mkNS buffer1 (ns_num_processed st) (ns_world st)))
        as (n & Hc & Hn & Hlt & Hnp & Hrange).
      { cbn [ns_buffer]. lia. }
      exists n. cbv zeta in *.
      set (st' := nudged_loop params rest _) in *.
      cbn [ns_buffer ns_num_processed ns_world] in *.
      split_and!; auto. cbn [length]. lia.
Qed.

(** X16.  What a successful run prints, for [R] records and the
    threshold [T] of 1,000,000: one progress line after each full
    batch, the [j]-th reporting the running total [j * T]; one more
    reporting [R] when a partial batch is left; and the last line.  The
    totals are those of a 64-bit counter. *)
Theorem do_nudged_static_console (input : PSVector) (w : World) :
  open_sfen_input_file (NudgedStaticParams.input_filename params) = Some input ->
  create_new_sfen_output (NudgedStaticParams.output_filename params) = true ->
  let R := Z.of_nat (length input) in
  let T := nudged_batch_size in
  T = 1000000
  /\ exists w' : World,
    do_nudged_static params w = Returns w'
    /\ cout w'
       = cout w
         ++ flat_map (fun j => progress (to_u64 (T * Z.of_nat j)))
              (seq 1 (Z.to_nat (R / T)))
         ++ (if R mod T =? 0 then [] else progress (to_u64 R))
         ++ [Str ("Finished." +:+ LF)].
Proof.
  intros Hin Hout R T. split; [reflexivity|].
  set (w1 := touch (CreateOutput (NudgedStaticParams.output_filename params))
               (touch (OpenInput (NudgedStaticParams.input_filename params)) w)).
  destruct (nudged_loop_console input (mkNS [] 0 w1))
    as (n & Hc & Hn & Hlt & Hnp & Hrange).
  { cbn [ns_buffer length]. unfold nudged_batch_size. lia. }
  cbv zeta in *. cbn [ns_buffer ns_num_processed ns_world length] in *.
  set (st1 := nudged_loop params input (mkNS [] 0 w1)) in *.
  fold R in Hn. fold T in Hn, Hlt, Hc, Hnp.
  assert (HT : 0 < T) by (unfold T, nudged_batch_size; lia).
  assert (Hq : R / T = Z.of_nat n).
  { symmetry. apply (Z.div_unique R T _ (Z.of_nat (length (ns_buffer st1)))); lia. }
  assert (Hr : R mod T = Z.of_nat (length (ns_buffer st1))).
  { symmetry. apply (Z.mod_unique R T (Z.of_nat n)); lia. }
  assert (Hnp1 : ns_num_processed st1 = to_u64 (T * Z.of_nat n)).
  { rewrite Z.add_0_l in Hnp. rewrite <- Hnp. unfold to_u64. symmetry.
    apply Z.mod_small. apply Hrange. lia. }
  eexists. split; [unfold do_nudged_static; rewrite Hin, Hout; reflexivity|].
  fold w1. fold st1. cbn [print cout negb].
  rewrite Hq, Hr, Nat2Z.id. unfold nudged_drain.
  destruct (ns_buffer st1) as [|b0 buf] eqn:Hbuf.
  - cbn [length Z.of_nat Z.eqb app]. rewrite Hc. cbn [cout touch w1].
    rewrite <- app_assoc. reflexivity.
  - cbn [nudged_flush ns_world print write cout].
    destruct (Z.eqb_spec (Z.of_nat (length (b0 :: buf))) 0) as [E|_];
      [cbn [length] in E; lia|].
    rewrite Hbuf, Hc. cbn [cout touch w1]. rewrite <- !app_assoc.
    do 2 f_equal. unfold progress. cbn [app]. do 2 f_equal.
    rewrite Hnp1. unfold u64_add, to_u64. rewrite Zplus_mod_idemp_l.
    replace (T * Z.of_nat n + Z.of_nat (length (b0 :: buf))) with R by lia.
    reflexivity.
Qed.

End NudgedStaticRuns.

Lemma do_nudged_static_fatal_witness :
  let toy := Toy.services None None true 1 (fun t => t) in
  exists w' : @World toy,
    @do_nudged_static toy NudgedStaticParams.default (@empty_world toy) = Returns w'
    /\ @cerr toy w' = [Str ("Invalid input file type." +:+ LF)]
    /\ @files toy w' = [OpenInput "in.binpack"; CreateOutput "out.binpack"].
Proof.
  intros toy.
  destruct (@do_nudged_static_fatal toy NudgedStaticParams.default (@empty_world toy)
              (or_introl eq_refl))
    as (w' & Hrun & Hcerr & _ & _ & Hfiles & _).
  exists w'. split; [exact Hrun|]. split; [exact Hcerr | exact Hfiles].
Defined.

Lemma do_nudged_static_small_witness :
  let records := [mkPSV "8/8/8/8" 40 7%nat 3 1 0; mkPSV "k7/8/K7" (-12) 9%nat 5 0 0] in
  let toy := Toy.services (Some records) None true 1 (fun t => t) in
  @do_nudged_static toy NudgedStaticParams.default (@empty_world toy)
  = Returns
      (@mkWorld toy
         [Str "Processed "; Num 2; Str (" positions." +:+ LF); Str ("Finished." +:+ LF)]
         [] [OpenInput "in.binpack"; CreateOutput "out.binpack"]
         [[mkPSV "8/8/8/8" 12 7%nat 3 1 0; mkPSV "k7/8/K7" 2 9%nat 5 0 0]]
         0 (mkLimits false false 0 0)).
Proof.
  intros records toy.
  rewrite (@do_nudged_static_small toy NudgedStaticParams.default records
             (@empty_world toy) eq_refl eq_refl);
    [reflexivity | simpl; lia].
Defined.

Lemma do_nudged_static_records_witness :
  let records := [mkPSV "8/8/8/8" 40 7%nat 3 1 0; mkPSV "k7/8/K7" (-12) 9%nat 5 0 0] in
  let toy := Toy.services (Some records) None true 1 (fun t => t) in
  exists (w' : @World toy) (emitted : list (PackedSfenValue string nat)),
    @do_nudged_static toy NudgedStaticParams.default (@empty_world toy) = Returns w'
    /\ concat (@written toy w') = emitted
    /\ length emitted = 2%nat.
Proof.
  intros records toy.
  destruct (@do_nudged_static_records toy NudgedStaticParams.default records
              (@empty_world toy) eq_refl eq_refl)
    as (w' & emitted & Hrun & Hw & _ & Hall).
  exists w', emitted. split; [exact Hrun|]. split; [exact Hw|].
  symmetry. exact (Forall2_length _ _ _ Hall).
Defined.

Lemma do_nudged_static_console_witness :
  let records := [mkPSV "8/8/8/8" 40 7%nat 3 1 0; mkPSV "k7/8/K7" (-12) 9%nat 5 0 0] in
  let toy := Toy.services (Some records) None true 1 (fun t => t) in
  exists w' : @World toy,
    @do_nudged_static toy NudgedStaticParams.default (@empty_world toy) = Returns w'
    /\ @cout toy w'
       = [Str "Processed "; Num 2; Str (" positions." +:+ LF); Str ("Finished." +:+ LF)].
Proof.
  intros records toy.
  destruct (@do_nudged_static_console toy NudgedStaticParams.default records
              (@empty_world toy) eq_refl eq_refl)
    as (_ & w' & Hrun & Hcout).
  exists w'. split; [exact Hrun | exact Hcout].
Defined.

(** ** The search-rescoring driver: what a run leaves behind *)

Section PoolInvariants.
Context `{Services}.
Variable params : RescoreFenParams.t.

Local Open Scope nat_scope.

(** A property that every step of a worker keeps holds after a run. *)
Lemma pool_steps_keep (I : pool -> Prop) :
  (forall i p p', worker_step params i p = Some p' -> I p -> I p') ->
  forall p p', rtc (pool_step params) p p' -> I p -> I p'.
Proof.
  intros Hstep p p' Hrun. induction Hrun as [|p p1 p2 [i Hi] _ IH]; [auto|].
  intros Hp. apply IH. exact (Hstep i _ _ Hi Hp).
Qed.

Lemma pool_frame_step (w0 : World) (i : nat) (p p' : pool) :
  worker_step params i p = Some p' -> pool_frame w0 p ->
  pool_frame w0 p' /\ out p' = out p.
Proof.
  intros Hstep (Hcerr & Hfiles & Hlimits & Hnnue & Hnull).
  destruct (worker_step_kind params _ _ _ Hstep) as [_ Hkind].
  unfold pool_frame.
  destruct Hkind as [Hw Hf -> | fen rest Hw Hf Hv -> | fen rest Hw Hf Hv ->
                    | fen Hw Hf' Hw' Hb' Hn' Ho' Hpw' Hnd' Hs' | ps Hw ->].
  - cbn [set_worker pool_world out]. auto 10.
  - cbn [set_worker pool_world out]. auto 10.
  - cbn [set_worker pool_world out]. auto 10.
  - rewrite Hpw', Ho'. auto 10.
  - unfold append.
    destruct (Z.leb rescore_batch_size _); [destruct (out p) eqn:Hout|];
      cbn [pool_world out print write cerr files limits nnue_inits];
      rewrite ?Hout; split_and!; auto; discriminate.
Qed.

(** *** Where the lines and the records are *)

Lemma omap_cons_app {A B : Type} (f : A -> option B) (x : A) (l : list A) :
  omap f (x :: l) = option_list (f x) ++ omap f l.
Proof.
  change (omap f (x :: l))
    with (match f x with Some y => y :: omap f l | None => omap f l end).
  destruct (f x); reflexivity.
Qed.

(** Replacing one element moves what [f] makes of it in and out. *)
Lemma omap_insert_perm {A B : Type} (f : A -> option B) (ws : list A) :
  forall (i : nat) (old new : A),
  ws !! i = Some old ->
  omap f (<[i := new]> ws) ++ option_list (f old)
  ≡ₚ omap f ws ++ option_list (f new).
Proof.
  induction ws as [|x ws IH]; intros i old new Hi; [discriminate Hi|].
  destruct i as [|i].
  - inversion Hi; subst x.
    change (<[0 := new]> (old :: ws)) with (new :: ws).
    rewrite !omap_cons_app, <- !app_assoc.
    rewrite (Permutation_app_swap_app (option_list (f new))).
    rewrite (Permutation_app_swap_app (option_list (f old))).
    apply Permutation_app_head, Permutation_app_comm.
  - change (<[S i := new]> (x :: ws)) with (x :: <[i := new]> ws).
    rewrite !omap_cons_app, <- !app_assoc.
    apply Permutation_app_head. apply IH. exact Hi.
Qed.

Lemma omap_replicate_none {A B : Type} (f : A -> option B) (x : A) (k : nat) :
  f x = None -> omap f (replicate k x) = [].
Proof.
  intros Hx. induction k as [|k IH]; [reflexivity|].
  cbn [replicate]. rewrite omap_cons_app, Hx, IH. reflexivity.
Qed.

Lemma omap_finished {B : Type} (f : worker -> option B) (ws : list worker) :
  f Finished = None -> forallb is_finished ws = true -> omap f ws = [].
Proof.
  intros Hf. induction ws as [|wk ws IH]; [reflexivity|].
  cbn [forallb]. intros Hall. apply andb_true_iff in Hall as [Hwk Hall].
  destruct wk; try discriminate Hwk.
  rewrite omap_cons_app, Hf, (IH Hall). reflexivity.
Qed.

Lemma record_of_held (fen : string) :
  held_record (search_fen params fen) = record_of params fen.
Proof. unfold record_of. destruct (search_fen params fen); reflexivity. Qed.

Lemma held_fen_search (fen : string) : held_fen (search_fen params fen) = None.
Proof. destruct (search_fen_kind params fen) as [->|[ps ->]]; reflexivity. Qed.

Lemma alive_search (fen : string) : is_finished (search_fen params fen) = false.
Proof. destruct (search_fen_kind params fen) as [->|[ps ->]]; reflexivity. Qed.

(** A worker that is not finished swaps for one that is not: as many
    are alive. *)
Lemma alive_insert (ws : list worker) (i : nat) (old new : worker) :
  ws !! i = Some old -> is_finished old = false ->
  alive (<[i := new]> ws) + (if is_finished new then 1 else 0) = alive ws
  /\ 0 < alive ws.
Proof.
  intros Hw Hold. unfold alive.
  pose proof (count_workers_insert (fun wk => negb (is_finished wk)) _ _ _ new Hw) as Ha.
  pose proof (count_workers_insert (fun wk => negb (is_finished wk)) _ _ _ Finished Hw)
    as Hpos.
  cbv beta in Ha, Hpos. rewrite Hold in Ha, Hpos. cbn [negb is_finished] in Hpos.
  destruct (is_finished new); cbn [negb] in Ha; cbv iota in Ha |- *; lia.
Qed.

Lemma filter_valid_snoc (l : list string) (fen : string) :
  filter (fun fen => valid_fen fen = true) (l ++ [fen])
  = filter (fun fen => valid_fen fen = true) l
    ++ (if valid_fen fen then [fen] else []).
Proof.
  rewrite filter_app. f_equal.
  destruct (valid_fen fen) eqn:Hv.
  - rewrite filter_cons_True by exact Hv. reflexivity.
  - rewrite filter_cons_False by (rewrite Hv; discriminate). reflexivity.
Qed.

(** What the workers hold after worker [i] has become [new]. *)
Local Ltac held Hw new Hhf Hhr :=
  pose proof (omap_insert_perm held_fen _ _ _ new Hw) as Hhf;
  pose proof (omap_insert_perm held_record _ _ _ new Hw) as Hhr;
  rewrite ?held_fen_search in Hhf; rewrite ?record_of_held in Hhr;
  cbn [held_fen held_record option_list option_rect] in Hhf, Hhr;
  repeat rewrite app_nil_r in Hhf; repeat rewrite app_nil_r in Hhr.

Variables (fens0 : list string) (k : nat) (w0 : World).

Lemma pool_records_initial (sink : bool) :
  pool_records params fens0 k w0 (initial_pool fens0 k sink w0).
Proof.
  unfold pool_records, initial_pool.
  cbn [fens_file workers buffer pool_world null_deref].
  split; [|intros E; discriminate E]. intros _.
  exists [], [], []. unfold alive. rewrite count_workers_replicate. cbn [negb is_finished].
  rewrite !omap_replicate_none by reflexivity.
  split_and!; try reflexivity. rewrite app_nil_r. reflexivity.
Qed.

Lemma pool_records_step (i : nat) (p p' : pool) :
  worker_step params i p = Some p' ->
  pool_records params fens0 k w0 p -> pool_records params fens0 k w0 p'.
Proof.
  intros Hstep [Hrec _].
  destruct (worker_step_kind params _ _ _ Hstep) as [Hnull Hkind].
  destruct (Hrec Hnull) as (consumed & searched & flushed & Hfens & Hread & Hheld & Hwr & Hperm).
  clear Hrec. unfold pool_records.
  destruct Hkind as [Hw Hf -> | fen rest Hw Hf Hv -> | fen rest Hw Hf Hv ->
                    | fen Hw Hf' Hw' Hb' Hn' Ho' Hpw' Hnd' Hs' | ps Hw ->].
  - (* the end of the file *)
    cbn [set_worker fens_file workers buffer pool_world null_deref].
    split; [|rewrite Hnull; intros E; discriminate E]. intros _.
    exists consumed, searched, flushed.
    held Hw Finished Hhf Hhr.
    rewrite Hf in Hfens, Hread. rewrite lines_read_nil in Hread |- *.
    rewrite Hhf, Hhr. split_and!; assumption.
  - (* a line of ten characters or more *)
    cbn [set_worker fens_file workers buffer pool_world null_deref].
    split; [|rewrite Hnull; intros E; discriminate E]. intros _.
    exists (consumed ++ [fen]), searched, flushed.
    held Hw (AtSearch fen) Hhf Hhr.
    destruct (alive_insert _ _ _ (AtSearch fen) Hw eq_refl) as [Ha Hpos].
    cbn [is_finished] in Ha. rewrite Nat.add_0_r in Ha.
    rewrite Hf in Hfens, Hread. rewrite lines_read_valid in Hread by assumption.
    rewrite Ha, Hhf, Hhr, filter_valid_snoc, Hv. split_and!.
    + rewrite <- app_assoc. exact Hfens.
    + rewrite <- app_assoc. exact Hread.
    + rewrite app_assoc, Hheld. reflexivity.
    + exact Hwr.
    + exact Hperm.
  - (* a shorter line *)
    cbn [set_worker fens_file workers buffer pool_world null_deref].
    split; [|rewrite Hnull; intros E; discriminate E]. intros _.
    exists (consumed ++ [fen]), searched, flushed.
    held Hw Finished Hhf Hhr.
    destruct (alive_insert _ _ _ Finished Hw eq_refl) as [Ha Hpos].
    cbn [is_finished] in Ha.
    rewrite Hf in Hfens, Hread. rewrite <- Ha, Nat.add_1_r, lines_read_short in Hread
      by assumption.
    rewrite Hhf, Hhr, filter_valid_snoc, Hv, app_nil_r. split_and!.
    + rewrite <- app_assoc. exact Hfens.
    + rewrite <- app_assoc. exact Hread.
    + exact Hheld.
    + exact Hwr.
    + exact Hperm.
  - (* the search *)
    rewrite Hf', Hw', Hb', Hpw', Hnd'.
    split; [|rewrite Hnull; intros E; discriminate E]. intros _.
    exists consumed, (searched ++ [fen]), flushed.
    held Hw (search_fen params fen) Hhf Hhr.
    destruct (alive_insert _ _ _ (search_fen params fen) Hw eq_refl) as [Ha Hpos].
    rewrite alive_search, Nat.add_0_r in Ha.
    rewrite Ha. split_and!.
    + exact Hfens.
    + exact Hread.
    + rewrite <- app_assoc, (Permutation_app_comm [fen]), Hhf. exact Hheld.
    + exact Hwr.
    + rewrite omap_app, Hhr, !app_assoc, <- (app_assoc flushed), Hperm.
      apply Permutation_app_head.
      change (omap (record_of params) [fen])
        with (match record_of params fen with Some y => [y] | None => [] end).
      destruct (record_of params fen); reflexivity.
  - (* the critical section *)
    held Hw AtNextFen Hhf Hhr.
    destruct (alive_insert _ _ _ AtNextFen Hw eq_refl) as [Ha Hpos].
    cbn [is_finished] in Ha. rewrite Nat.add_0_r in Ha.
    unfold append.
    destruct (Z.leb rescore_batch_size _); [destruct (out p) eqn:Hsink|];
      cbn [fens_file workers buffer pool_world null_deref written write print].
    + split; [|rewrite Hnull; intros E; discriminate E]. intros _.
      exists consumed, searched, (flushed ++ buffer p ++ [ps]).
      rewrite Ha, Hhf. split_and!.
      * exact Hfens.
      * exact Hread.
      * exact Hheld.
      * rewrite concat_app, Hwr. cbn [concat]. rewrite app_nil_r, <- !app_assoc.
        reflexivity.
      * cbn [app]. rewrite <- !app_assoc, (Permutation_app_comm [ps]), Hhr.
        exact Hperm.
    + split; [intros E; discriminate E|]. intros _.
      assert (Hin : ps ∈ omap (record_of params) searched).
      { rewrite <- Hperm, !elem_of_app. right. right.
        apply list_elem_of_omap. exists (AtAppend ps).
        split; [eapply list_elem_of_lookup_2; exact Hw | reflexivity]. }
      apply list_elem_of_omap in Hin as (fen & Hfen & Hrecord).
      assert (Hfen' : fen ∈ filter (fun fen => valid_fen fen = true) consumed).
      { rewrite <- Hheld, elem_of_app. left. exact Hfen. }
      apply list_elem_of_filter in Hfen' as [Hv Hc].
      assert (Hdue : ps ∈ records_due params fens0 k).
      { unfold records_due. apply list_elem_of_omap. exists fen.
        split; [|exact Hrecord]. apply list_elem_of_filter. split; [exact Hv|].
        rewrite Hread, elem_of_app. left. exact Hc. }
      intros E. rewrite E in Hdue. apply elem_of_nil in Hdue. exact Hdue.
    + split; [|rewrite Hnull; intros E; discriminate E]. intros _.
      exists consumed, searched, flushed.
      rewrite Ha, Hhf. split_and!.
      * exact Hfens.
      * exact Hread.
      * exact Hheld.
      * exact Hwr.
      * rewrite <- !app_assoc, (Permutation_app_comm [ps]), Hhr. exact Hperm.
Qed.

(** *** One worker alone *)

Lemma append_workers (i : nat) (ps : PSV) (p : pool) :
  out p = true -> workers (append i ps p) = <[i := AtNextFen]> (workers p).
Proof.
  intros Hout. unfold append. rewrite Hout.
  destruct (Z.leb rescore_batch_size _); reflexivity.
Qed.

Lemma append_out (i : nat) (ps : PSV) (p : pool) :
  out (append i ps p) = out p /\ fens_file (append i ps p) = fens_file p.
Proof.
  unfold append.
  destruct (Z.leb rescore_batch_size _); [destruct (out p)|]; split; reflexivity.
Qed.

Lemma lone_lookup (wk old : worker) (i : nat) (new : worker) :
  [wk] !! i = Some old -> wk = old /\ <[i := new]> [wk] = [new].
Proof.
  destruct i as [|i]; [|discriminate]. intros Hw. inversion Hw. split; reflexivity.
Qed.

Lemma pending_search (fen : string) (rest : list string) :
  pending_records params (search_fen params fen) rest
  = pending_records params (AtSearch fen) rest.
Proof.
  cbn [pending_records]. unfold record_of.
  destruct (search_fen_kind params fen) as [->|[ps ->]]; reflexivity.
Qed.

Lemma lone_worker_step (i : nat) (p p' : pool) :
  worker_step params i p = Some p' ->
  lone_worker params fens0 w0 p -> lone_worker params fens0 w0 p'.
Proof.
  intros Hstep (wk & Hws & Hout & Hinv).
  destruct (worker_step_kind params _ _ _ Hstep) as [Hnull Hkind].
  unfold lone_worker.
  destruct Hkind as [Hw Hf -> | fen rest Hw Hf Hv -> | fen rest Hw Hf Hv ->
                    | fen Hw Hf' Hw' Hb' Hn' Ho' Hpw' Hnd' Hs' | ps Hw ->];
    rewrite Hws in Hw.
  - destruct (lone_lookup _ _ _ Finished Hw) as [-> Hins].
    exists Finished. cbn [set_worker fens_file workers buffer out pool_world].
    rewrite Hws, Hins. rewrite Hf in Hinv. split_and!; auto.
  - destruct (lone_lookup _ _ _ (AtSearch fen) Hw) as [-> Hins].
    exists (AtSearch fen). cbn [set_worker fens_file workers buffer out pool_world].
    rewrite Hws, Hins. rewrite Hf in Hinv.
    cbn [pending_records sequential_records] in Hinv |- *. rewrite Hv in Hinv.
    split_and!; auto.
  - destruct (lone_lookup _ _ _ Finished Hw) as [-> Hins].
    exists Finished. cbn [set_worker fens_file workers buffer out pool_world].
    rewrite Hws, Hins. rewrite Hf in Hinv.
    cbn [pending_records sequential_records] in Hinv |- *. rewrite Hv in Hinv.
    split_and!; auto.
  - destruct (lone_lookup _ _ _ (search_fen params fen) Hw) as [-> Hins].
    exists (search_fen params fen). rewrite Hw', Hws, Hins, Ho', Hpw', Hb', Hf'.
    rewrite pending_search. split_and!; auto.
  - destruct (lone_lookup _ _ _ AtNextFen Hw) as [-> Hins].
    exists AtNextFen. rewrite (append_workers _ _ _ Hout), Hws, Hins.
    destruct (append_out i ps p) as [-> ->].
    destruct (append_emits i ps p Hout) as [_ Hem].
    split_and!; auto.
    rewrite app_assoc, Hem, <- !app_assoc. exact Hinv.
Qed.

(** *** Batches and progress lines *)

Lemma pool_batches_step (i : nat) (p p' : pool) :
  worker_step params i p = Some p' -> pool_batches w0 p -> pool_batches w0 p'.
Proof.
  intros Hstep (Hout & batches & Hwr & Hfull & Hlen & Hnum & Hcout).
  destruct (worker_step_kind params _ _ _ Hstep) as [Hnull Hkind].
  unfold pool_batches.
  destruct Hkind as [Hw Hf -> | fen rest Hw Hf Hv -> | fen rest Hw Hf Hv ->
                    | fen Hw Hf' Hw' Hb' Hn' Ho' Hpw' Hnd' Hs' | ps Hw ->].
  - cbn [set_worker out pool_world buffer num_processed]. eauto 10.
  - cbn [set_worker out pool_world buffer num_processed]. eauto 10.
  - cbn [set_worker out pool_world buffer num_processed]. eauto 10.
  - rewrite Ho', Hpw', Hb', Hn'. eauto 10.
  - unfold append. rewrite Hout.
    assert (Hlen1 : Z.of_nat (length (buffer p ++ [ps]))
                    = (Z.of_nat (length (buffer p)) + 1)%Z).
    { rewrite length_app. cbn [length]. lia. }
    destruct (Z.leb_spec rescore_batch_size (Z.of_nat (length (buffer p ++ [ps]))))
      as [Hflush|Hroom];
      cbn [out pool_world buffer num_processed written cout write print].
    + split; [reflexivity|]. exists (batches ++ [buffer p ++ [ps]]).
      assert (Hsize : Z.of_nat (length (buffer p ++ [ps])) = rescore_batch_size)
        by lia.
      rewrite Hsize, length_app. cbn [length].
      assert (Hn : u64_add (num_processed p) rescore_batch_size
                   = to_u64 (rescore_batch_size * Z.of_nat (length batches + 1))).
      { rewrite Hnum. unfold u64_add, to_u64. rewrite Zplus_mod_idemp_l.
        f_equal. lia. }
      split_and!.
      * rewrite Hwr, app_assoc. reflexivity.
      * apply Forall_app. split; [exact Hfull|]. constructor; [exact Hsize | constructor].
      * unfold rescore_batch_size. lia.
      * exact Hn.
      * rewrite Hcout, Hn, Nat.add_1_r, seq_S, flat_map_app, <- app_assoc.
        cbn [flat_map]. rewrite app_nil_r. reflexivity.
    + split; [reflexivity|]. exists batches. split_and!; auto; lia.
Qed.

End PoolInvariants.

Section RescoreRuns.
Context `{Services}.
Variable params : RescoreFenParams.t.

Local Open Scope nat_scope.

(** The world in which the workers start. *)
Lemma do_rescore_fen_unfold (w : World) :
  let fens := default [] (ifstream (RescoreFenParams.input_filename params)) in
  let sink := create_new_sfen_output (RescoreFenParams.output_filename params) in
  let w1 := set_limits (mkLimits true true 0 0)
              (touch (CreateOutput (RescoreFenParams.output_filename params))
                 (touch (OpenInput (RescoreFenParams.input_filename params)) w)) in
  let p0 := initial_pool fens pool_size sink w1 in
  exists p : pool,
    rtc (pool_step params) p0 p
    /\ ((null_deref p = true /\ do_rescore_fen params w = Some (NullSink (pool_world p)))
        \/ (null_deref p = false /\ forallb is_finished (workers p) = true
            /\ do_rescore_fen params w = Some (finish_rescore p))).
Proof.
  intros fens sink w1 p0.
  destruct (execute_with_workers_spec params p0) as [Hrun Hend].
  exists (execute_with_workers params p0). split; [exact Hrun|].
  unfold do_rescore_fen. fold fens sink w1 p0.
  destruct (null_deref (execute_with_workers params p0)) eqn:Hnull.
  - left. split; reflexivity.
  - right. destruct Hend as [Hend|Hend]; [discriminate Hend|].
    rewrite Hend. split_and!; reflexivity.
Qed.

(** X17.  [do_rescore_fen] returns under every schedule, or ends in
    the dereference of the null sink.  Either way it has asked for the
    source and for the sink, it has written nothing to [std::cerr], and
    it leaves [Search::Limits] set to an infinite, silent search with
    no node and no depth limit, whatever depth was asked for. *)
Theorem do_rescore_fen_frame (w : World) :
  exists o : outcome,
    do_rescore_fen params w = Some o
    /\ cerr (world_of o) = cerr w
    /\ files (world_of o)
       = files w ++ [OpenInput (RescoreFenParams.input_filename params);
                     CreateOutput (RescoreFenParams.output_filename params)]
    /\ limits (world_of o) = mkLimits true true 0 0
    /\ nnue_inits (world_of o) = nnue_inits w.
Proof.
  destruct (do_rescore_fen_unfold w) as (p & Hrun & Hend). cbv zeta in Hrun.
  match type of Hrun with
  | rtc _ (initial_pool ?fens _ ?sink ?w1) _ =>
      assert (Hframe : pool_frame w1 p)
  end.
  { refine (pool_steps_keep params (pool_frame _) _ _ _ Hrun _).
    - intros i q q' Hstep Hq. exact (proj1 (pool_frame_step params _ i q q' Hstep Hq)).
    - unfold pool_frame, initial_pool. cbn [pool_world]. auto 10. }
  destruct Hframe as (Hcerr & Hfiles & Hlimits & Hnnue & _).
  cbn [set_limits touch cerr files limits nnue_inits] in Hcerr, Hfiles, Hlimits, Hnnue.
  rewrite <- app_assoc in Hfiles. cbn [app] in Hfiles.
  destruct Hend as [[_ Hdo]|(_ & _ & Hdo)].
  - eexists. split; [exact Hdo|]. cbn [world_of]. auto.
  - eexists. split; [exact Hdo|]. unfold finish_rescore.
    destruct (buffer p); [|destruct (out p)];
      cbn [world_of print write cerr files limits nnue_inits]; auto.
Qed.

Lemma lines_read_zero (fens : list string) : lines_read fens 0 = [].
Proof. destruct fens; reflexivity. Qed.

(** What is known when the workers have all returned. *)
Lemma pool_records_finished (fens0 : list string) (k : nat) (w0 : World) (p : pool) :
  pool_records params fens0 k w0 p ->
  null_deref p = false -> forallb is_finished (workers p) = true ->
  exists flushed : PSVector,
    concat (written (pool_world p)) = concat (written w0) ++ flushed
    /\ flushed ++ buffer p ≡ₚ records_due params fens0 k.
Proof.
  intros [Hrec _] Hnull Hfin.
  destruct (Hrec Hnull) as (consumed & searched & flushed & _ & Hread & Hheld & Hwr & Hperm).
  exists flushed. split; [exact Hwr|].
  rewrite (omap_finished held_record _ eq_refl Hfin), app_nil_r in Hperm.
  rewrite (omap_finished held_fen _ eq_refl Hfin), app_nil_r in Hheld.
  unfold alive in Hread.
  rewrite (count_workers_finished _ _ eq_refl Hfin), lines_read_zero, app_nil_r in Hread.
  unfold records_due. rewrite Hread, <- Hheld. exact Hperm.
Qed.

(** The run of the pool from the world in which the workers start,
    with the invariants that hold at its end. *)
Lemma do_rescore_fen_run (w : World) :
  let fens := default [] (ifstream (RescoreFenParams.input_filename params)) in
  let sink := create_new_sfen_output (RescoreFenParams.output_filename params) in
  let w1 := set_limits (mkLimits true true 0 0)
              (touch (CreateOutput (RescoreFenParams.output_filename params))
                 (touch (OpenInput (RescoreFenParams.input_filename params)) w)) in
  exists p : pool,
    rtc (pool_step params) (initial_pool fens pool_size sink w1) p
    /\ pool_records params fens pool_size w1 p
    /\ pool_frame w1 p
    /\ out p = sink
    /\ (null_deref p = true -> out p = false)
    /\ ((null_deref p = true /\ do_rescore_fen params w = Some (NullSink (pool_world p)))
        \/ (null_deref p = false /\ forallb is_finished (workers p) = true
            /\ do_rescore_fen params w = Some (finish_rescore p))).
Proof.
  intros fens sink w1.
  destruct (do_rescore_fen_unfold w) as (p & Hrun & Hend). cbv zeta in Hrun, Hend.
  fold fens sink w1 in Hrun.
  exists p. split; [exact Hrun|].
  split.
  { refine (pool_steps_keep params _ _ _ _ Hrun _).
    - intros i q q'. apply pool_records_step.
    - apply pool_records_initial. }
  split.
  { refine (pool_steps_keep params (pool_frame w1) _ _ _ Hrun _).
    - intros i q q' Hstep Hq. exact (proj1 (pool_frame_step params _ i q q' Hstep Hq)).
    - unfold pool_frame, initial_pool. cbn [pool_world]. auto 10. }
  pose proof (pool_inv_steps params fens pool_size sink w1 _ _ Hrun
                (pool_inv_initial fens pool_size sink w1)) as (_ & Hout & Hnd & _).
  split; [exact Hout|]. split; [exact Hnd|]. exact Hend.
Qed.

(** X18.  With a sink, a run writes exactly the records that are due:
    one for every line read that has ten characters or more and whose
    search finds a move, each once, in an order that depends on the
    schedule.  Which lines are read does not: they are the lines up to
    the short line that stops the last worker. *)
Theorem do_rescore_fen_records (w : World) :
  create_new_sfen_output (RescoreFenParams.output_filename params) = true ->
  let fens := default [] (ifstream (RescoreFenParams.input_filename params)) in
  exists w' : World,
    do_rescore_fen params w = Some (Returns w')
    /\ concat (written w')
       ≡ₚ concat (written w) ++ records_due params fens pool_size.
Proof.
  intros Hsink fens.
  destruct (do_rescore_fen_run w) as (p & _ & Hrec & _ & Hout & Hnd & Hend).
  cbv zeta in Hrec, Hout. fold fens in Hrec. rewrite Hsink in Hout.
  destruct Hend as [[Hnull _]|(Hnull & Hfin & Hdo)].
  { specialize (Hnd Hnull). congruence. }
  destruct (pool_records_finished _ _ _ _ Hrec Hnull Hfin) as (flushed & Hwr & Hperm).
  destruct (finish_rescore_written p Hout) as (w' & Hfinish & Hw' & _).
  exists w'. split; [rewrite Hdo, Hfinish; reflexivity|].
  rewrite Hw', Hwr, <- app_assoc, Hperm. reflexivity.
Qed.

(** X19.  Without a sink, the run ends in the dereference of the null
    pointer exactly when a record is due.  When none is (the source is
    missing or empty, or no search of a line read finds a move) the
    driver returns as after a good run: nothing written, nothing on
    [std::cerr], and the last line printed. *)
Theorem do_rescore_fen_null_sink (w : World) :
  create_new_sfen_output (RescoreFenParams.output_filename params) = false ->
  let fens := default [] (ifstream (RescoreFenParams.input_filename params)) in
  let w1 := set_limits (mkLimits true true 0 0)
              (touch (CreateOutput (RescoreFenParams.output_filename params))
                 (touch (OpenInput (RescoreFenParams.input_filename params)) w)) in
  (records_due params fens pool_size = [] ->
   do_rescore_fen params w = Some (Returns (print [Str ("Finished." +:+ LF)] w1)))
  /\ (records_due params fens pool_size <> [] ->
      do_rescore_fen params w = Some (NullSink w1)).
Proof.
  intros Hsink fens w1.
  destruct (do_rescore_fen_run w) as (p & _ & Hrec & Hframe & Hout & _ & Hend).
  cbv zeta in Hrec, Hframe, Hout. fold fens in Hrec. fold w1 in Hrec, Hframe.
  rewrite Hsink in Hout.
  destruct Hframe as (_ & _ & _ & _ & Hworld). specialize (Hworld Hout).
  destruct Hend as [[Hnull Hdo]|(Hnull & Hfin & Hdo)].
  - rewrite Hdo, Hworld. split; [|reflexivity].
    intros Hnone. exfalso. exact (proj2 Hrec Hnull Hnone).
  - destruct (pool_records_finished _ _ _ _ Hrec Hnull Hfin) as (flushed & Hwr & Hperm).
    rewrite Hworld in Hwr.
    assert (Hflushed : flushed = []).
    { apply (app_inv_head (concat (written w1))). rewrite app_nil_r. symmetry. exact Hwr. }
    subst flushed. cbn [app] in Hperm.
    rewrite Hdo. unfold finish_rescore. rewrite Hout, Hworld.
    destruct (buffer p) as [|b0 buf] eqn:Hbuf.
    + split; [reflexivity|]. intros Hsome. exfalso. apply Hsome.
      apply Permutation_nil in Hperm. exact Hperm.
    + split; [|reflexivity]. intros Hnone. rewrite Hnone in Hperm.
      apply Permutation_nil_r in Hperm. discriminate Hperm.
Qed.

Lemma forallb_finished_lone (wk : worker) :
  forallb is_finished [wk] = true -> wk = Finished.
Proof. destruct wk; try discriminate. reflexivity. Qed.

(** X20.  With a pool of one thread and a sink, the driver is the
    sequential loop: the records written are, in the order of the
    file, those of the lines before the first line of fewer than ten
    characters whose search finds a move. *)
Theorem do_rescore_fen_single_worker (w : World) :
  pool_size = 1%nat ->
  create_new_sfen_output (RescoreFenParams.output_filename params) = true ->
  let fens := default [] (ifstream (RescoreFenParams.input_filename params)) in
  exists w' : World,
    do_rescore_fen params w = Some (Returns w')
    /\ concat (written w') = concat (written w) ++ sequential_records params fens.
Proof.
  intros Hone Hsink fens.
  destruct (do_rescore_fen_run w) as (p & Hrun & _ & _ & Hout & Hnd & Hend).
  cbv zeta in Hrun, Hout. fold fens in Hrun. rewrite Hsink in Hout, Hrun.
  rewrite Hone in Hrun.
  match type of Hrun with
  | rtc _ (initial_pool _ _ _ ?w1) _ => assert (Hlone : lone_worker params fens w1 p)
  end.
  { refine (pool_steps_keep params _ _ _ _ Hrun _).
    - intros i q q'. apply lone_worker_step.
    - exists AtNextFen. cbn. auto. }
  destruct Hend as [[Hnull _]|(Hnull & Hfin & Hdo)].
  { specialize (Hnd Hnull). congruence. }
  destruct Hlone as (wk & Hws & _ & Hinv). rewrite Hws in Hfin.
  apply forallb_finished_lone in Hfin. subst wk.
  cbn [pending_records] in Hinv. rewrite app_nil_r in Hinv.
  destruct (finish_rescore_written p Hout) as (w' & Hfinish & Hw' & _).
  exists w'. split; [rewrite Hdo, Hfinish; reflexivity|].
  rewrite Hw', Hinv. reflexivity.
Qed.

(** X21.  With a sink, every batch the workers write holds exactly
    10,000 records and is reported with the running total; after the
    workers have returned, what is left, fewer than 10,000 records, is
    written as one more batch and reported with the final total, and
    the last line follows. *)
Theorem do_rescore_fen_batches (w : World) :
  create_new_sfen_output (RescoreFenParams.output_filename params) = true ->
  exists (w' : World) (full last : list PSVector),
    let reports :=
      flat_map (fun j => progress (to_u64 (10000 * Z.of_nat j)%Z))
        (seq 1 (length full)) in
    do_rescore_fen params w = Some (Returns w')
    /\ written w' = written w ++ full ++ last
    /\ Forall (fun b => Z.of_nat (length b) = 10000%Z) full
    /\ match last with
       | [] => cout w' = cout w ++ reports ++ [Str ("Finished." +:+ LF)]
       | [b] =>
           (0 < Z.of_nat (length b) < 10000)%Z
           /\ cout w'
              = cout w ++ reports
                ++ progress (to_u64 (10000 * Z.of_nat (length full)
                                     + Z.of_nat (length b))%Z)
                ++ [Str ("Finished." +:+ LF)]
       | _ => False
       end.
Proof.
  intros Hsink.
  destruct (do_rescore_fen_run w) as (p & Hrun & _ & _ & Hout & Hnd & Hend).
  cbv zeta in Hrun, Hout. rewrite Hsink in Hout, Hrun.
  match type of Hrun with
  | rtc _ (initial_pool _ _ _ ?w1) _ => assert (Hb : pool_batches w1 p)
  end.
  { refine (pool_steps_keep params _ _ _ _ Hrun _).
    - intros i q q'. apply pool_batches_step.
    - split; [reflexivity|]. exists []. cbn. rewrite !app_nil_r.
      unfold rescore_batch_size. split_and!; auto; lia. }
  destruct Hend as [[Hnull _]|(Hnull & Hfin & Hdo)].
  { specialize (Hnd Hnull). congruence. }
  destruct Hb as (_ & batches & Hwr & Hfull & Hlen & Hnum & Hcout).
  cbn [set_limits touch written cout] in Hwr, Hcout.
  unfold rescore_batch_size in Hfull, Hlen, Hnum, Hcout.
  rewrite Hdo. unfold finish_rescore. rewrite Hout.
  destruct (buffer p) as [|b0 buf] eqn:Hbuf.
  - eexists. exists batches, []. cbv zeta.
    split; [reflexivity|]. cbn [print written cout].
    rewrite app_nil_r, Hwr, Hcout, <- app_assoc. split_and!; auto.
  - eexists. exists batches, [b0 :: buf]. cbv zeta.
    split; [reflexivity|]. cbn [print write written cout].
    rewrite Hwr, Hcout, <- !app_assoc. split_and!; auto.
    + cbn [length] in Hlen |- *. lia.
    + do 2 f_equal. unfold progress. cbn [app]. do 2 f_equal.
      rewrite Hnum. unfold u64_add, to_u64. rewrite Zplus_mod_idemp_l. reflexivity.
Qed.

End RescoreRuns.

Lemma do_rescore_fen_records_witness :
  let fens := [Toy.startpos; "8/8/8 w"; "4k3/8/8/8/8/8/8/4K3 w - - 0 1"] in
  let toy := Toy.services None (Some fens) true 2 (fun t => t) in
  exists w' : @World toy,
    @do_rescore_fen toy RescoreFenParams.default (@empty_world toy) = Some (Returns w')
    /\ length (concat (@written toy w')) = 2%nat.
Proof.
  intros fens toy.
  destruct (@do_rescore_fen_records toy RescoreFenParams.default (@empty_world toy)
              eq_refl) as (w' & Hrun & Hperm).
  exists w'. split; [exact Hrun|].
  exact (Permutation_length Hperm).
Defined.

Lemma do_rescore_fen_null_sink_witness :
  let fens := ["8/8/8/8 w -"; "k7/8/K7 b -"] in
  let toy := Toy.services None (Some fens) false 2 (fun t => t) in
  @do_rescore_fen toy RescoreFenParams.default (@empty_world toy)
  = Some (Returns
            (@mkWorld toy [Str ("Finished." +:+ LF)] []
               [OpenInput "in.epd"; CreateOutput "out.binpack"] [] 0
               (mkLimits true true 0 0))).
Proof.
  intros fens toy.
  exact (proj1 (@do_rescore_fen_null_sink toy RescoreFenParams.default
                  (@empty_world toy) eq_refl) eq_refl).
Defined.

Lemma do_rescore_fen_single_worker_witness :
  let fens := [Toy.startpos; "8/8/8 w"; "4k3/8/8/8/8/8/8/4K3 w - - 0 1"] in
  let toy := Toy.services None (Some fens) true 1 (fun t => t) in
  exists w' : @World toy,
    @do_rescore_fen toy RescoreFenParams.default (@empty_world toy) = Some (Returns w')
    /\ concat (@written toy w') = [mkPSV Toy.startpos 168 56%nat 1 0 0].
Proof.
  intros fens toy.
  destruct (@do_rescore_fen_single_worker toy RescoreFenParams.default
              (@empty_world toy) eq_refl eq_refl) as (w' & Hrun & Hw).
  exists w'. split; [exact Hrun | exact Hw].
Defined.

Lemma do_rescore_fen_batches_witness :
  let fens := [Toy.startpos; "8/8/8 w"; "4k3/8/8/8/8/8/8/4K3 w - - 0 1"] in
  let toy := Toy.services None (Some fens) true 2 (fun t => t) in
  exists (w' : @World toy) (full last : list (list (PackedSfenValue string nat))),
    @do_rescore_fen toy RescoreFenParams.default (@empty_world toy) = Some (Returns w')
    /\ @written toy w' = full ++ last
    /\ Forall (fun b => Z.of_nat (length b) = 10000) full.
Proof.
  intros fens toy.
  destruct (@do_rescore_fen_batches toy RescoreFenParams.default (@empty_world toy)
              eq_refl) as (w' & full & last & Hrun & Hw & Hfull & _).
  exists w', full, last. split; [exact Hrun|]. split; [exact Hw | exact Hfull].
Defined.

(** ** The command dispatcher on its argument string *)

Section DispatchWords.
Context `{Services}.
Import WordFacts.

(** X22.  A command line that starts, after any white space, with the
    word [nudged_static] or [rescore_fen] initialises the evaluator
    once and hands the characters after that word, untouched, to the
    command of that name. *)
Theorem transform_runs_command (ws rest : string) (w : World) :
  all_space ws = true -> word_end rest = true ->
  transform (IStream.of_string (ws +:+ "nudged_static" +:+ rest)) w
  = nudged_static (IStream.of_string rest) (nnue_init w)
  /\ transform (IStream.of_string (ws +:+ "rescore_fen" +:+ rest)) w
     = rescore_fen (IStream.of_string rest) (nnue_init w).
Proof.
  intros Hws Hr. unfold transform, IStream.of_string. split.
  - rewrite (get_string_word ws "nudged_static" rest Hws eq_refl Hr).
    cbn [store]. unfold subcommands. rewrite lookup_insert_eq. reflexivity.
  - rewrite (get_string_word ws "rescore_fen" rest Hws eq_refl Hr).
    cbn [store]. unfold subcommands.
    rewrite lookup_insert_ne by discriminate. rewrite lookup_insert_eq. reflexivity.
Qed.

(** X23.  A command line with no word on it, empty or all white
    space, is an invalid subcommand with the empty name: the evaluator
    is initialised, the message is printed, and nothing else
    happens. *)
Theorem transform_blank (ws : string) (w : World) :
  all_space ws = true ->
  transform (IStream.of_string ws) w
  = Some (Returns
            (print [Str "Invalid subcommand "; Str ""; Str (". Exiting..." +:+ LF)]
               (nnue_init w))).
Proof.
  intros Hws. unfold transform, IStream.of_string.
  rewrite (get_string_blank ws Hws). cbn [store]. unfold subcommands.
  rewrite lookup_insert_ne by discriminate.
  rewrite lookup_insert_ne by discriminate.
  rewrite lookup_empty. reflexivity.
Qed.

End DispatchWords.

(** ** The commands: the echo comes first *)

Section CommandEcho.
Context `{Services}.

(** Both drivers only add to [std::cout]. *)
Lemma do_nudged_static_cout (params : NudgedStaticParams.t) (w : World) :
  exists tail : list chunk,
    cout (world_of (do_nudged_static params w)) = cout w ++ tail.
Proof.
  unfold do_nudged_static.
  destruct (open_sfen_input_file _) as [input|];
    [|exists []; cbn; rewrite app_nil_r; reflexivity].
  destruct (create_new_sfen_output _);
    [|exists []; cbn; rewrite app_nil_r; reflexivity].
  cbn [negb world_of print cout].
  match goal with
  | |- context [nudged_loop params input ?st0] =>
      destruct (nudged_loop_console params input st0) as (n & Hc & _);
        [cbn [ns_buffer length]; unfold nudged_batch_size; lia|];
      cbv zeta in Hc; set (st1 := nudged_loop params input st0) in *
  end.
  cbn [ns_world touch cout] in Hc.
  unfold nudged_drain.
  destruct (ns_buffer st1); cbn [nudged_flush ns_world print write cout];
    rewrite Hc, <- ?app_assoc; eexists; reflexivity.
Qed.

Lemma pool_cout_step (params : RescoreFenParams.t) (w0 : World) (i : nat)
    (p p' : pool) :
  worker_step params i p = Some p' ->
  (exists tail, cout (pool_world p) = cout w0 ++ tail) ->
  exists tail, cout (pool_world p') = cout w0 ++ tail.
Proof.
  intros Hstep [tail Hc].
  destruct (worker_step_kind params _ _ _ Hstep) as [_ Hkind].
  destruct Hkind as [Hw Hf -> | fen rest Hw Hf Hv -> | fen rest Hw Hf Hv ->
                    | fen Hw Hf' Hw' Hb' Hn' Ho' Hpw' Hnd' Hs' | ps Hw ->].
  - exists tail. exact Hc.
  - exists tail. exact Hc.
  - exists tail. exact Hc.
  - exists tail. rewrite Hpw'. exact Hc.
  - unfold append.
    destruct (Z.leb rescore_batch_size _); [destruct (out p)|];
      cbn [pool_world print write cout]; rewrite Hc, <- ?app_assoc;
      eexists; reflexivity.
Qed.

Lemma do_rescore_fen_cout (params : RescoreFenParams.t) (w : World) (o : outcome) :
  do_rescore_fen params w = Some o ->
  exists tail : list chunk, cout (world_of o) = cout w ++ tail.
Proof.
  intros Hdo.
  destruct (do_rescore_fen_unfold params w) as (p & Hrun & Hend). cbv zeta in Hrun.
  assert (Hc : exists tail, cout (pool_world p) = cout w ++ tail).
  { refine (pool_steps_keep params
              (fun q => exists tail, cout (pool_world q) = cout w ++ tail)
              _ _ _ Hrun _).
    - intros i q q'. apply pool_cout_step.
    - exists []. cbn. rewrite app_nil_r. reflexivity. }
  destruct Hc as [tail Hc].
  destruct Hend as [[_ Hdo']|(_ & _ & Hdo')];
    rewrite Hdo' in Hdo; inversion Hdo; subst o.
  - exists tail. exact Hc.
  - unfold finish_rescore. destruct (buffer p); [|destruct (out p)];
      cbn [world_of print write cout]; rewrite Hc, <- ?app_assoc;
      eexists; reflexivity.
Qed.

(** X25.  Each command parses its arguments whatever they are, prints
    the echo of the parameters as parsed, and only then enforces the
    constraints and runs its driver: the echo is what [std::cout]
    receives first, also when the run fails, and it shows the values
    before they are clamped. *)
Theorem command_echo_first (ins : IStream.t) (w : World) :
  (exists (p : NudgedStaticParams.t) (tail : list chunk),
     nudged_static_params ins = Some p
     /\ nudged_static ins w
        = Some (do_nudged_static (NudgedStaticParams.enforce_constraints p)
                  (print (nudged_static_echo p) w))
     /\ cout (world_of (do_nudged_static (NudgedStaticParams.enforce_constraints p)
                          (print (nudged_static_echo p) w)))
        = cout w ++ nudged_static_echo p ++ tail)
  /\ (exists (q : RescoreFenParams.t) (o : outcome) (tail : list chunk),
        rescore_fen_params ins = Some q
        /\ rescore_fen ins w = Some o
        /\ do_rescore_fen (RescoreFenParams.enforce_constraints q)
             (print (rescore_fen_echo q) w) = Some o
        /\ cout (world_of o) = cout w ++ rescore_fen_echo q ++ tail).
Proof.
  split.
  - destruct (nudged_static_params_total ins) as [p Hp].
    destruct (do_nudged_static_cout (NudgedStaticParams.enforce_constraints p)
                (print (nudged_static_echo p) w)) as [tail Hc].
    exists p, tail. split; [exact Hp|].
    split; [unfold nudged_static; rewrite Hp; reflexivity|].
    rewrite Hc. cbn [print cout]. rewrite <- app_assoc. reflexivity.
  - destruct (rescore_fen_params_total ins) as [q Hq].
    assert (Hrun : exists o, do_rescore_fen (RescoreFenParams.enforce_constraints q)
                               (print (rescore_fen_echo q) w) = Some o).
    { destruct (do_rescore_fen_unfold (RescoreFenParams.enforce_constraints q)
                  (print (rescore_fen_echo q) w)) as (p & _ & [[_ Hdo]|(_ & _ & Hdo)]);
        eexists; exact Hdo. }
    destruct Hrun as [o Hdo].
    destruct (do_rescore_fen_cout _ _ _ Hdo) as [tail Hc].
    exists q, o, tail. split; [exact Hq|].
    split; [unfold rescore_fen; rewrite Hq; exact Hdo|].
    split; [exact Hdo|].
    rewrite Hc. cbn [print cout]. rewrite <- app_assoc. reflexivity.
Qed.

End CommandEcho.

Lemma transform_runs_command_witness :
  let toy := Toy.services None None true 1 (fun t => t) in
  @transform toy (IStream.of_string "  rescore_fen depth 2") (@empty_world toy)
  = @rescore_fen toy (IStream.of_string " depth 2") (@nnue_init toy (@empty_world toy)).
Proof.
  intros toy.
  exact (proj2 (@transform_runs_command toy "  " " depth 2" (@empty_world toy)
                  eq_refl eq_refl)).
Defined.

Lemma transform_blank_witness :
  let toy := Toy.services None None true 1 (fun t => t) in
  @transform toy (IStream.of_string "   ") (@empty_world toy)
  = Some (Returns
            (@mkWorld toy
               [Str "Invalid subcommand "; Str ""; Str (". Exiting..." +:+ LF)]
               [] [] [] 1 (mkLimits false false 0 0))).
Proof.
  intros toy.
  exact (@transform_blank toy "   " (@empty_world toy) eq_refl).
Defined.
